(** * docker-registry-pruner: the registry client and the pruning loop

    A shallow embedding of [registry/api.go] (the HTTP client with its
    bearer-token challenge/response flow, catalog pagination and the
    tag/digest grouping) and of [main.go] (the pruning loop), followed by
    the properties proved about them.

    Go strings are byte strings and are modelled by [string]; Go [int],
    [time.Time] instants and [time.Duration] are modelled by [Z]; a Go
    [map[string]T] is a [gmap string T]. *)

From Stdlib Require Import ZArith Ascii String List Lia Permutation.
From stdpp Require Import base option list gmap strings fin_maps.

Local Open Scope Z_scope.

(** ** Byte strings *)

Module GoString.

(** The double quote, byte 0x22. *)
Definition dquote : ascii := ascii_of_nat 34.

(** [len(s)] *)
Definition len (s : string) : Z := Z.of_nat (String.length s).

(** [strings.Index(s, c)] for a one-byte needle: the position of the first
    occurrence, or -1. *)
Fixpoint index (c : ascii) (s : string) : Z :=
  match s with
  | EmptyString => -1
  | String a s' =>
      if Ascii.eqb a c then 0
      else let r := index c s' in if r <? 0 then -1 else r + 1
  end.

(** [strings.LastIndex(s, c)] for a one-byte needle: the position of the
    last occurrence, or -1. *)
Fixpoint lastIndex (c : ascii) (s : string) : Z :=
  match s with
  | EmptyString => -1
  | String a s' =>
      let r := lastIndex c s' in
      if 0 <=? r then r + 1 else if Ascii.eqb a c then 0 else -1
  end.

(** The slice expression [s[lo:hi]].  It panics at run time unless
    [0 <= lo <= hi <= len(s)]; [None] stands for that panic. *)
Definition slice (s : string) (lo hi : Z) : option string :=
  if (0 <=? lo) && (lo <=? hi) && (hi <=? len s)
  then Some (String.substring (Z.to_nat lo) (Z.to_nat (hi - lo)) s)
  else None.

(** [c] occurs in [s]. *)
Fixpoint occurs (c : ascii) (s : string) : bool :=
  match s with
  | EmptyString => false
  | String a s' => Ascii.eqb a c || occurs c s'
  end.

End GoString.

(** ** The regular expression of [extractKeyValuePairs]

    The pattern compiled by [regexp.MustCompile] is: a group of one or more
    [\w] (greedy), an equals sign, a double quote, a group of zero or more
    bytes other than the double quote (greedy), and a double quote.  It is
    matched against the bytes of the header.  [\w] is the ASCII class
    [0-9A-Za-z_]; the quote is a single byte that never occurs inside a
    multi-byte rune, so the match is decided byte by byte. *)

Module Regexp.
Import GoString.

(** [\w] *)
Definition isWord (c : ascii) : bool :=
  let n := N_of_ascii c in
  ((48 <=? n) && (n <=? 57) || (65 <=? n) && (n <=? 90)
   || (97 <=? n) && (n <=? 122) || (n =? 95))%N.

(** [\w*], greedy: the longest prefix of word bytes, and what follows. *)
Fixpoint spanWord (s : string) : string * string :=
  match s with
  | EmptyString => (EmptyString, EmptyString)
  | String c s' =>
      if isWord c
      then let '(w, r) := spanWord s' in (String c w, r)
      else (EmptyString, s)
  end.

(** The quoted part after the opening quote: everything up to the first
    quote, and what follows that quote; no match when there is no quote. *)
Fixpoint untilQuote (s : string) : option (string * string) :=
  match s with
  | EmptyString => None
  | String c s' =>
      if Ascii.eqb c dquote then Some (EmptyString, s')
      else match untilQuote s' with
           | Some (v, r) => Some (String c v, r)
           | None => None
           end
  end.

(** One attempt anchored at the first byte of [s]: the two submatches and
    the input after the match.  A greedy [\w+] followed by [=] can only
    succeed on the whole run of word bytes, and the non-quote run followed
    by a quote can only stop at the first quote, so backtracking adds
    nothing. *)
Definition matchAt (s : string) : option (string * string * string) :=
  match spanWord s with
  | (EmptyString, _) => None
  | (key, String c1 (String c2 r)) =>
      if Ascii.eqb c1 "="%char && Ascii.eqb c2 dquote then
        match untilQuote r with
        | Some (value, rest) => Some (key, value, rest)
        | None => None
        end
      else None
  | _ => None
  end.

(** [re.FindAllSubmatch(b, -1)]: successive leftmost matches, each search
    resuming where the previous match ended (matches are never empty).
    [fuel] bounds the number of positions tried. *)
Fixpoint findAllFrom (fuel : nat) (s : string) : list (string * string) :=
  match fuel with
  | O => []
  | S fuel' =>
      match matchAt s with
      | Some (key, value, rest) => (key, value) :: findAllFrom fuel' rest
      | None =>
          match s with
          | EmptyString => []
          | String _ s' => findAllFrom fuel' s'
          end
      end
  end.

Definition FindAllSubmatch (s : string) : list (string * string) :=
  findAllFrom (S (String.length s)) s.

End Regexp.

(** [extractKeyValuePairs]: every match stores its value under its key, a
    later match overwriting an earlier one with the same key. *)
Definition extractKeyValuePairs (header : string) : gmap string string :=
  foldl (fun result m => <[m.1 := m.2]> result) ∅
        (Regexp.FindAllSubmatch header).

(** ** HTTP messages *)

(** The [Authorization] request header: [req.SetBasicAuth(user, pass)] or
    [Bearer <token>]. *)
Inductive authorization :=
| Basic (user pass : string)
| Bearer (token : string).

(** What [registryRequest] and [fetchBearerToken] put into an
    [*http.Request].  [QueryN] is the [n] query parameter that
    [registryRequest] sets when a page size is configured. *)
Record Request := mkRequest {
  Method : string;
  URL : string;
  QueryN : option Z;
  Accept : option string;
  Authorization : option authorization
}.

(** [resp.Body], an [io.ReadCloser]: its bytes and the result of [Close]. *)
Record ReadCloser := mkBody {
  Data : string;
  CloseErr : option string
}.

Record Response := mkResponse {
  StatusCode : Z;
  Header : gmap string (list string);
  Body : ReadCloser
}.

(** [h.Get(key)] for a key in canonical form: the first value stored under
    the key, or the empty string. *)
Definition Header_Get (h : gmap string (list string)) (key : string) : string :=
  match h !! key with
  | Some (v :: _) => v
  | _ => ""
  end.

Definition wwwAuthenticateHeader : string := "Www-Authenticate".

(** [type manifestVersion uint] *)
Definition manifestVersion := N.
Definition manifestV1 : manifestVersion := 1%N.
Definition manifestV2 : manifestVersion := 2%N.

(** [var manifestContentType = map[manifestVersion]string{...}] *)
Definition manifestContentType : gmap N string :=
  <[manifestV1 := "application/vnd.docker.distribution.manifest.v1+prettyjws"]>
  (<[manifestV2 := "application/vnd.docker.distribution.manifest.v2+json"]> ∅).

(** ** Errors, panics and results *)

Inductive error :=
| ErrNewRequest (method url : string)
| ErrTransport (msg : string)
| ErrStatus (code : Z) (method path : string)
| ErrTokenStatus (code : Z)
| ErrUnsupportedScheme
| ErrNoRealm
| ErrNoService
| ErrNoScope
| ErrDecode
| ErrClose (msg : string).

Inductive panic :=
| PanicSliceBounds
| PanicIndexOutOfRange
| PanicManifestVersion (version : manifestVersion).

(** How a call ends: a value, a returned [error], a run-time panic, or (for
    the catalog loop only) the iteration bound of the model reached. *)
Inductive outcome (A : Type) :=
| Ok (a : A)
| Err (e : error)
| Panic (p : panic)
| OutOfFuel.
Arguments Ok {A} a.
Arguments Err {A} e.
Arguments Panic {A} p.
Arguments OutOfFuel {A}.

(** ** JSON values and [encoding/json] decoding into the client's structs *)

#[warnings="-register-all"]
Inductive json :=
| JNull
| JBool (b : bool)
| JNumber (literal : string)
| JString (s : string)
| JArray (items : list json)
| JObject (members : list (string * json)).

(** The zero [time.Time], January 1 of year 1, as nanoseconds relative to
    the Unix epoch. *)
Definition zeroTime : Z := -62135596800 * 1000000000.

Module Json.
Section Decode.
(** [fold name key]: the object key [key] selects the struct field whose
    JSON name is [name] (exact or case-folded match). *)
Variable fold : string -> string -> bool.
(** [time.Parse(time.RFC3339, s)] as an instant. *)
Variable parseTime : string -> option Z.
(** The capacity that [encoding/json] gives a slice of capacity [c] that
    it has to grow. *)
Variable grow : nat -> nat.

(** A JSON value decoded into a [string] variable holding [cur]: [null]
    leaves it alone, anything but a string is a type error. *)
Definition intoString (j : json) (cur : string) : option string :=
  match j with
  | JString s => Some s
  | JNull => Some cur
  | _ => None
  end.

(** A JSON value decoded into a [time.Time] ([Time.UnmarshalJSON]). *)
Definition intoTime (j : json) (cur : Z) : option Z :=
  match j with
  | JString s => parseTime s
  | JNull => Some cur
  | _ => None
  end.

(** A JSON value decoded into a struct with a single tagged field: every
    member whose key selects the field is decoded into it, in order;
    other members are skipped; [null] leaves the struct alone. *)
Definition intoStruct {T : Type} (name : string)
    (field : json -> T -> option T) (j : json) (cur : T) : option T :=
  match j with
  | JNull => Some cur
  | JObject members =>
      foldl (fun acc m =>
               match acc with
               | Some t => if fold name m.1 then field m.2 t else Some t
               | None => None
               end) (Some cur) members
  | _ => None
  end.

(** A slice variable: the elements of its backing array, as many as its
    capacity, and its length.  The slice holds the first [size] elements
    of [backing]; the elements behind them are what earlier values of the
    variable left in the array. *)
Record Slice (T : Type) := mkSlice {
  backing : list T;
  size : nat
}.
Arguments mkSlice {T} backing size.
Arguments backing {T} s.
Arguments size {T} s.

Definition contents {T : Type} (s : Slice T) : list T :=
  take (size s) (backing s).

(** The nil slice, and the slice made by [reflect.MakeSlice(t, 0, 0)]. *)
Definition nilSlice {T : Type} : Slice T := mkSlice [] 0.

(** The elements of a JSON array decoded into a slice, element [i] into
    slot [i] of the backing array: [decoded] are the slots decoded so far and
    [rest] the slots of the array behind them.  When the array is full it
    is replaced by one of capacity [grow c], for its capacity [c], whose
    new slots hold the zero value.  At the end the length of the slice is
    the number of elements decoded. *)
Fixpoint intoElems {T : Type} (zero : T) (elem : json -> T -> option T)
    (items : list json) (decoded rest : list T) : option (Slice T) :=
  match items with
  | [] => Some (mkSlice (decoded ++ rest) (length decoded))
  | j :: items' =>
      let rest :=
        match rest with
        | [] => replicate (grow (length decoded) - length decoded) zero
        | _ => rest
        end in
      match elem j (hd zero rest) with
      | Some x => intoElems zero elem items' (decoded ++ [x]) (tl rest)
      | None => None
      end
  end.

(** A JSON value decoded into a slice variable: [null] sets it to nil, the
    empty array to a new empty slice, an array decodes its elements into
    the backing array of the variable; anything else is a type error. *)
Definition intoSlice {T : Type} (zero : T) (elem : json -> T -> option T)
    (j : json) (cur : Slice T) : option (Slice T) :=
  match j with
  | JArray [] => Some nilSlice
  | JArray items => intoElems zero elem items [] (backing cur)
  | JNull => Some nilSlice
  | _ => None
  end.

(** [struct { Repositories []string `json:"repositories"` }] *)
Definition catalog (j : json) : option (list string) :=
  contents <$> intoStruct "repositories" (intoSlice "" intoString) j nilSlice.

(** [struct { Tags []string `json:"tags"` }] *)
Definition tagList (j : json) : option (list string) :=
  contents <$> intoStruct "tags" (intoSlice "" intoString) j nilSlice.

(** [struct { History []struct { V1Compatibility string } }]: the
    [V1Compatibility] strings of the history entries. *)
Definition manifest (j : json) : option (list string) :=
  contents <$>
    intoStruct "history"
      (intoSlice "" (fun item cur => intoStruct "v1Compatibility" intoString item cur))
      j nilSlice.

(** [struct { Created time.Time `json:"created"` }] *)
Definition historyItem (j : json) : option Z :=
  intoStruct "created" intoTime j zeroTime.

(** [struct { Token string `json:"token"` }] *)
Definition token (j : json) : option string :=
  intoStruct "token" intoString j "".
End Decode.
End Json.

(** ** The environment of the client *)

(** The registry and token servers behind [a.client.Do], the clock, and
    the library functions the client calls. *)
Record Env := mkEnv {
  (** the state of everything outside the process *)
  World : Type;
  (** [a.client.Do(req)]: a response or a transport error *)
  Do : Request -> World -> (Response + string) * World;
  (** [time.Now()] *)
  Now : World -> Z;
  (** [http.NewRequest(method, url, nil)] accepts the method and URL *)
  newRequestOk : string -> string -> bool;
  (** [url.QueryEscape] *)
  queryEscape : string -> string;
  (** [json.NewDecoder(r).Decode]: the first JSON value of the stream *)
  jsonDecode : string -> option json;
  (** [json.Unmarshal]: the input as one JSON value *)
  jsonUnmarshal : string -> option json;
  (** field selection by object key in [encoding/json] *)
  keyFold : string -> string -> bool;
  (** the capacity to which [encoding/json] grows a full slice of a given
      capacity: half as much again and at least 4 up to Go 1.19, that of
      [reflect.Value.Grow] since *)
  growCap : nat -> nat;
  (** [time.Parse(time.RFC3339, s)] *)
  parseTime : string -> option Z
}.

(** The fields of [type API struct]; [client] is the environment. *)
Record API := mkAPI {
  host : string;
  user : string;
  bearerToken : string;
  pass : string;
  pageSize : Z
}.

Definition NewAPI (host : string) : API :=
  {| host := host; user := ""; bearerToken := ""; pass := ""; pageSize := 0 |}.

Definition SetPageSize (size : Z) (a : API) : API :=
  {| host := host a; user := user a; bearerToken := bearerToken a;
     pass := pass a; pageSize := size |}.

Definition SetCredentials (user pass : string) (a : API) : API :=
  {| host := host a; user := user; bearerToken := bearerToken a;
     pass := pass; pageSize := pageSize a |}.

Definition setBearerToken (token : string) (a : API) : API :=
  {| host := host a; user := user a; bearerToken := token;
     pass := pass a; pageSize := pageSize a |}.

(** Lines written with [log.Print] and [log.Printf] by [main]. *)
Inductive LogEntry :=
| LConfiguration
| LStarting
| LInspecting (repository : string)
| LError (e : error)
| LWouldDelete (repository digest : string) (tags : list string)
| LDeleting (repository digest : string) (tags : list string)
| LFatal (e : error)
| LDone.

(** Which function handed a request to [a.client.Do]. *)
Inductive sender := FromRegistryRequest | FromFetchBearerToken.

(** What a run does that is visible from outside, in order. *)
Inductive Event :=
| EvDo (by_ : sender) (req : Request)
| EvLog (entry : LogEntry).

(** ** The client *)

Section Client.
Variable E : Env.

(** The mutable part of a run: the [API] value behind the receiver
    pointer and the outside world. *)
Record State := mkState {
  api : API;
  world : World E
}.

(** A Go function run from a state: how it ends, the state it leaves, and
    the events it caused, oldest first. *)
Definition M (A : Type) : Type := State -> outcome A * State * list Event.

Definition ret {A} (a : A) : M A := fun st => (Ok a, st, []).

Definition bind {A B} (m : M A) (k : A -> M B) : M B :=
  fun st =>
    match m st with
    | (Ok a, st1, ev1) =>
        let '(r, st2, ev2) := k a st1 in (r, st2, ev1 ++ ev2)
    | (Err e, st1, ev1) => (Err e, st1, ev1)
    | (Panic p, st1, ev1) => (Panic p, st1, ev1)
    | (OutOfFuel, st1, ev1) => (OutOfFuel, st1, ev1)
    end.

Notation "'let*' x := m 'in' k" := (bind m (fun x => k))
  (at level 10, x name, m at level 100, k at level 200).
Notation "m ;; k" := (bind m (fun _ => k))
  (at level 100, k at level 200, right associativity).

(** [return ..., err] with a non-nil error *)
Definition fail {A} (e : error) : M A := fun st => (Err e, st, []).
Definition raise {A} (p : panic) : M A := fun st => (Panic p, st, []).
Definition outOfFuel {A} : M A := fun st => (OutOfFuel, st, []).

(** A call whose error is inspected by the caller instead of being
    returned: [x, err := f(); if err != nil { ... }]. *)
Definition try {A} (m : M A) : M (A + error) :=
  fun st =>
    match m st with
    | (Ok a, st1, ev1) => (Ok (inl a), st1, ev1)
    | (Err e, st1, ev1) => (Ok (inr e), st1, ev1)
    | (Panic p, st1, ev1) => (Panic p, st1, ev1)
    | (OutOfFuel, st1, ev1) => (OutOfFuel, st1, ev1)
    end.

Definition getAPI : M API := fun st => (Ok (api st), st, []).
Definition modifyAPI (f : API -> API) : M unit :=
  fun st => (Ok tt, {| api := f (api st); world := world st |}, []).
Definition timeNow : M Z := fun st => (Ok (Now E (world st)), st, []).
Definition logPrint (entry : LogEntry) : M unit :=
  fun st => (Ok tt, st, [EvLog entry]).

(** A pure computation that ends in a value, an error or a panic. *)
Definition lift {A} (r : outcome A) : M A := fun st => (r, st, []).
Definition ofOption {A} (e : error) (o : option A) : M A :=
  match o with
  | Some a => ret a
  | None => fail e
  end.

(** [a.client.Do(req)] *)
Definition clientDo (by_ : sender) (req : Request) : M Response :=
  fun st =>
    let '(r, w) := Do E req (world st) in
    (match r with
     | inl resp => Ok resp
     | inr msg => Err (ErrTransport msg)
     end,
     {| api := api st; world := w |},
     [EvDo by_ req]).

(** [resp.Body.Close()] with its error checked *)
Definition bodyClose (resp : Response) : M unit :=
  match CloseErr (Body resp) with
  | None => ret tt
  | Some msg => fail (ErrClose msg)
  end.

(** [json.NewDecoder(resp.Body).Decode(&v)] followed by
    [if err != nil { return ..., err }] *)
Definition decodeBody {A} (into : json -> option A) (resp : Response) : M A :=
  match jsonDecode E (Data (Body resp)) with
  | Some j => ofOption ErrDecode (into j)
  | None => fail ErrDecode
  end.

(** [tokenRequestURLFromResponse] *)
Definition tokenRequestURLFromResponse (deniedResponse : Response) : outcome string :=
  let header := Header_Get (Header deniedResponse) wwwAuthenticateHeader in
  match GoString.slice header 0 7 with
  | None => Panic PanicSliceBounds
  | Some scheme =>
      if negb (String.eqb scheme "Bearer ") then Err ErrUnsupportedScheme
      else
        let instructions := extractKeyValuePairs header in
        match instructions !! "realm" with
        | None => Err ErrNoRealm
        | Some realm =>
            match instructions !! "service" with
            | None => Err ErrNoService
            | Some service =>
                match instructions !! "scope" with
                | None => Err ErrNoScope
                | Some scope =>
                    (* params.Encode() writes the keys in sorted order *)
                    Ok (realm +:+ "?" +:+
                        "scope=" +:+ queryEscape E scope +:+ "&" +:+
                        "service=" +:+ queryEscape E service)
                end
            end
        end
  end.

(** [(a *API) fetchBearerToken] *)
Definition fetchBearerToken (deniedResponse : Response) : M string :=
  let* u := lift (tokenRequestURLFromResponse deniedResponse) in
  if negb (newRequestOk E "GET" u) then fail (ErrNewRequest "GET" u)
  else
    let* a := getAPI in
    let auth := if String.eqb (user a) "" then None
                else Some (Basic (user a) (pass a)) in
    let* resp := clientDo FromFetchBearerToken
                   {| Method := "GET"; URL := u; QueryN := None;
                      Accept := None; Authorization := auth |} in
    if 300 <=? StatusCode resp then fail (ErrTokenStatus (StatusCode resp))
    else decodeBody (Json.token (keyFold E)) resp.

(** [(a *API) registryRequest] *)
Definition registryRequest (method path : string) (version : manifestVersion)
    : M Response :=
  let* a := getAPI in
  if negb (newRequestOk E method (host a +:+ path))
  then fail (ErrNewRequest method (host a +:+ path))
  else
    let n := if 0 <? pageSize a then Some (pageSize a) else None in
    match manifestContentType !! version with
    | None => raise (PanicManifestVersion version)
    | Some contentType =>
        let auth := if String.eqb (user a) "" then None
                    else Some (Basic (user a) (pass a)) in
        let auth := if String.eqb (bearerToken a) "" then auth
                    else Some (Bearer (bearerToken a)) in
        clientDo FromRegistryRequest
          {| Method := method; URL := host a +:+ path; QueryN := n;
             Accept := Some contentType; Authorization := auth |}
    end.

(** [(a *API) request].  The deferred function only drains and closes the
    body of a response that is returned together with an error. *)
Definition request (method path : string) (version : manifestVersion)
    : M Response :=
  let* resp := registryRequest method path version in
  if StatusCode resp <? 300 then ret resp
  else
    let* resp :=
      if (StatusCode resp =? 401)
         && negb (String.eqb (Header_Get (Header resp) wwwAuthenticateHeader) "")
      then
        let* token := fetchBearerToken resp in
        modifyAPI (setBearerToken token) ;;
        registryRequest method path version
      else ret resp in
    if 300 <=? StatusCode resp
    then fail (ErrStatus (StatusCode resp) method path)
    else ret resp.

(** [(a *API) nextPagePath] *)
Definition nextPagePath (resp : Response) : outcome string :=
  let link := Header_Get (Header resp) "Link" in
  if String.eqb link "" then Ok ""
  else
    let begin := GoString.index "<" link + 1 in
    let end_ := GoString.lastIndex ">" link in
    match GoString.slice link begin end_ with
    | Some s => Ok s
    | None => Panic PanicSliceBounds
    end.

(** The [for path != ""] loop of [GetRepositories]; [fuel] bounds the
    number of pages requested. *)
Fixpoint catalogLoop (fuel : nat) (path : string) (repositories : list string)
    : M (list string) :=
  if String.eqb path "" then ret repositories
  else
    match fuel with
    | O => outOfFuel
    | S fuel' =>
        let* resp := request "GET" path manifestV2 in
        let* catalog := decodeBody (Json.catalog (keyFold E) (growCap E)) resp in
        let repositories := repositories ++ catalog in
        let* path := lift (nextPagePath resp) in
        bodyClose resp ;;
        catalogLoop fuel' path repositories
    end.

(** [(a *API) GetRepositories] *)
Definition GetRepositories (fuel : nat) : M (list string) :=
  catalogLoop fuel "/v2/_catalog" [].

(** [(a *API) GetTags] *)
Definition GetTags (repository : string) : M (list string) :=
  let* resp := request "GET" ("/v2/" +:+ repository +:+ "/tags/list") manifestV2 in
  decodeBody (Json.tagList (keyFold E) (growCap E)) resp.

(** [(a *API) GetDigest] *)
Definition GetDigest (repository tag : string) : M string :=
  let* resp := request "HEAD" ("/v2/" +:+ repository +:+ "/manifests/" +:+ tag)
                 manifestV2 in
  ret (Header_Get (Header resp) "Docker-Content-Digest").

(** The [for _, tag := range tags] loop of [GetTagsIndexedByDigest]. *)
Fixpoint indexTags (repository : string) (tags : list string)
    (result : gmap string (list string)) : M (gmap string (list string)) :=
  match tags with
  | [] => ret result
  | tag :: tags' =>
      let* digest := GetDigest repository tag in
      let result :=
        match result !! digest with
        | Some _ => result
        | None => <[digest := []]> result
        end in
      let result := <[digest := default [] (result !! digest) ++ [tag]]> result in
      indexTags repository tags' result
  end.

(** [(a *API) GetTagsIndexedByDigest] *)
Definition GetTagsIndexedByDigest (repository : string)
    : M (gmap string (list string)) :=
  let* tags := GetTags repository in
  indexTags repository tags ∅.

(** [(a *API) GetManifestDigestAndCreated] *)
Definition GetManifestDigestAndCreated (repository tag : string) : M (string * Z) :=
  let* resp := request "GET" ("/v2/" +:+ repository +:+ "/manifests/" +:+ tag)
                 manifestV1 in
  let* history := decodeBody (Json.manifest (keyFold E) (growCap E)) resp in
  match history with
  | [] => raise PanicIndexOutOfRange
  | first :: _ =>
      let* created :=
        match jsonUnmarshal E first with
        | Some j => ofOption ErrDecode (Json.historyItem (keyFold E) (parseTime E) j)
        | None => fail ErrDecode
        end in
      let digest := Header_Get (Header resp) "Docker-Content-Digest" in
      ret (digest, created)
  end.

(** [(a *API) GetManifestCreated] *)
Definition GetManifestCreated (repository tag : string) : M Z :=
  let* dc := GetManifestDigestAndCreated repository tag in
  ret dc.2.

(** [(a *API) DeleteManifest] *)
Definition DeleteManifest (repository digest : string) : M unit :=
  let* resp := request "DELETE" ("/v2/" +:+ repository +:+ "/manifests/" +:+ digest)
                 manifestV2 in
  ret tt.

(** ** The pruning loop of [main] *)

(** The variables of package [config]; a compiled [*regexp.Regexp] is
    used through [MatchString] only. *)
Record Config := mkConfig {
  Host : string;
  User : string;
  Pass : string;
  Repos : string -> bool;
  Tags : string -> bool;
  MinAge : Z;
  Dry : bool
}.

(** The order in which [range] visits the entries of a map; Go leaves it
    unspecified. *)
Variable rangeMap : gmap string (list string) -> list (string * list string).

(** [allMatch] *)
Fixpoint allMatch (slice : list string) (expr : string -> bool) : bool :=
  match slice with
  | [] => true
  | s :: slice' => if negb (expr s) then false else allMatch slice' expr
  end.

(** The body of [for digest, tags := range tagsIndexedByDigest]. *)
Definition pruneGroup (cfg : Config) (repository digest : string)
    (tags : list string) : M unit :=
  if negb (allMatch tags (Tags cfg)) then ret tt
  else
    let* oldEnough :=
      if 0 <? MinAge cfg then
        match tags with
        | [] => raise PanicIndexOutOfRange
        | tag0 :: _ =>
            let* r := try (GetManifestCreated repository tag0) in
            match r with
            | inr err => logPrint (LError err) ;; ret false
            | inl created =>
                let* now := timeNow in
                let latestAcceptableCreated := now + (-1 * MinAge cfg) in
                (* created.After(latestAcceptableCreated) *)
                if latestAcceptableCreated <? created then ret false
                else ret true
            end
        end
      else ret true in
    if negb oldEnough then ret tt
    else if Dry cfg then
      logPrint (LWouldDelete repository digest tags)
    else
      logPrint (LDeleting repository digest tags) ;;
      let* r := try (DeleteManifest repository digest) in
      match r with
      | inr err => logPrint (LError err)
      | inl _ => ret tt
      end.

Fixpoint pruneGroups (cfg : Config) (repository : string)
    (groups : list (string * list string)) : M unit :=
  match groups with
  | [] => ret tt
  | (digest, tags) :: groups' =>
      pruneGroup cfg repository digest tags ;;
      pruneGroups cfg repository groups'
  end.

(** The body of [for _, repository := range repositories]. *)
Definition pruneRepository (cfg : Config) (repository : string) : M unit :=
  if negb (Repos cfg repository) then ret tt
  else
    logPrint (LInspecting repository) ;;
    let* r := try (GetTagsIndexedByDigest repository) in
    match r with
    | inr err => logPrint (LError err)
    | inl tagsIndexedByDigest =>
        pruneGroups cfg repository (rangeMap tagsIndexedByDigest)
    end.

Fixpoint pruneRepositories (cfg : Config) (repositories : list string) : M unit :=
  match repositories with
  | [] => ret tt
  | repository :: repositories' =>
      pruneRepository cfg repository ;;
      pruneRepositories cfg repositories'
  end.

(** [main], after the configuration has been read.  [log.Fatal] writes the
    error and ends the process, here with that error. *)
Definition mainBody (cfg : Config) (fuel : nat) : M unit :=
  logPrint LConfiguration ;;
  logPrint LStarting ;;
  modifyAPI (fun _ => NewAPI (Host cfg)) ;;
  (if negb (String.eqb (User cfg) "")
   then modifyAPI (SetCredentials (User cfg) (Pass cfg))
   else ret tt) ;;
  let* r := try (GetRepositories fuel) in
  match r with
  | inr err => logPrint (LFatal err) ;; fail err
  | inl repositories =>
      pruneRepositories cfg repositories ;;
      logPrint LDone
  end.

Definition main (cfg : Config) (fuel : nat) (w : World E)
    : outcome unit * State * list Event :=
  mainBody cfg fuel {| api := NewAPI (Host cfg); world := w |}.

End Client.

Arguments api {E} s.
Arguments world {E} s.
Arguments mkState {E} api world.

(** ** The shapes the properties speak about *)

Module Challenge.
Import GoString.

Fixpoint allBytes (p : ascii -> bool) (s : string) : bool :=
  match s with
  | EmptyString => true
  | String c s' => p c && allBytes p s'
  end.

(** A bare identifier: one or more word bytes. *)
Definition isKey (k : string) : bool :=
  negb (String.eqb k "") && allBytes Regexp.isWord k.

(** The inside of a double-quoted string: no double quote. *)
Definition isValue (v : string) : bool := negb (occurs dquote v).

(** Space, tab, line feed, vertical tab, form feed, carriage return. *)
Definition isSpace (c : ascii) : bool :=
  let n := N_of_ascii c in ((n =? 32) || (9 <=? n) && (n <=? 13))%N.

Definition isBlank (ws : string) : bool := allBytes isSpace ws.

Definition quoted (v : string) : string :=
  String dquote (v +:+ String dquote "").

(** A key, an equals sign and a double-quoted value. *)
Definition pair (kv : string * string) : string :=
  kv.1 +:+ "=" +:+ quoted kv.2.

(** The pairs after the first, each behind a comma and the white space
    that follows it. *)
Fixpoint more (rest : list (string * (string * string))) : string :=
  match rest with
  | [] => ""
  | (ws, kv) :: rest' => "," +:+ ws +:+ pair kv +:+ more rest'
  end.

(** Comma-separated pairs with white space after the commas. *)
Definition header (first : string * string)
    (rest : list (string * (string * string))) : string :=
  pair first +:+ more rest.

Definition wellFormedPair (kv : string * string) : bool :=
  isKey kv.1 && isValue kv.2.

Definition wellFormed (first : string * string)
    (rest : list (string * (string * string))) : bool :=
  wellFormedPair first
  && forallb (fun r => isBlank r.1 && wellFormedPair r.2) rest.

Definition pairs (first : string * string)
    (rest : list (string * (string * string))) : list (string * string) :=
  first :: map snd rest.

(** [s] contains a key, an equals sign and a double-quoted value
    somewhere. *)
Definition containsPair (s : string) : Prop :=
  exists pre kv post,
    wellFormedPair kv = true /\ s = pre +:+ pair kv +:+ post.

(** The leftmost pair of [s]: [s] is [pre], the pair [kv] and [post], and
    no pair of [s] begins further to the left. *)
Definition leftmostPair (s pre : string) (kv : string * string) (post : string)
    : Prop :=
  wellFormedPair kv = true
  /\ s = pre +:+ pair kv +:+ post
  /\ forall pre' kv' post',
       wellFormedPair kv' = true ->
       s = pre' +:+ pair kv' +:+ post' ->
       (String.length pre <= String.length pre')%nat.

(** The pairs met when [s] is read from left to right: each is the
    leftmost pair of what follows the pair before it. *)
Inductive scanned : string -> list (string * string) -> Prop :=
| scanned_end s : ~ containsPair s -> scanned s []
| scanned_pair s pre kv post kvs :
    leftmostPair s pre kv post ->
    scanned post kvs ->
    scanned s (kv :: kvs).
End Challenge.

(** ** Sample registries *)

Module Sample.
Import GoString Challenge.

Definition hdr (key value : string) : gmap string (list string) :=
  {[ key := [value] ]}.

Definition body (data : string) : ReadCloser :=
  {| Data := data; CloseErr := None |}.

(** JSON texts served by the sample registries, and their values. *)
Definition catalog1Text : string :=
  "{" +:+ quoted "repositories" +:+ ":[" +:+ quoted "app" +:+ "]}".
Definition catalog2Text : string :=
  "{" +:+ quoted "repositories" +:+ ":[" +:+ quoted "web" +:+ "]}".
Definition tagsText : string :=
  "{" +:+ quoted "tags" +:+ ":[" +:+ quoted "v1" +:+ "," +:+ quoted "v2"
      +:+ "," +:+ quoted "latest" +:+ "]}".
Definition tokenText : string :=
  "{" +:+ quoted "token" +:+ ":" +:+ quoted "tok" +:+ "}".
Definition emptyObjectText : string := "{}".
Definition emptyHistoryText : string :=
  "{" +:+ quoted "history" +:+ ":[]}".

Definition time960 : string := "1970-01-01T00:00:00.00000096Z".
Definition time999 : string := "1970-01-01T00:00:00.000000999Z".

(** The compatibility blob of a history entry, and the same text as it
    appears escaped inside the manifest. *)
Definition blobText (created : string) : string :=
  "{" +:+ quoted "created" +:+ ":" +:+ quoted created +:+ "}".
Definition escQuoted (v : string) : string :=
  "\" +:+ String dquote (v +:+ "\" +:+ String dquote "").
Definition manifestText (created : string) : string :=
  "{" +:+ quoted "history" +:+ ":[{" +:+ quoted "v1Compatibility" +:+ ":"
      +:+ String dquote ("{" +:+ escQuoted "created" +:+ ":" +:+ escQuoted created
                             +:+ "}" +:+ String dquote "")
      +:+ "}]}".

Definition manifestJson (created : string) : json :=
  JObject [("history",
            JArray [JObject [("v1Compatibility", JString (blobText created))]])].

(** The JSON reader restricted to the texts above. *)
Definition decode (s : string) : option json :=
  if String.eqb s catalog1Text then
    Some (JObject [("repositories", JArray [JString "app"])])
  else if String.eqb s catalog2Text then
    Some (JObject [("repositories", JArray [JString "web"])])
  else if String.eqb s tagsText then
    Some (JObject [("tags", JArray [JString "v1"; JString "v2"; JString "latest"])])
  else if String.eqb s tokenText then
    Some (JObject [("token", JString "tok")])
  else if String.eqb s emptyObjectText then Some (JObject [])
  else if String.eqb s emptyHistoryText then
    Some (JObject [("history", JArray [])])
  else if String.eqb s (manifestText time960) then Some (manifestJson time960)
  else if String.eqb s (manifestText time999) then Some (manifestJson time999)
  else if String.eqb s (blobText time960) then
    Some (JObject [("created", JString time960)])
  else if String.eqb s (blobText time999) then
    Some (JObject [("created", JString time999)])
  else None.

Definition rfc3339 (s : string) : option Z :=
  if String.eqb s time960 then Some 960
  else if String.eqb s time999 then Some 999
  else None.

Definition notFound : Response :=
  {| StatusCode := 404; Header := ∅; Body := body "" |}.

Definition nextLink : string :=
  "</v2/_catalog?last=app>; rel=" +:+ quoted "next".

(** A registry without authentication: the catalog has two pages, [app]
    and [web]; [app] has the tags [v1] and [v2] on one manifest created
    at instant 960 and [latest] on another created at instant 999;
    [web] does not answer. *)
Definition serveOpen (req : Request) : Response :=
  let target := Method req +:+ " " +:+ URL req in
  if String.eqb target "GET http://r/v2/_catalog" then
    {| StatusCode := 200; Header := hdr "Link" nextLink; Body := body catalog1Text |}
  else if String.eqb target "GET http://r/v2/_catalog?last=app" then
    {| StatusCode := 200; Header := ∅; Body := body catalog2Text |}
  else if String.eqb target "GET http://r/v2/app/tags/list" then
    {| StatusCode := 200; Header := ∅; Body := body tagsText |}
  else if String.eqb target "HEAD http://r/v2/app/manifests/v1"
       || String.eqb target "HEAD http://r/v2/app/manifests/v2" then
    {| StatusCode := 200; Header := hdr "Docker-Content-Digest" "sha256:aaa";
       Body := body "" |}
  else if String.eqb target "HEAD http://r/v2/app/manifests/latest" then
    {| StatusCode := 200; Header := hdr "Docker-Content-Digest" "sha256:bbb";
       Body := body "" |}
  else if String.eqb target "GET http://r/v2/app/manifests/v1"
       || String.eqb target "GET http://r/v2/app/manifests/v2" then
    {| StatusCode := 200; Header := hdr "Docker-Content-Digest" "sha256:aaa";
       Body := body (manifestText time960) |}
  else if String.eqb target "GET http://r/v2/app/manifests/latest" then
    {| StatusCode := 200; Header := hdr "Docker-Content-Digest" "sha256:bbb";
       Body := body (manifestText time999) |}
  else if String.eqb target "GET http://r/v2/app/manifests/empty" then
    {| StatusCode := 200; Header := hdr "Docker-Content-Digest" "sha256:ccc";
       Body := body emptyHistoryText |}
  else if String.eqb target "GET http://r/v2/broken/page" then
    {| StatusCode := 200; Header := hdr "Link" "</v2/_catalog?last=app";
       Body := body catalog1Text |}
  else if String.eqb (Method req) "DELETE" then
    {| StatusCode := 202; Header := ∅; Body := body "" |}
  else notFound.

(** [url.QueryEscape]: letters, digits and the bytes [-], [_], [.] and
    [~] stand for themselves, the space becomes [+], and every other byte
    is written as a percent sign and two upper-case hexadecimal digits. *)
Definition hexDigit (n : N) : ascii :=
  ascii_of_N (if (n <? 10)%N then 48 + n else 55 + n).

Fixpoint escape (s : string) : string :=
  match s with
  | EmptyString => EmptyString
  | String c s' =>
      let n := N_of_ascii c in
      if Regexp.isWord c || (n =? 45)%N || (n =? 46)%N || (n =? 126)%N
      then String c (escape s')
      else if (n =? 32)%N then String "+" (escape s')
      else String "%" (String (hexDigit (n / 16))
                         (String (hexDigit (n mod 16)) (escape s')))
  end.

(** The environment of a server that answers every request by [serve]
    and never changes; the clock stands at instant 1000. *)
Definition envOf (serve : Request -> Response + string) : Env :=
  {| World := unit;
     Do := fun req w => (serve req, w);
     Now := fun _ => 1000;
     newRequestOk := fun _ _ => true;
     queryEscape := escape;
     jsonDecode := decode;
     jsonUnmarshal := decode;
     keyFold := String.eqb;
     growCap := fun c => Nat.max 4 (c + c / 2);
     parseTime := rfc3339 |}.

Definition openEnv : Env := envOf (fun req => inl (serveOpen req)).

Definition challenge : string :=
  "Bearer " +:+ header ("realm", "http://auth/token")
                      [("", ("service", "registry"));
                       ("", ("scope", "repository:app:pull"))].

Definition tokenURL : string :=
  "http://auth/token?scope=repository%3Aapp%3Apull&service=registry".

Definition denied (wwwAuthenticate : string) : Response :=
  {| StatusCode := 401; Header := hdr wwwAuthenticateHeader wwwAuthenticate;
     Body := body "" |}.

(** A registry that answers 401 with [wwwAuthenticate] unless the request
    carries the bearer token [tok], next to a token service that answers
    [tokenResponse]. *)
Definition serveGuarded (wwwAuthenticate : string) (tokenResponse : Response)
    (req : Request) : Response :=
  if String.eqb (URL req) tokenURL then tokenResponse
  else match Authorization req with
       | Some (Bearer "tok") => serveOpen req
       | _ => denied wwwAuthenticate
       end.

Definition tokenOk : Response :=
  {| StatusCode := 200; Header := ∅; Body := body tokenText |}.
Definition tokenMissing : Response :=
  {| StatusCode := 200; Header := ∅; Body := body emptyObjectText |}.

Definition guardedEnv : Env :=
  envOf (fun req => inl (serveGuarded challenge tokenOk req)).
(** The token service answers with an object that has no token. *)
Definition tokenlessEnv : Env :=
  envOf (fun req => inl (serveGuarded challenge tokenMissing req)).
(** The registry challenges with the scheme NTLM. *)
Definition ntlmEnv : Env :=
  envOf (fun req => inl (serveGuarded "NTLM" tokenOk req)).

Definition start (E : Env) (w : World E) : State E :=
  {| api := NewAPI "http://r"; world := w |}.

Definition anything (s : string) : bool := true.
Definition versionTag (s : string) : bool :=
  match s with
  | String "v" _ => true
  | _ => false
  end.

(** Live pruning of every repository, tags starting with [v]. *)
Definition config (minAge : Z) (dry : bool) : Config :=
  {| Host := "http://r"; User := ""; Pass := "";
     Repos := anything; Tags := versionTag; MinAge := minAge; Dry := dry |}.

(** [range] in the order of [map_to_list]. *)
Definition inOrder (m : gmap string (list string)) : list (string * list string) :=
  map_to_list m.
End Sample.

(** ** What is observed of a run *)

Module Trace.
Definition isRegistryRequest (ev : Event) : bool :=
  match ev with
  | EvDo FromRegistryRequest _ => true
  | _ => false
  end.

Definition isTokenRequest (ev : Event) : bool :=
  match ev with
  | EvDo FromFetchBearerToken _ => true
  | _ => false
  end.

(** A request with the method DELETE handed to the HTTP client. *)
Definition isDelete (ev : Event) : bool :=
  match ev with
  | EvDo _ req => String.eqb (Method req) "DELETE"
  | EvLog _ => false
  end.

(** The log line that [main] writes immediately before its only call of
    [DeleteManifest]. *)
Definition isDeleting (ev : Event) : bool :=
  match ev with
  | EvLog (LDeleting _ _ _) => true
  | _ => false
  end.

(** A request handed to the HTTP client (and not a log line). *)
Definition isRequest (ev : Event) : bool :=
  match ev with
  | EvDo _ _ => true
  | EvLog _ => false
  end.

(** A request with a method other than DELETE. *)
Definition isHarmlessRequest (ev : Event) : bool :=
  isRequest ev && negb (isDelete ev).

(** The log of a run. *)
Definition logLines (evs : list Event) : list LogEntry :=
  omap (fun ev => match ev with
                  | EvLog entry => Some entry
                  | EvDo _ _ => None
                  end) evs.

Definition count (p : Event -> bool) (evs : list Event) : nat :=
  length (List.filter p evs).

(** The decision to delete a manifest group, or to report it in a dry
    run, as [main] logs it. *)
Definition decides (repository digest : string) (tags : list string)
    (ev : Event) : Prop :=
  ev = EvLog (LWouldDelete repository digest tags)
  \/ ev = EvLog (LDeleting repository digest tags).

Definition decided (repository digest : string) (tags : list string)
    (evs : list Event) : Prop :=
  Exists (decides repository digest tags) evs.

(** The state in which [request] issues the request again: the token
    just fetched has been stored in the [API] value. *)
Definition withToken {E : Env} (token : string) (st : State E) : State E :=
  {| api := setBearerToken token (api st); world := world st |}.

(** What [request] returns for the answer to the request issued again. *)
Definition retried (method path : string) (r : outcome Response)
    : outcome Response :=
  match r with
  | Ok resp =>
      if 300 <=? StatusCode resp
      then Err (ErrStatus (StatusCode resp) method path)
      else Ok resp
  | other => other
  end.

(** The basic credentials that [registryRequest] and [fetchBearerToken]
    put on a request when a user is configured. *)
Definition basicAuth (a : API) : option authorization :=
  if String.eqb (user a) "" then None else Some (Basic (user a) (pass a)).

(** The answer of the HTTP client as [registryRequest] returns it. *)
Definition answer (r : Response + string) : outcome Response :=
  match r with
  | inl resp => Ok resp
  | inr msg => Err (ErrTransport msg)
  end.

(** The manifest URL of a digest in a repository on the host [h]. *)
Definition manifestURL (h repository digest : string) : string :=
  h +:+ "/v2/" +:+ repository +:+ "/manifests/" +:+ digest.

(** The group is deleted: the line that announces the deletion is
    followed at once by a DELETE request for the manifest of its digest,
    handed to the HTTP client by [registryRequest]. *)
Definition deletes (h repository digest : string) (tags : list string)
    (evs : list Event) : Prop :=
  exists pre req post,
    evs = pre ++ EvLog (LDeleting repository digest tags)
              :: EvDo FromRegistryRequest req :: post
    /\ Method req = "DELETE"
    /\ URL req = manifestURL h repository digest.

(** The group is reported in a dry run. *)
Definition reports (repository digest : string) (tags : list string)
    (evs : list Event) : Prop :=
  In (EvLog (LWouldDelete repository digest tags)) evs.
End Trace.

(** ** Sequences of calls the properties speak about *)

Section Runs.
Variable E : Env.

(** Every event of every run of [m] satisfies [P]. *)
Definition emits {A} (P : Event -> Prop) (m : M E A) : Prop :=
  forall st, Forall P (m st).2.

(** [received path st pages st' evs]: starting with [path] in state [st],
    the catalog requests are answered by the pages [pages] (the name list
    of each, in the order received), every page but the last naming the
    next path in its Link header; [st'] and [evs] are the state and the
    events after the last page. *)
Inductive received : string -> State E -> list (list string) -> State E
                     -> list Event -> Prop :=
| received_done st : received "" st [] st []
| received_page path st resp st1 ev1 j names next pages st2 ev2 :
    path <> "" ->
    request E "GET" path manifestV2 st = (Ok resp, st1, ev1) ->
    jsonDecode E (Data (Body resp)) = Some j ->
    Json.catalog (keyFold E) (growCap E) j = Some names ->
    nextPagePath resp = Ok next ->
    CloseErr (Body resp) = None ->
    received next st1 pages st2 ev2 ->
    received path st (names :: pages) st2 (ev1 ++ ev2).

(** [resolved repository st tags digests st' evs]: looked up one after the
    other from state [st], the tags [tags] resolve to the digests
    [digests]. *)
Inductive resolved (repository : string) : State E -> list string -> list string
                                         -> State E -> list Event -> Prop :=
| resolved_nil st : resolved repository st [] [] st []
| resolved_cons st tag digest st1 ev1 tags digests st2 ev2 :
    GetDigest E repository tag st = (Ok digest, st1, ev1) ->
    resolved repository st1 tags digests st2 ev2 ->
    resolved repository st (tag :: tags) (digest :: digests) st2 (ev1 ++ ev2).

(** The tags that resolved to [digest], in the order of the tag list. *)
Definition tagsOf (digest : string) (tags digests : list string) : list string :=
  (filter (fun td => td.2 = digest) (zip tags digests)).*1.

(** The map holds, for every digest, the tags of [tags] that resolved to
    it, in order, and no entry for a digest to which no tag resolved. *)
Definition grouped (result : gmap string (list string))
    (tags digests : list string) : Prop :=
  forall digest,
    result !! digest
    = if decide (tagsOf digest tags digests = []) then None
      else Some (tagsOf digest tags digests).

(** The group passes the tag filter and, when a minimum age is set, the
    creation time fetched through its first tag is not after the
    current time minus the minimum age. *)
Definition eligible (cfg : Config) (repository : string) (tags : list string)
    (st : State E) : Prop :=
  allMatch tags (Tags cfg) = true
  /\ (0 < MinAge cfg ->
      exists tag0 tags' created st1 ev1,
        tags = tag0 :: tags'
        /\ GetManifestCreated E repository tag0 st = (Ok created, st1, ev1)
        /\ created <= Now E (world st1) - MinAge cfg).

(** The same with the bound of the minimum age taken strictly. *)
Definition strictlyOlder (cfg : Config) (repository : string) (tags : list string)
    (st : State E) : Prop :=
  allMatch tags (Tags cfg) = true
  /\ (0 < MinAge cfg ->
      exists tag0 tags' created st1 ev1,
        tags = tag0 :: tags'
        /\ GetManifestCreated E repository tag0 st = (Ok created, st1, ev1)
        /\ created < Now E (world st1) - MinAge cfg).

(** The pass over [repository] comes to the group of [digest] and [tags]
    and finds it eligible: the repository matches the repository filter,
    its tags were grouped, the groups that [range] yields before this one
    were passed without a panic, and the group is eligible in the state
    reached then. *)
Definition due (rangeMap : gmap string (list string) -> list (string * list string))
    (cfg : Config) (repository digest : string) (tags : list string)
    (st : State E) : Prop :=
  Repos cfg repository = true
  /\ exists m st1 ev1 before after st2 ev2,
       GetTagsIndexedByDigest E repository st = (Ok m, st1, ev1)
       /\ rangeMap m = before ++ (digest, tags) :: after
       /\ pruneGroups E cfg repository before st1 = (Ok tt, st2, ev2)
       /\ eligible cfg repository tags st2.
End Runs.

(** ** Invariants of runs *)

Section Invariants.
Variable E : Env.

(** From every state in which [I] holds, [m] leaves a state in which [I]
    holds, and every event of the run satisfies [P]. *)
Definition keeps {A} (I : State E -> Prop) (P : Event -> Prop) (m : M E A) : Prop :=
  forall st, I st -> I (m st).1.2 /\ Forall P (m st).2.

(** Every run of [m] ends in a way that satisfies [P]. *)
Definition ends {A} (P : outcome A -> Prop) (m : M E A) : Prop :=
  forall st, P (m st).1.1.

(** The run came to its end: it did not stop at the iteration bound. *)
Definition finished {A} (r : outcome A) : Prop := r <> OutOfFuel.

(** The run returned without an error, or it panicked. *)
Definition settled {A} (r : outcome A) : Prop :=
  match r with
  | Ok _ | Panic _ => True
  | Err _ | OutOfFuel => False
  end.

(** A run that panics does so with a panic that satisfies [F]. *)
Definition panicsOnly {A} (F : panic -> Prop) (r : outcome A) : Prop :=
  match r with
  | Panic p => F p
  | _ => True
  end.

(** If the event is a DELETE request, it goes to the manifest URL of some
    digest in a repository that [matches], on the host [h]. *)
Definition deletesIn (h : string) (matches : string -> bool) (ev : Event) : Prop :=
  Trace.isDelete ev = true ->
  exists req repository digest,
    ev = EvDo FromRegistryRequest req
    /\ matches repository = true
    /\ URL req = h +:+ "/v2/" +:+ repository +:+ "/manifests/" +:+ digest.

(** The state in which [main] calls [GetRepositories]: a new client for
    the configured host, with the credentials when a user is set. *)
Definition configured (cfg : Config) (w : World E) : State E :=
  {| api := if negb (String.eqb (User cfg) "")
            then SetCredentials (User cfg) (Pass cfg) (NewAPI (Host cfg))
            else NewAPI (Host cfg);
     world := w |}.
End Invariants.

(** ** More sample registries *)

Module SampleMore.
Import Sample.

(** The open registry, except that the digest of [latest] cannot be
    fetched. *)
Definition serveWithoutLatest (req : Request) : Response :=
  if String.eqb (Method req +:+ " " +:+ URL req)
                "HEAD http://r/v2/app/manifests/latest"
  then notFound
  else serveOpen req.

Definition withoutLatestEnv : Env :=
  envOf (fun req => inl (serveWithoutLatest req)).

(** A configuration for a host on which the sample registry has no
    catalog. *)
Definition elsewhere : Config :=
  {| Host := "http://elsewhere"; User := ""; Pass := "";
     Repos := anything; Tags := versionTag; MinAge := 30; Dry := false |}.
End SampleMore.

(** * Properties *)

Local Arguments String.append : simpl nomatch.



(** ** Byte strings *)

Section StringFacts.
Import GoString.

Lemma app_assoc_s (a b c : string) : (a +:+ b) +:+ c = a +:+ (b +:+ c).
Proof. induction a as [|x a IH]; simpl; [done | by rewrite IH]. Qed.

Lemma app_nil_r_s (a : string) : a +:+ "" = a.
Proof. induction a as [|x a IH]; simpl; [done | by rewrite IH]. Qed.

Lemma length_app_s (a b : string) :
  String.length (a +:+ b) = (String.length a + String.length b)%nat.
Proof. induction a as [|x a IH]; simpl; [done | by rewrite IH]. Qed.

Lemma substring_prefix (a b : string) :
  String.substring 0 (String.length a) (a +:+ b) = a.
Proof.
  induction a as [|x a IH]; simpl.
  - by destruct b.
  - by rewrite IH.
Qed.

Lemma substring_skip (a b : string) (n : nat) :
  String.substring (String.length a) n (a +:+ b) = String.substring 0 n b.
Proof. induction a as [|x a IH]; simpl; [done | apply IH]. Qed.

Lemma index_ge_m1 c s : -1 <= index c s.
Proof.
  induction s as [|a s IH]; simpl; [lia|].
  destruct (Ascii.eqb a c); [lia|].
  destruct (index c s <? 0) eqn:Hlt; lia.
Qed.

Lemma index_absent c s : occurs c s = false -> index c s = -1.
Proof.
  induction s as [|a s IH]; simpl; [done|].
  destruct (Ascii.eqb a c); simpl; [done|].
  intros H. rewrite (IH H). done.
Qed.

(** The first occurrence is found behind a prefix without the byte. *)
Lemma index_first c pre s :
  occurs c pre = false ->
  index c (pre +:+ String c s) = len pre.
Proof.
  unfold len. induction pre as [|a pre IH]; simpl.
  - by rewrite Ascii.eqb_refl.
  - destruct (Ascii.eqb a c) eqn:Hac; simpl; [done|].
    intros H. rewrite (IH H).
    destruct (Z.of_nat (String.length pre) <? 0) eqn:Hlt; lia.
Qed.

Lemma lastIndex_absent c s : occurs c s = false -> lastIndex c s = -1.
Proof.
  induction s as [|a s IH]; simpl; [done|].
  destruct (Ascii.eqb a c); simpl; [done|].
  intros H. by rewrite (IH H).
Qed.

(** The last occurrence is the one in front of a suffix without the byte. *)
Lemma lastIndex_last c pre post :
  occurs c post = false ->
  lastIndex c (pre +:+ String c post) = len pre.
Proof.
  unfold len. intros Hpost. induction pre as [|a pre IH]; simpl.
  - rewrite (lastIndex_absent _ _ Hpost). simpl. by rewrite Ascii.eqb_refl.
  - rewrite IH.
    destruct (0 <=? Z.of_nat (String.length pre)) eqn:Hle; lia.
Qed.

(** [s[lo:hi]] cut out of the middle of a string. *)
Lemma slice_middle (a b c : string) :
  slice (a +:+ b +:+ c) (len a) (len a + len b) = Some b.
Proof.
  unfold slice, len. rewrite !length_app_s.
  replace ((0 <=? Z.of_nat (String.length a))
           && (Z.of_nat (String.length a) <=? Z.of_nat (String.length a) + Z.of_nat (String.length b))
           && (Z.of_nat (String.length a) + Z.of_nat (String.length b)
               <=? Z.of_nat (String.length a + (String.length b + String.length c)))) with true
    by (symmetry; rewrite !andb_true_iff, !Z.leb_le; lia).
  f_equal. rewrite Nat2Z.id.
  replace (Z.to_nat (Z.of_nat (String.length a) + Z.of_nat (String.length b) - Z.of_nat (String.length a)))
    with (String.length b) by lia.
  rewrite substring_skip. apply substring_prefix.
Qed.

Lemma slice_negative_end s lo hi : hi < 0 -> slice s lo hi = None.
Proof.
  intros H. unfold slice.
  destruct (0 <=? lo) eqn:H1; [|done].
  destruct (lo <=? hi) eqn:H2; [|done]. lia.
Qed.

Lemma slice_beyond s lo hi : len s < hi -> slice s lo hi = None.
Proof.
  intros H. unfold slice.
  destruct (hi <=? len s) eqn:H3; [lia|]. by rewrite andb_false_r.
Qed.
End StringFacts.


(** ** The matcher of [extractKeyValuePairs] *)

Section RegexpFacts.
Import GoString Regexp Challenge.

Lemma dquote_not_word : isWord dquote = false.
Proof. reflexivity. Qed.

Lemma space_not_word c : isSpace c = true -> isWord c = false.
Proof.
  unfold isSpace, isWord. generalize (N_of_ascii c). intros n.
  rewrite !orb_true_iff, !andb_true_iff, N.eqb_eq, !N.leb_le.
  intros H.
  repeat (apply orb_false_intro); try (apply andb_false_iff);
    rewrite ?N.leb_gt, ?N.eqb_neq; lia.
Qed.

(** A run of word bytes is taken whole when a non-word byte or the end
    of the input follows. *)
Lemma spanWord_run k rest :
  allBytes isWord k = true ->
  match rest with
  | EmptyString => True
  | String c _ => isWord c = false
  end ->
  spanWord (k +:+ rest) = (k, rest).
Proof.
  intros Hk Hrest. induction k as [|x k IH]; simpl in *.
  - destruct rest as [|c rest]; simpl; [done|]. by rewrite Hrest.
  - apply andb_true_iff in Hk as [Hx Hk]. by rewrite Hx, (IH Hk).
Qed.

Lemma spanWord_split s k r :
  spanWord s = (k, r) -> s = k +:+ r /\ allBytes isWord k = true.
Proof.
  revert k r. induction s as [|c s IH]; simpl; intros k r H.
  - by inversion H.
  - destruct (isWord c) eqn:Hc.
    + destruct (spanWord s) as [w r'] eqn:Hs. inversion H; subst.
      destruct (IH _ _ eq_refl) as [-> Hw]. simpl. by rewrite Hc, Hw.
    + by inversion H.
Qed.

Lemma untilQuote_value v rest :
  isValue v = true ->
  untilQuote (v +:+ String dquote rest) = Some (v, rest).
Proof.
  unfold isValue. induction v as [|x v IH]; simpl.
  - done.
  - rewrite negb_orb, andb_true_iff. intros [Hx Hv].
    apply negb_true_iff in Hx. by rewrite Hx, (IH Hv).
Qed.

Lemma untilQuote_split s v rest :
  untilQuote s = Some (v, rest) ->
  s = v +:+ String dquote rest /\ isValue v = true.
Proof.
  unfold isValue. revert v rest. induction s as [|c s IH]; simpl; intros v rest H.
  - done.
  - destruct (Ascii.eqb c dquote) eqn:Hc.
    + inversion H; subst. apply Ascii.eqb_eq in Hc. by subst.
    + destruct (untilQuote s) as [[v' r']|] eqn:Hs; [|done].
      inversion H; subst. destruct (IH _ _ eq_refl) as [-> Hv].
      simpl. rewrite Hc. done.
Qed.

Lemma pair_app (kv : string * string) (rest : string) :
  pair kv +:+ rest
  = kv.1 +:+ String "=" (String dquote (kv.2 +:+ String dquote rest)).
Proof.
  unfold pair, quoted. rewrite !app_assoc_s. simpl. by rewrite !app_assoc_s.
Qed.

(** At the first byte of a well-formed pair the pattern matches that
    pair and nothing more. *)
Lemma matchAt_pair kv rest :
  wellFormedPair kv = true ->
  matchAt (pair kv +:+ rest) = Some (kv.1, kv.2, rest).
Proof.
  unfold wellFormedPair, isKey. rewrite !andb_true_iff.
  intros [[Hne Hk] Hv]. rewrite pair_app. unfold matchAt.
  rewrite (spanWord_run _ _ Hk) by reflexivity.
  destruct kv.1 as [|x k] eqn:Hkey; [done|].
  simpl. by rewrite (untilQuote_value _ _ Hv).
Qed.

(** Every match is a well-formed pair at the front of the input, and it
    is not empty. *)
Lemma matchAt_split s k v rest :
  matchAt s = Some (k, v, rest) ->
  s = pair (k, v) +:+ rest /\ wellFormedPair (k, v) = true.
Proof.
  unfold matchAt. destruct (spanWord s) as [w r] eqn:Hs.
  apply spanWord_split in Hs as [-> Hw].
  destruct w as [|x w]; [done|].
  destruct r as [|c1 [|c2 r]]; [done|done|].
  destruct (Ascii.eqb c1 "=") eqn:H1; [|done].
  destruct (Ascii.eqb c2 dquote) eqn:H2; [|done]. simpl.
  destruct (untilQuote r) as [[v' rest']|] eqn:Hu; [|done].
  intros H. inversion H; subst.
  apply untilQuote_split in Hu as [-> Hv].
  apply Ascii.eqb_eq in H1, H2. subst. split.
  - by rewrite pair_app.
  - unfold wellFormedPair, isKey. simpl in *. by rewrite Hw, Hv.
Qed.

Lemma matchAt_shorter s k v rest :
  matchAt s = Some (k, v, rest) ->
  (String.length rest < String.length s)%nat.
Proof.
  intros H. apply matchAt_split in H as [-> _].
  rewrite pair_app, length_app_s. simpl. rewrite length_app_s. simpl. lia.
Qed.

Lemma matchAt_nonword c s : isWord c = false -> matchAt (String c s) = None.
Proof. intros H. unfold matchAt. simpl. by rewrite H. Qed.

(** More fuel than bytes is as good as any. *)
Lemma findAllFrom_enough fuel1 fuel2 s :
  (String.length s < fuel1)%nat -> (String.length s < fuel2)%nat ->
  findAllFrom fuel1 s = findAllFrom fuel2 s.
Proof.
  revert fuel2 s. induction fuel1 as [|fuel1 IH]; intros fuel2 s H1 H2; [lia|].
  destruct fuel2 as [|fuel2]; [lia|]. simpl.
  destruct (matchAt s) as [[[k v] rest]|] eqn:Hm.
  - apply matchAt_shorter in Hm. f_equal. apply IH; lia.
  - destruct s as [|c s]; [done|]. simpl in *. apply IH; lia.
Qed.

(** The search, unfolded once. *)
Lemma FindAllSubmatch_eq s :
  FindAllSubmatch s =
  match matchAt s with
  | Some (k, v, rest) => (k, v) :: FindAllSubmatch rest
  | None =>
      match s with
      | EmptyString => []
      | String _ s' => FindAllSubmatch s'
      end
  end.
Proof.
  unfold FindAllSubmatch at 1. simpl.
  destruct (matchAt s) as [[[k v] rest]|] eqn:Hm.
  - apply matchAt_shorter in Hm. f_equal.
    apply findAllFrom_enough; lia.
  - destruct s as [|c s]; [done|]. apply findAllFrom_enough; simpl; lia.
Qed.

Lemma FindAllSubmatch_empty : FindAllSubmatch "" = [].
Proof. reflexivity. Qed.

Lemma FindAllSubmatch_pair kv rest :
  wellFormedPair kv = true ->
  FindAllSubmatch (pair kv +:+ rest) = kv :: FindAllSubmatch rest.
Proof.
  intros H. rewrite FindAllSubmatch_eq, (matchAt_pair _ _ H). by destruct kv.
Qed.

Lemma FindAllSubmatch_nonword c s :
  isWord c = false -> FindAllSubmatch (String c s) = FindAllSubmatch s.
Proof. intros H. by rewrite FindAllSubmatch_eq, (matchAt_nonword _ _ H). Qed.

Lemma FindAllSubmatch_blank ws s :
  isBlank ws = true -> FindAllSubmatch (ws +:+ s) = FindAllSubmatch s.
Proof.
  unfold isBlank. induction ws as [|c ws IH]; simpl; [done|].
  rewrite andb_true_iff. intros [Hc Hws].
  rewrite FindAllSubmatch_nonword by (by apply space_not_word). by apply IH.
Qed.

(** The matches in the pairs that follow the first. *)
Lemma FindAllSubmatch_more rest :
  forallb (fun r => isBlank r.1 && wellFormedPair r.2) rest = true ->
  FindAllSubmatch (more rest) = map snd rest.
Proof.
  induction rest as [|[ws kv] rest IH]; simpl; [done|].
  rewrite !andb_true_iff. intros [[Hws Hkv] Hrest].
  change ("," +:+ ws +:+ pair kv +:+ more rest)
    with (String "," (ws +:+ pair kv +:+ more rest)).
  rewrite FindAllSubmatch_nonword by reflexivity.
  rewrite FindAllSubmatch_blank by done.
  rewrite FindAllSubmatch_pair by done. by rewrite IH.
Qed.

(** The matches in a well-formed header are its pairs, in order. *)
Lemma FindAllSubmatch_header first rest :
  wellFormed first rest = true ->
  FindAllSubmatch (header first rest) = pairs first rest.
Proof.
  unfold wellFormed, header, pairs. rewrite andb_true_iff. intros [H1 H2].
  rewrite FindAllSubmatch_pair by done. by rewrite FindAllSubmatch_more.
Qed.

(** A match is found exactly when the input contains a pair. *)
Lemma FindAllSubmatch_nil_iff s :
  FindAllSubmatch s = [] <-> ~ containsPair s.
Proof.
  remember (String.length s) as n eqn:Hn. revert s Hn.
  induction n as [n IH] using lt_wf_ind. intros s Hn.
  rewrite FindAllSubmatch_eq.
  destruct (matchAt s) as [[[k v] rest]|] eqn:Hm.
  - split; [done|]. intros H. exfalso. apply H.
    apply matchAt_split in Hm as [-> Hwf]. by exists "", (k, v), rest.
  - destruct s as [|c s].
    + split; [|done]. intros _ (pre & kv & post & Hwf & Heq).
      destruct pre; [|done]. simpl in Heq.
      rewrite Heq, (matchAt_pair kv post Hwf) in Hm. done.
    + rewrite (IH (String.length s)); [|simpl in Hn; lia|done].
      split; intros H (pre & kv & post & Hwf & Heq); apply H.
      * destruct pre as [|c' pre].
        -- simpl in Heq. rewrite Heq, (matchAt_pair kv post Hwf) in Hm. done.
        -- simpl in Heq. inversion Heq; subst. by exists pre, kv, post.
      * exists (String c pre), kv, post. split; [done|]. simpl. by rewrite Heq.
Qed.
End RegexpFacts.


(** ** The pairs met from left to right *)

Section ScanFacts.
Import GoString Regexp Challenge.

(** A pair at the very front is the leftmost pair. *)
Lemma leftmostPair_front kv post :
  wellFormedPair kv = true -> leftmostPair (pair kv +:+ post) "" kv post.
Proof. intros H. split; [done|]. split; [done|]. intros. simpl. lia. Qed.

(** Where no match begins at the first byte, the leftmost pair of the
    input is the leftmost pair of what follows that byte. *)
Lemma leftmostPair_skip c s pre kv post :
  matchAt (String c s) = None ->
  leftmostPair s pre kv post ->
  leftmostPair (String c s) (String c pre) kv post.
Proof.
  intros Hm (Hwf & -> & Hleft). split; [done|]. split; [done|].
  intros pre' kv' post' Hwf' Heq. destruct pre' as [|c' pre'].
  - simpl in Heq. rewrite Heq, (matchAt_pair kv' post' Hwf') in Hm. done.
  - simpl in Heq. injection Heq as <- Heq. simpl.
    apply le_n_S. by apply (Hleft pre' kv' post').
Qed.

Lemma containsPair_skip c s :
  matchAt (String c s) = None -> containsPair (String c s) -> containsPair s.
Proof.
  intros Hm (pre & kv & post & Hwf & Heq). destruct pre as [|c' pre].
  - simpl in Heq. rewrite Heq, (matchAt_pair kv post Hwf) in Hm. done.
  - simpl in Heq. injection Heq as <- ->. by exists pre, kv, post.
Qed.

(** The search finds the pairs met from left to right. *)
Lemma FindAllSubmatch_scanned s : scanned s (FindAllSubmatch s).
Proof.
  remember (String.length s) as n eqn:Hn. revert s Hn.
  induction n as [n IH] using lt_wf_ind. intros s Hn.
  rewrite FindAllSubmatch_eq.
  destruct (matchAt s) as [[[k v] rest]|] eqn:Hm.
  - pose proof (matchAt_shorter _ _ _ _ Hm) as Hlt.
    apply matchAt_split in Hm as [-> Hwf].
    eapply scanned_pair; [by apply leftmostPair_front|].
    apply (IH (String.length rest)); [lia|done].
  - destruct s as [|c s].
    + apply scanned_end. intros (pre & kv & post & Hwf & Heq).
      destruct pre; [|done]. simpl in Heq.
      rewrite Heq, (matchAt_pair kv post Hwf) in Hm. done.
    + assert (scanned s (FindAllSubmatch s)) as Hs.
      { apply (IH (String.length s)); [simpl in Hn; lia|done]. }
      destruct Hs as [s Hno|s pre kv post kvs Hleft Hrest].
      * apply scanned_end. intros Hc. by apply Hno, (containsPair_skip c).
      * eapply scanned_pair; [by apply leftmostPair_skip|done].
Qed.

(** Behind a prefix in which no pair begins, the search finds the pair
    and goes on behind it. *)
Lemma FindAllSubmatch_leftmost s pre kv post :
  leftmostPair s pre kv post ->
  FindAllSubmatch s = kv :: FindAllSubmatch post.
Proof.
  revert s. induction pre as [|c pre IH]; intros s (Hwf & -> & Hleft).
  - by apply FindAllSubmatch_pair.
  - change (String c pre +:+ pair kv +:+ post)
      with (String c (pre +:+ pair kv +:+ post)) in *.
    rewrite FindAllSubmatch_eq.
    destruct (matchAt (String c (pre +:+ pair kv +:+ post)))
      as [[[k v] rest]|] eqn:Hm.
    + apply matchAt_split in Hm as [Heq Hwf'].
      specialize (Hleft "" (k, v) rest Hwf' Heq). simpl in Hleft. lia.
    + apply IH. split; [done|]. split; [done|].
      intros pre' kv' post' Hwf' Heq.
      specialize (Hleft (String c pre') kv' post' Hwf').
      simpl in Hleft. rewrite Heq in Hleft. specialize (Hleft eq_refl). lia.
Qed.

(** The pairs met from left to right are those the search finds. *)
Lemma scanned_FindAllSubmatch s kvs : scanned s kvs -> FindAllSubmatch s = kvs.
Proof.
  induction 1 as [s Hno|s pre kv post kvs Hleft _ IH].
  - by apply FindAllSubmatch_nil_iff.
  - by rewrite (FindAllSubmatch_leftmost _ _ _ _ Hleft), IH.
Qed.
End ScanFacts.


(** ** [extractKeyValuePairs] *)

Section ExtractFacts.
Import GoString Regexp Challenge.

Local Abbreviation store :=
  (fun (result : gmap string string) (m : string * string) =>
     <[m.1 := m.2]> result).

Lemma foldl_store_last_wins (l : list (string * string)) :
  foldl store ∅ l = list_to_map (reverse l).
Proof.
  induction l as [|x l IH] using rev_ind; [done|].
  rewrite foldl_app, reverse_app. simpl. by rewrite IH.
Qed.

Lemma foldl_store_empty (l : list (string * string)) (m : gmap string string) :
  foldl store m l = ∅ -> l = [] /\ m = ∅.
Proof.
  revert m. induction l as [|x l IH]; simpl; intros m H; [done|].
  apply IH in H as [_ H]. by apply insert_non_empty in H.
Qed.

Lemma extractKeyValuePairs_empty_iff s :
  extractKeyValuePairs s = ∅ <-> FindAllSubmatch s = [].
Proof.
  unfold extractKeyValuePairs. split.
  - intros H. by apply (foldl_store_empty _ ∅) in H as [H _].
  - by intros ->.
Qed.

(** C6, as amended: a header made of comma-separated pairs of a
    bare-identifier key, an equals sign and a double-quoted value, with
    any white space after the commas, is mapped to exactly those keys
    with those values (the last value for a key that is repeated); the
    empty string is mapped to the empty mapping, and so is exactly every
    input that contains no such pair anywhere; every other input is
    mapped to the pairs met when it is read from left to right, each the
    leftmost pair of what follows the pair before it, the last value
    standing for a key that is met more than once. *)
Theorem extractKeyValuePairs_pairs :
  (forall first rest,
      wellFormed first rest = true ->
      extractKeyValuePairs (header first rest)
      = list_to_map (reverse (pairs first rest)))
  /\ extractKeyValuePairs "" = ∅
  /\ (forall s, extractKeyValuePairs s = ∅ <-> ~ containsPair s)
  /\ (forall s, exists kvs, scanned s kvs)
  /\ (forall s kvs,
         scanned s kvs -> extractKeyValuePairs s = list_to_map (reverse kvs)).
Proof.
  split; [|split; [|split; [|split]]].
  - intros first rest H. unfold extractKeyValuePairs.
    rewrite (FindAllSubmatch_header _ _ H). apply foldl_store_last_wins.
  - reflexivity.
  - intros s. rewrite extractKeyValuePairs_empty_iff.
    apply FindAllSubmatch_nil_iff.
  - intros s. exists (FindAllSubmatch s). apply FindAllSubmatch_scanned.
  - intros s kvs H. unfold extractKeyValuePairs.
    rewrite (scanned_FindAllSubmatch _ _ H). apply foldl_store_last_wins.
Qed.

(** A well-formed header starts with its first key, followed by the
    equals sign. *)
Lemma spanWord_header first rest :
  wellFormed first rest = true ->
  exists tail, spanWord (header first rest) = (first.1, String "=" tail).
Proof.
  unfold wellFormed, wellFormedPair, isKey, header. rewrite !andb_true_iff.
  intros [[[_ Hk] _] _]. rewrite pair_app. eexists.
  by apply spanWord_run.
Qed.
End ExtractFacts.


(** ** The request path *)

Section RequestFacts.
Import Trace.
Variable E : Env.

Lemma count_app p (a b : list Event) :
  count p (a ++ b) = (count p a + count p b)%nat.
Proof. unfold count. by rewrite List.filter_app, length_app. Qed.

(** [registryRequest] hands at most one request to the HTTP client, with
    the method, URL and credentials of the call, and leaves the [API]
    value alone. *)
Lemma registryRequest_inv method path version (st : State E) r st' evs :
  registryRequest E method path version st = (r, st', evs) ->
  api st' = api st
  /\ (evs = [] /\ st' = st
       /\ (r = Err (ErrNewRequest method (host (api st) +:+ path))
           \/ r = Panic (PanicManifestVersion version))
      \/ exists req,
           evs = [EvDo FromRegistryRequest req]
           /\ Method req = method
           /\ URL req = host (api st) +:+ path
           /\ (bearerToken (api st) <> "" ->
               Authorization req = Some (Bearer (bearerToken (api st))))
           /\ (r = match (Do E req (world st)).1 with
                   | inl resp => Ok resp
                   | inr msg => Err (ErrTransport msg)
                   end)).
Proof.
  unfold registryRequest, bind, getAPI, fail, raise, clientDo.
  destruct (newRequestOk E method _); simpl.
  - destruct (manifestContentType !! version) as [ct|]; simpl.
    + destruct (Do E _ (world st)) as [res w] eqn:HDo.
      intros H. inversion H; subst; clear H. simpl. split; [done|].
      right. eexists. split; [done|].
      simpl. repeat split; try done.
      * intros Hne. apply String.eqb_neq in Hne. by rewrite Hne.
      * rewrite HDo. simpl. by destruct res.
    + intros H. inversion H; subst. split; [done|]. left. auto.
  - intros H. inversion H; subst. split; [done|]. left. auto.
Qed.

Lemma registryRequest_count method path version (st : State E) :
  let evs := (registryRequest E method path version st).2 in
  (count isRegistryRequest evs <= 1)%nat /\ count isTokenRequest evs = 0%nat
  /\ Forall (fun ev => exists req, ev = EvDo FromRegistryRequest req
                                   /\ Method req = method) evs.
Proof.
  destruct (registryRequest E method path version st) as [[r st'] evs] eqn:H.
  simpl. apply registryRequest_inv in H as [_ [(-> & _ & _)|(req & -> & Hm & _)]].
  - unfold count; simpl. repeat split; [lia|constructor].
  - unfold count; simpl. repeat split; [lia|]. repeat constructor. by exists req.
Qed.

(** [fetchBearerToken] hands at most one request to the HTTP client, a
    GET, and leaves the [API] value alone. *)
Lemma fetchBearerToken_inv deniedResponse (st : State E) r st' evs :
  fetchBearerToken E deniedResponse st = (r, st', evs) ->
  api st' = api st
  /\ (evs = [] \/ exists req, evs = [EvDo FromFetchBearerToken req]
                              /\ Method req = "GET").
Proof.
  unfold fetchBearerToken, bind, lift, getAPI, fail, clientDo, decodeBody, ofOption, ret.
  destruct (tokenRequestURLFromResponse E deniedResponse) as [u| | |];
    try (intros H; inversion H; subst; split; [done|by left]).
  destruct (newRequestOk E "GET" u); simpl;
    try (intros H; inversion H; subst; split; [done|by left]).
  destruct (Do E _ (world st)) as [[resp|msg] w]; simpl.
  - destruct (300 <=? StatusCode resp); simpl.
    + intros H; inversion H; subst. split; [done|]. right. by eexists.
    + destruct (jsonDecode E _) as [j|]; simpl.
      * destruct (Json.token _ j); simpl;
          intros H; inversion H; subst; (split; [done|]); right; by eexists.
      * intros H; inversion H; subst. split; [done|]. right. by eexists.
  - intros H; inversion H; subst. split; [done|]. right. by eexists.
Qed.

Lemma fetchBearerToken_count deniedResponse (st : State E) :
  let evs := (fetchBearerToken E deniedResponse st).2 in
  count isRegistryRequest evs = 0%nat /\ (count isTokenRequest evs <= 1)%nat
  /\ Forall (fun ev => exists req, ev = EvDo FromFetchBearerToken req
                                   /\ Method req = "GET") evs.
Proof.
  destruct (fetchBearerToken E deniedResponse st) as [[r st'] evs] eqn:H.
  simpl. apply fetchBearerToken_inv in H as [_ [->|(req & -> & Hm)]].
  - unfold count; simpl. repeat split; [lia|constructor].
  - unfold count; simpl. repeat split; [lia|]. repeat constructor. by exists req.
Qed.

(** [request], case by case. *)
Lemma request_unfold method path version (st : State E) :
  request E method path version st =
  match registryRequest E method path version st with
  | (Ok resp, st1, ev1) =>
      if StatusCode resp <? 300 then (Ok resp, st1, ev1)
      else if (StatusCode resp =? 401)
              && negb (String.eqb (Header_Get (Header resp) wwwAuthenticateHeader) "")
      then
        match fetchBearerToken E resp st1 with
        | (Ok token, st2, ev2) =>
            let '(r3, st3, ev3) :=
              registryRequest E method path version (withToken token st2) in
            (retried method path r3, st3, ev1 ++ ev2 ++ ev3)
        | (Err e, st2, ev2) => (Err e, st2, ev1 ++ ev2)
        | (Panic p, st2, ev2) => (Panic p, st2, ev1 ++ ev2)
        | (OutOfFuel, st2, ev2) => (OutOfFuel, st2, ev1 ++ ev2)
        end
      else (Err (ErrStatus (StatusCode resp) method path), st1, ev1)
  | other => other
  end.
Proof.
  unfold request at 1, bind at 1.
  destruct (registryRequest E method path version st) as [[[resp| e | p |] st1] ev1];
    try done.
  destruct (StatusCode resp <? 300) eqn:Hok.
  - unfold ret. by rewrite app_nil_r.
  - destruct (andb (StatusCode resp =? 401) _) eqn:Hch.
    + unfold bind at 1. unfold bind at 1.
      destruct (fetchBearerToken E resp st1) as [[[token| e | p |] st2] ev2];
        try done.
      unfold bind at 1, modifyAPI at 1. fold (withToken token st2).
      destruct (registryRequest E method path version (withToken token st2))
        as [[[resp2| e | p |] st3] ev3]; simpl; try done.
      destruct (300 <=? StatusCode resp2); unfold fail, ret; simpl;
        by rewrite ?app_nil_r.
    + unfold bind, ret, fail. simpl.
      assert ((300 <=? StatusCode resp) = true) as -> by lia.
      by rewrite !app_nil_r.
Qed.

Lemma fetchBearerToken_ok deniedResponse (st : State E) token st' evs :
  fetchBearerToken E deniedResponse st = (Ok token, st', evs) ->
  exists req, evs = [EvDo FromFetchBearerToken req].
Proof.
  unfold fetchBearerToken, bind, lift, getAPI, fail, clientDo, decodeBody, ofOption, ret.
  destruct (tokenRequestURLFromResponse E deniedResponse) as [u| | |]; try done.
  destruct (newRequestOk E "GET" u); simpl; try done.
  destruct (Do E _ (world st)) as [[resp|msg] w]; simpl; [|done].
  destruct (300 <=? StatusCode resp); simpl; [done|].
  destruct (jsonDecode E _) as [j|]; simpl; [|done].
  destruct (Json.token _ j); simpl; [|done].
  intros H; inversion H; subst. by eexists.
Qed.

(** The request that [registryRequest] builds from the [API] value [a]. *)
Local Abbreviation built a method path contentType :=
  {| Method := method; URL := host a +:+ path;
     QueryN := if 0 <? pageSize a then Some (pageSize a) else None;
     Accept := Some contentType;
     Authorization := if String.eqb (bearerToken a) "" then basicAuth a
                      else Some (Bearer (bearerToken a)) |}.

(** When the request can be built, [registryRequest] hands it to the HTTP
    client and returns the answer. *)
Lemma registryRequest_sends method path version contentType (st : State E) :
  newRequestOk E method (host (api st) +:+ path) = true ->
  manifestContentType !! version = Some contentType ->
  let req := built (api st) method path contentType in
  registryRequest E method path version st
  = (answer (Do E req (world st)).1,
     {| api := api st; world := (Do E req (world st)).2 |},
     [EvDo FromRegistryRequest req]).
Proof.
  intros Hok Hct. unfold registryRequest, bind, getAPI, clientDo. simpl.
  rewrite Hok, Hct. simpl. unfold basicAuth.
  by destruct (Do E _ (world st)) as [[resp|msg] w].
Qed.

(** [registryRequest] returns a response only when the request could be
    built. *)
Lemma registryRequest_built method path version (st : State E) resp st1 ev1 :
  registryRequest E method path version st = (Ok resp, st1, ev1) ->
  newRequestOk E method (host (api st) +:+ path) = true
  /\ exists contentType, manifestContentType !! version = Some contentType.
Proof.
  unfold registryRequest, bind, getAPI, fail, raise. simpl.
  destruct (newRequestOk E method _); simpl; [|done].
  destruct (manifestContentType !! version) as [ct|]; simpl; [|done].
  intros _. split; [done|]. by exists ct.
Qed.

(** C3, as amended: one call of [request] hands at most two requests to
    the registry and at most one to the token service, and a second
    registry request is only sent after a token request; a response it
    returns has a success status.  After a 401 challenge and a fetched
    token exactly three requests have been sent: the original request,
    the token request, and the original request once more (same method,
    URL, page size and Accept header).  The request sent again carries
    the fetched token as bearer authorization unless that token is the
    empty string; then it carries the basic credentials, if a user is
    configured, and no bearer token.  The answer to it is final: a
    non-success status is returned as the error of the call.  The token
    is stored in the client. *)
Theorem request_reissues_once method path version (st : State E) :
  let '(r, st', evs) := request E method path version st in
  (count isRegistryRequest evs <= 2)%nat
  /\ (count isTokenRequest evs <= 1)%nat
  /\ (count isRegistryRequest evs = 2%nat -> count isTokenRequest evs = 1%nat)
  /\ (forall resp, r = Ok resp -> StatusCode resp < 300)
  /\ forall resp1 st1 ev1 token st2 ev2,
       registryRequest E method path version st = (Ok resp1, st1, ev1) ->
       StatusCode resp1 = 401 ->
       Header_Get (Header resp1) wwwAuthenticateHeader <> "" ->
       fetchBearerToken E resp1 st1 = (Ok token, st2, ev2) ->
       exists req1 treq req2,
         ev1 = [EvDo FromRegistryRequest req1]
         /\ ev2 = [EvDo FromFetchBearerToken treq]
         /\ evs = [EvDo FromRegistryRequest req1; EvDo FromFetchBearerToken treq;
                   EvDo FromRegistryRequest req2]
         /\ Method req2 = method
         /\ URL req2 = host (api st) +:+ path
         /\ QueryN req2 = QueryN req1
         /\ Accept req2 = Accept req1
         /\ Authorization req2
            = (if String.eqb token "" then basicAuth (api st)
               else Some (Bearer token))
         /\ r = retried method path (answer (Do E req2 (world st2)).1)
         /\ st' = {| api := setBearerToken token (api st);
                     world := (Do E req2 (world st2)).2 |}.
Proof.
  rewrite request_unfold.
  destruct (registryRequest E method path version st) as [[r1 st1] ev1] eqn:H1.
  pose proof (registryRequest_count method path version st) as (Hc1 & Ht1 & _).
  pose proof (registryRequest_inv _ _ _ _ _ _ _ H1) as [Hapi1 _].
  rewrite H1 in Hc1, Ht1. simpl in Hc1, Ht1.
  destruct r1 as [resp| e | p |];
    try (repeat split; [lia|lia|lia|done|done]).
  destruct (StatusCode resp <? 300) eqn:Hok.
  { repeat split; [lia|lia|lia| |].
    - intros ? [= <-]. lia.
    - intros ? ? ? ? ? ? [= <- <- <-]. lia. }
  destruct (andb (StatusCode resp =? 401) _) eqn:Hch.
  2:{ repeat split; [lia|lia|lia|done|].
      intros ? ? ? ? ? ? [= <- <- <-] H401 Hne.
      rewrite H401 in Hch. simpl in Hch.
      apply negb_false_iff, String.eqb_eq in Hch. done. }
  destruct (fetchBearerToken E resp st1) as [[r2 st2] ev2] eqn:H2.
  pose proof (fetchBearerToken_count resp st1) as (Hc2 & Ht2 & _).
  pose proof (fetchBearerToken_inv _ _ _ _ _ H2) as [Hapi2 _].
  rewrite H2 in Hc2, Ht2. simpl in Hc2, Ht2.
  destruct r2 as [token| e | p |];
    try (rewrite !count_app; repeat split; [lia|lia|lia|done|];
         intros ? ? ? ? ? ? [= <- <- <-] _ _ Hf; by rewrite H2 in Hf).
  destruct (registryRequest_built _ _ _ _ _ _ _ H1) as (Hnew & ct & Hct).
  rewrite (registryRequest_sends _ _ _ ct st Hnew Hct) in H1.
  injection H1 as _ _ <-.
  assert (newRequestOk E method (host (api (withToken token st2)) +:+ path) = true)
    as Hnew3 by (simpl; by rewrite Hapi2, Hapi1).
  rewrite (registryRequest_sends _ _ _ ct (withToken token st2) Hnew3 Hct).
  apply fetchBearerToken_ok in H2 as Hev2. destruct Hev2 as [treq ->].
  cbn zeta. unfold count. simpl.
  split; [lia|]. split; [lia|]. split; [lia|]. split.
  - intros resp2. destruct (Do E _ (world st2)) as [[resp3|msg] w3]; simpl; [|done].
    destruct (300 <=? StatusCode resp3) eqn:H300; [done|].
    intros [= <-]. lia.
  - intros ? ? ? ? ? ? [= <- <- <-] _ _ Hf. rewrite H2 in Hf.
    injection Hf as <- <- <-.
    eexists _, treq, _. split; [reflexivity|]. split; [reflexivity|].
    split; [reflexivity|]. simpl. rewrite Hapi2, Hapi1.
    by repeat split.
Qed.
End RequestFacts.


(** ** The token exchange *)

Section TokenFacts.
Import GoString Trace.
Variable E : Env.

(** A challenge shorter than the scheme prefix makes the slice
    expression panic. *)
Lemma tokenRequestURL_short deniedResponse :
  len (Header_Get (Header deniedResponse) wwwAuthenticateHeader) < 7 ->
  tokenRequestURLFromResponse E deniedResponse = Panic PanicSliceBounds.
Proof.
  intros H. unfold tokenRequestURLFromResponse.
  by rewrite (slice_beyond _ 0 7 H).
Qed.

(** For a challenge of at least seven bytes the function returns an
    error exactly when the scheme prefix is not the bearer one or one of
    the three keys is missing, and otherwise the realm with the scope
    and the service as query parameters. *)
Lemma tokenRequestURL_long deniedResponse :
  let header := Header_Get (Header deniedResponse) wwwAuthenticateHeader in
  let instructions := extractKeyValuePairs header in
  7 <= len header ->
  ((exists e, tokenRequestURLFromResponse E deniedResponse = Err e)
   <-> (String.substring 0 7 header <> "Bearer "
        \/ instructions !! "realm" = None
        \/ instructions !! "service" = None
        \/ instructions !! "scope" = None))
  /\ (forall realm service scope,
         String.substring 0 7 header = "Bearer " ->
         instructions !! "realm" = Some realm ->
         instructions !! "service" = Some service ->
         instructions !! "scope" = Some scope ->
         tokenRequestURLFromResponse E deniedResponse
         = Ok (realm +:+ "?" +:+ "scope=" +:+ queryEscape E scope +:+ "&"
                     +:+ "service=" +:+ queryEscape E service)).
Proof.
  intros header instructions Hlen. unfold tokenRequestURLFromResponse.
  fold header. fold instructions. unfold slice.
  replace ((0 <=? 0) && (0 <=? 7) && (7 <=? len header)) with true
    by (symmetry; rewrite !andb_true_iff, !Z.leb_le; lia).
  change (Z.to_nat 0) with 0%nat. change (Z.to_nat (7 - 0)) with 7%nat.
  destruct (String.eqb_spec (String.substring 0 7 header) "Bearer ") as [Hs|Hs];
    simpl.
  - split.
    + destruct (instructions !! "realm"), (instructions !! "service"),
        (instructions !! "scope"); split; try (intros [e [=]]); eauto;
        intros [?|[?|[?|?]]]; done.
    + by intros realm service scope _ -> -> ->.
  - split; [|done]. split; eauto.
Qed.

(** Decoding the token struct from an object without a member for the
    token field leaves the token empty and reports no error. *)
Lemma token_absent members :
  Forall (fun m => keyFold E "token" m.1 = false) members ->
  Json.token (keyFold E) (JObject members) = Some "".
Proof.
  unfold Json.token, Json.intoStruct. generalize "" as cur.
  induction members as [|[k v] members IH]; simpl; intros cur H; [done|].
  inversion H as [|? ? Hk Hrest]; subst. simpl in Hk. rewrite Hk. by apply IH.
Qed.

Lemma token_present pre k t post :
  Forall (fun m => keyFold E "token" m.1 = false) pre ->
  keyFold E "token" k = true ->
  Forall (fun m => keyFold E "token" m.1 = false) post ->
  Json.token (keyFold E) (JObject (pre ++ (k, JString t) :: post)) = Some t.
Proof.
  unfold Json.token, Json.intoStruct. generalize "" as cur.
  induction pre as [|[k' v'] pre IH]; simpl; intros cur Hpre Hk Hpost.
  - rewrite Hk. simpl. clear Hk. revert Hpost. generalize t as cur'.
    induction post as [|[k'' v''] post IHp]; simpl; intros cur' H; [done|].
    inversion H as [|? ? Hk' Hrest]; subst. simpl in Hk'. rewrite Hk'.
    by apply IHp.
  - inversion Hpre as [|? ? Hk' Hrest]; subst. simpl in Hk'. rewrite Hk'.
    by apply IH.
Qed.

(** C4, as amended: the exchange is a GET to the URL derived from the
    challenge, with basic credentials when a user is configured.  It
    fails with an error when the status of the answer is not below 300
    and when the body is not JSON.  When the body is an object without a
    token member it returns the empty token and no error; when the
    object has one token member, a string, it returns that string. *)
Theorem fetchBearerToken_exchange deniedResponse u (st : State E) resp w :
  tokenRequestURLFromResponse E deniedResponse = Ok u ->
  newRequestOk E "GET" u = true ->
  let req := {| Method := "GET"; URL := u; QueryN := None; Accept := None;
                Authorization :=
                  if String.eqb (user (api st)) "" then None
                  else Some (Basic (user (api st)) (pass (api st))) |} in
  Do E req (world st) = (inl resp, w) ->
  let result := fetchBearerToken E deniedResponse st in
  result.2 = [EvDo FromFetchBearerToken req]
  /\ (300 <= StatusCode resp -> result.1.1 = Err (ErrTokenStatus (StatusCode resp)))
  /\ (StatusCode resp < 300 ->
      (jsonDecode E (Data (Body resp)) = None -> result.1.1 = Err ErrDecode)
      /\ forall members,
           jsonDecode E (Data (Body resp)) = Some (JObject members) ->
           (Forall (fun m => keyFold E "token" m.1 = false) members ->
            result.1.1 = Ok "")
           /\ (forall pre k t post,
                  members = pre ++ (k, JString t) :: post ->
                  Forall (fun m => keyFold E "token" m.1 = false) pre ->
                  keyFold E "token" k = true ->
                  Forall (fun m => keyFold E "token" m.1 = false) post ->
                  result.1.1 = Ok t)).
Proof.
  intros Hu Hnew req HDo result. subst result.
  unfold fetchBearerToken, bind, lift, getAPI, clientDo, fail.
  rewrite Hu, Hnew. simpl. fold req. rewrite HDo. simpl.
  destruct (300 <=? StatusCode resp) eqn:Hs; simpl.
  - split; [done|]. split; [done|]. lia.
  - unfold decodeBody. split; [|split; [lia|]].
    + destruct (jsonDecode E _) as [j|]; simpl; [|done].
      by destruct (Json.token _ j).
    + intros _. split.
      * by intros ->.
      * intros members ->. split.
        -- intros H. by rewrite (token_absent _ H).
        -- intros pre k t post -> Hpre Hk Hpost.
           by rewrite (token_present _ _ _ _ Hpre Hk Hpost).
Qed.
End TokenFacts.


(** ** Manifest metadata *)

Section ManifestFacts.
Import GoString Trace.
Variable E : Env.

(** An error of [request] is a request that could not be built or sent,
    or it follows a registry answer with a non-success status. *)
Lemma request_error method path version (st : State E) e st' evs :
  request E method path version st = (Err e, st', evs) ->
  (exists m u, e = ErrNewRequest m u)
  \/ (exists msg, e = ErrTransport msg)
  \/ (exists resp st1 ev1,
        registryRequest E method path version st = (Ok resp, st1, ev1)
        /\ 300 <= StatusCode resp).
Proof.
  rewrite request_unfold.
  destruct (registryRequest E method path version st) as [[r1 st1] ev1] eqn:H1.
  destruct r1 as [resp| e1 | p |]; try done.
  - intros H. right. right. exists resp, st1, ev1. split; [done|].
    destruct (StatusCode resp <? 300) eqn:Hok; [done|]. lia.
  - intros [= -> -> ->].
    apply registryRequest_inv in H1
      as [_ [(_ & _ & [H|H])|(req & _ & _ & _ & _ & H)]].
    + injection H as ->. left. eauto.
    + done.
    + destruct ((Do E req (world st)).1); [done|].
      injection H as ->. right. left. eauto.
Qed.

(** C9: when the manifest request succeeds and the decoded manifest has
    an empty history list, [GetManifestDigestAndCreated] panics on the
    index expression [History[0]] instead of returning an error; an
    error it does return is a JSON decoding failure, a request that could
    not be built or sent, or follows a non-success status of the
    registry. *)
Theorem GetManifestDigestAndCreated_empty_history repository tag (st : State E) :
  let path := "/v2/" +:+ repository +:+ "/manifests/" +:+ tag in
  (forall resp st1 ev1 j,
      request E "GET" path manifestV1 st = (Ok resp, st1, ev1) ->
      jsonDecode E (Data (Body resp)) = Some j ->
      Json.manifest (keyFold E) (growCap E) j = Some [] ->
      GetManifestDigestAndCreated E repository tag st
      = (Panic PanicIndexOutOfRange, st1, ev1))
  /\ (forall e st' evs,
         GetManifestDigestAndCreated E repository tag st = (Err e, st', evs) ->
         e = ErrDecode
         \/ (exists m u, e = ErrNewRequest m u)
         \/ (exists msg, e = ErrTransport msg)
         \/ (exists resp st1 ev1,
               registryRequest E "GET" path manifestV1 st = (Ok resp, st1, ev1)
               /\ 300 <= StatusCode resp)).
Proof.
  intros path. unfold GetManifestDigestAndCreated. fold path. split.
  - intros resp st1 ev1 j Hreq Hj Hm. unfold bind at 1. rewrite Hreq.
    unfold bind at 1, decodeBody. rewrite Hj. simpl. rewrite Hm. simpl.
    by rewrite app_nil_r.
  - intros e st' evs. unfold bind at 1.
    destruct (request E "GET" path manifestV1 st) as [[r1 st1] ev1] eqn:Hreq.
    destruct r1 as [resp| e1 | p |]; try done.
    + unfold bind at 1, decodeBody.
      destruct (jsonDecode E _) as [j|]; simpl;
        [|intros [= <- <- <-]; by left].
      destruct (Json.manifest _ _ j) as [history|]; simpl;
        [|intros [= <- <- <-]; by left].
      destruct history as [|first history]; [done|].
      unfold bind.
      destruct (jsonUnmarshal E first) as [j'|]; simpl;
        [|intros [= <- <- <-]; by left].
      destruct (Json.historyItem _ _ j'); simpl; [done|].
      intros [= <- <- <-]; by left.
    + intros [= <- <- <-]. right. by apply request_error in Hreq.
Qed.
End ManifestFacts.

(** ** Catalog pages *)

Section CatalogFacts.
Import GoString Trace.
Variable E : Env.

Lemma nextPagePath_absent resp :
  Header resp !! "Link" = None -> nextPagePath resp = Ok "".
Proof. intros H. unfold nextPagePath, Header_Get. by rewrite H. Qed.

(** The path between the first [<] and the last [>]. *)
Lemma nextPagePath_between resp pre next post :
  Header_Get (Header resp) "Link"
  = pre +:+ String "<" (next +:+ String ">" post) ->
  occurs "<" pre = false -> occurs ">" post = false ->
  nextPagePath resp = Ok next.
Proof.
  intros Hlink Hpre Hpost. unfold nextPagePath. rewrite Hlink.
  destruct (String.eqb_spec (pre +:+ String "<" (next +:+ String ">" post)) "")
    as [Heq|_].
  { by destruct pre. }
  rewrite (index_first _ _ _ Hpre).
  replace (pre +:+ String "<" (next +:+ String ">" post))
    with ((pre +:+ "<" +:+ next) +:+ String ">" post)
    by (rewrite !app_assoc_s; done).
  rewrite (lastIndex_last _ _ _ Hpost).
  replace ((pre +:+ "<" +:+ next) +:+ String ">" post)
    with ((pre +:+ "<") +:+ next +:+ String ">" post)
    by (rewrite !app_assoc_s; done).
  replace (len pre + 1) with (len (pre +:+ "<"))
    by (unfold len; rewrite length_app_s; simpl; lia).
  replace (len (pre +:+ "<" +:+ next)) with (len (pre +:+ "<") + len next)
    by (unfold len; rewrite !length_app_s; simpl; lia).
  by rewrite slice_middle.
Qed.

Lemma nextPagePath_no_gt resp :
  Header_Get (Header resp) "Link" <> "" ->
  occurs ">" (Header_Get (Header resp) "Link") = false ->
  nextPagePath resp = Panic PanicSliceBounds.
Proof.
  intros Hne Hgt. unfold nextPagePath.
  destruct (String.eqb_spec (Header_Get (Header resp) "Link") "") as [|_]; [done|].
  rewrite (lastIndex_absent _ _ Hgt).
  by rewrite slice_negative_end by lia.
Qed.

(** One turn of the loop of [GetRepositories]. *)
Lemma catalogLoop_step fuel path repositories (st : State E) resp st1 ev1 j names :
  path <> "" ->
  request E "GET" path manifestV2 st = (Ok resp, st1, ev1) ->
  jsonDecode E (Data (Body resp)) = Some j ->
  Json.catalog (keyFold E) (growCap E) j = Some names ->
  catalogLoop E (S fuel) path repositories st =
  match nextPagePath resp with
  | Ok next =>
      match CloseErr (Body resp) with
      | None =>
          let '(r, st2, ev2) :=
            catalogLoop E fuel next (repositories ++ names) st1 in
          (r, st2, ev1 ++ ev2)
      | Some msg => (Err (ErrClose msg), st1, ev1)
      end
  | Err e => (Err e, st1, ev1)
  | Panic p => (Panic p, st1, ev1)
  | OutOfFuel => (OutOfFuel, st1, ev1)
  end.
Proof.
  intros Hpath Hreq Hj Hnames. simpl.
  apply String.eqb_neq in Hpath. rewrite Hpath.
  unfold bind at 1. rewrite Hreq.
  unfold bind at 1, decodeBody. rewrite Hj. simpl. rewrite Hnames. simpl.
  unfold bind at 1, lift.
  destruct (nextPagePath resp) as [next| e | p |]; simpl;
    try (by rewrite app_nil_r).
  unfold bind at 1, bodyClose.
  destruct (CloseErr (Body resp)); simpl; [by rewrite app_nil_r|].
  by destruct (catalogLoop E fuel next (repositories ++ names) st1) as [[r st2] ev2].
Qed.

(** C10: a Link header that is present and not empty but holds no [>]
    makes [nextPagePath] panic on its slice expression, and with it the
    loop of [GetRepositories] at the page that carries the header. *)
Theorem nextPagePath_malformed_link_panics :
  (forall resp,
      Header_Get (Header resp) "Link" <> "" ->
      occurs ">" (Header_Get (Header resp) "Link") = false ->
      nextPagePath resp = Panic PanicSliceBounds)
  /\ (forall fuel path repositories (st : State E) resp st1 ev1 j names,
         path <> "" ->
         request E "GET" path manifestV2 st = (Ok resp, st1, ev1) ->
         jsonDecode E (Data (Body resp)) = Some j ->
         Json.catalog (keyFold E) (growCap E) j = Some names ->
         Header_Get (Header resp) "Link" <> "" ->
         occurs ">" (Header_Get (Header resp) "Link") = false ->
         catalogLoop E (S fuel) path repositories st
         = (Panic PanicSliceBounds, st1, ev1)).
Proof.
  split; [apply nextPagePath_no_gt|].
  intros fuel path repositories st resp st1 ev1 j names Hp Hreq Hj Hn Hne Hgt.
  rewrite (catalogLoop_step _ _ _ _ _ _ _ _ _ Hp Hreq Hj Hn).
  by rewrite (nextPagePath_no_gt _ Hne Hgt).
Qed.

Lemma catalogLoop_received path (st : State E) pages st' evs :
  received E path st pages st' evs ->
  forall fuel repositories,
    (length pages <= fuel)%nat ->
    catalogLoop E fuel path repositories st
    = (Ok (repositories ++ concat pages), st', evs).
Proof.
  induction 1 as [st|path st resp st1 ev1 j names next pages st2 ev2
                     Hp Hreq Hj Hn Hnext Hclose _ IH];
    intros fuel repositories Hfuel.
  - destruct fuel; simpl; by rewrite app_nil_r.
  - destruct fuel as [|fuel]; [simpl in Hfuel; lia|].
    rewrite (catalogLoop_step _ _ _ _ _ _ _ _ _ Hp Hreq Hj Hn), Hnext, Hclose.
    rewrite IH by (simpl in Hfuel; lia). simpl. by rewrite app_assoc.
Qed.

Lemma catalogLoop_ok fuel path repositories (st : State E) result st' evs :
  catalogLoop E fuel path repositories st = (Ok result, st', evs) ->
  exists pages,
    received E path st pages st' evs /\ result = repositories ++ concat pages.
Proof.
  revert path repositories st evs.
  induction fuel as [|fuel IH]; intros path repositories st evs; simpl.
  - destruct (String.eqb_spec path "") as [->|_]; [|done].
    intros [= <- <- <-]. exists []. split; [constructor|].
    by rewrite app_nil_r.
  - destruct (String.eqb_spec path "") as [->|Hp].
    { intros [= <- <- <-]. exists []. split; [constructor|].
      by rewrite app_nil_r. }
    unfold bind at 1.
    destruct (request E "GET" path manifestV2 st) as [[r1 st1] ev1] eqn:Hreq.
    destruct r1 as [resp| | |]; try done.
    unfold bind at 1, decodeBody.
    destruct (jsonDecode E _) as [j|] eqn:Hj; simpl; [|done].
    destruct (Json.catalog _ _ j) as [names|] eqn:Hn; simpl; [|done].
    unfold bind at 1, lift.
    destruct (nextPagePath resp) as [next| | |] eqn:Hnext; simpl; try done.
    unfold bind at 1, bodyClose.
    destruct (CloseErr (Body resp)) eqn:Hclose; simpl; [done|].
    destruct (catalogLoop E fuel next (repositories ++ names) st1)
      as [[r2 st2] ev2] eqn:Hloop.
    intros [= -> <- <-].
    apply IH in Hloop as (pages & Hrec & ->).
    exists (names :: pages). split.
    + by eapply received_page.
    + simpl. by rewrite app_assoc.
Qed.

(** C7: the next page is requested at the path between the first [<]
    and the last [>] of the Link header; without the header the loop
    ends; and when the catalog is received as a sequence of pages,
    [GetRepositories] returns the names of all pages, page after page and
    in the order of each page, and it returns nothing else. *)
Theorem GetRepositories_concatenates_pages :
  (forall resp pre next post,
      Header_Get (Header resp) "Link"
      = pre +:+ String "<" (next +:+ String ">" post) ->
      occurs "<" pre = false -> occurs ">" post = false ->
      nextPagePath resp = Ok next)
  /\ (forall resp, Header resp !! "Link" = None -> nextPagePath resp = Ok "")
  /\ (forall (st : State E) pages st' evs fuel,
         received E "/v2/_catalog" st pages st' evs ->
         (length pages <= fuel)%nat ->
         GetRepositories E fuel st = (Ok (concat pages), st', evs))
  /\ (forall fuel (st : State E) repositories st' evs,
         GetRepositories E fuel st = (Ok repositories, st', evs) ->
         exists pages,
           received E "/v2/_catalog" st pages st' evs
           /\ repositories = concat pages).
Proof.
  split; [apply nextPagePath_between|].
  split; [apply nextPagePath_absent|]. split.
  - intros st pages st' evs fuel Hrec Hfuel. unfold GetRepositories.
    by rewrite (catalogLoop_received _ _ _ _ _ Hrec fuel []).
  - intros fuel st repositories st' evs H.
    by apply catalogLoop_ok in H.
Qed.
End CatalogFacts.


(** ** Tags grouped by digest *)

Section GroupingFacts.
Variable E : Env.

(** What the loop of [GetTagsIndexedByDigest] does to the map for one
    tag and its digest. *)
Local Abbreviation place result tag digest :=
  (<[digest :=
       default [] (match result !! digest with
                   | Some _ => result
                   | None => <[digest := []]> result
                   end !! digest) ++ [tag]]>
     match result !! digest with
     | Some _ => result
     | None => <[digest := []]> result
     end).

Lemma place_eq (result : gmap string (list string)) tag digest :
  place result tag digest
  = <[digest := default [] (result !! digest) ++ [tag]]> result.
Proof.
  destruct (result !! digest) as [l|] eqn:H.
  - by rewrite H.
  - by rewrite lookup_insert_eq, insert_insert_eq.
Qed.

Lemma tagsOf_snoc digest tags digests tag d :
  length tags = length digests ->
  tagsOf digest (tags ++ [tag]) (digests ++ [d])
  = tagsOf digest tags digests ++ (if decide (d = digest) then [tag] else []).
Proof.
  intros Hlen. unfold tagsOf.
  rewrite zip_with_app by done. simpl.
  rewrite filter_app, fmap_app. f_equal.
  rewrite filter_cons. simpl. by destruct (decide (d = digest)).
Qed.

Lemma grouped_place result tags digests tag d :
  length tags = length digests ->
  grouped result tags digests ->
  grouped (place result tag d) (tags ++ [tag]) (digests ++ [d]).
Proof.
  intros Hlen H digest. rewrite place_eq, (tagsOf_snoc _ _ _ _ _ Hlen).
  destruct (decide (d = digest)) as [->|Hne].
  - rewrite lookup_insert_eq, H.
    destruct (decide (tagsOf digest tags digests = [])) as [->|Hnil]; simpl.
    + done.
    + destruct (decide (tagsOf digest tags digests ++ [tag] = [])) as [Heq|_];
        [|done].
      by apply app_eq_nil in Heq as [_ ?].
  - rewrite lookup_insert_ne by done. by rewrite app_nil_r.
Qed.

Lemma values_insert_fresh (m : gmap string (list string)) d l :
  m !! d = None ->
  concat (map_to_list (<[d := l]> m)).*2 ≡ₚ l ++ concat (map_to_list m).*2.
Proof. intros H. by rewrite map_to_list_insert. Qed.

Lemma values_place (result : gmap string (list string)) tag d :
  concat (map_to_list (place result tag d)).*2
  ≡ₚ concat (map_to_list result).*2 ++ [tag].
Proof.
  rewrite place_eq. destruct (result !! d) as [l|] eqn:H; simpl.
  - rewrite <- insert_delete_eq.
    rewrite values_insert_fresh by apply lookup_delete_eq.
    rewrite <- (map_to_list_delete result d l H). simpl.
    rewrite <- !(assoc (++)). f_equiv. apply Permutation_app_comm.
  - rewrite values_insert_fresh by done. apply Permutation_app_comm.
Qed.

Lemma indexTags_resolved repository (st : State E) tags digests st' evs :
  resolved E repository st tags digests st' evs ->
  forall result done_tags done_digests,
    length done_tags = length done_digests ->
    grouped result done_tags done_digests ->
    concat (map_to_list result).*2 ≡ₚ done_tags ->
    exists m,
      indexTags E repository tags result st = (Ok m, st', evs)
      /\ grouped m (done_tags ++ tags) (done_digests ++ digests)
      /\ concat (map_to_list m).*2 ≡ₚ done_tags ++ tags.
Proof.
  induction 1 as [st|st tag digest st1 ev1 tags digests st2 ev2 Hd _ IH];
    intros result done_tags done_digests Hlen Hg Hp.
  - exists result. by rewrite !app_nil_r.
  - simpl. unfold bind at 1. rewrite Hd.
    destruct (IH (place result tag digest) (done_tags ++ [tag])
                 (done_digests ++ [digest])) as (m & Hm & Hgm & Hpm).
    + rewrite !length_app. simpl. lia.
    + by apply grouped_place.
    + by rewrite values_place, Hp.
    + exists m. rewrite Hm. split; [done|].
      rewrite <- !List.app_assoc in Hgm. rewrite <- !List.app_assoc in Hpm.
      done.

Qed.

Lemma indexTags_ok repository tags result (st : State E) m st' evs :
  indexTags E repository tags result st = (Ok m, st', evs) ->
  exists digests, resolved E repository st tags digests st' evs.
Proof.
  revert result st evs. induction tags as [|tag tags IH]; simpl;
    intros result st evs.
  - intros [= <- <- <-]. exists []. constructor.
  - unfold bind at 1.
    destruct (GetDigest E repository tag st) as [[r1 st1] ev1] eqn:Hd.
    destruct r1 as [digest| | |]; try done.
    destruct (indexTags E repository tags _ st1) as [[r2 st2] ev2] eqn:Hrest.
    intros [= -> <- <-].
    apply IH in Hrest as [digests Hres].
    exists (digest :: digests). by econstructor.
Qed.

Lemma resolved_length repository (st : State E) tags digests st' evs :
  resolved E repository st tags digests st' evs -> length tags = length digests.
Proof. induction 1; simpl; congruence. Qed.

Lemma resolved_functional repository (st : State E) tags d1 d2 st1 st2 ev1 ev2 :
  resolved E repository st tags d1 st1 ev1 ->
  resolved E repository st tags d2 st2 ev2 ->
  d1 = d2 /\ st1 = st2 /\ ev1 = ev2.
Proof.
  intros H. revert d2 st2 ev2.
  induction H as [st|st tag digest sta eva tags digests stb evb Hd _ IH];
    intros d2 st2 ev2 H2; inversion H2; subst; [done|].
  match goal with
  | H : GetDigest _ _ _ _ = _ |- _ => rewrite Hd in H; injection H as <- <- <-
  end.
  match goal with
  | H : resolved _ _ _ _ _ _ _ |- _ => apply IH in H as (-> & -> & ->)
  end.
  done.
Qed.

(** C8: when the tags of a repository are listed and each is resolved to
    its digest in order, [GetTagsIndexedByDigest] returns a map in which
    every digest has exactly the tags that resolved to it (and a digest
    without tags has no entry), and the tag lists of all groups together
    are a permutation of the listed tags; a map it returns always comes
    from such a listing and resolution. *)
Theorem GetTagsIndexedByDigest_groups repository (st : State E) :
  (forall tags st1 ev1 digests st2 ev2,
      GetTags E repository st = (Ok tags, st1, ev1) ->
      resolved E repository st1 tags digests st2 ev2 ->
      exists m,
        GetTagsIndexedByDigest E repository st = (Ok m, st2, ev1 ++ ev2)
        /\ grouped m tags digests
        /\ concat (map_to_list m).*2 ≡ₚ tags)
  /\ (forall m st2 evs,
         GetTagsIndexedByDigest E repository st = (Ok m, st2, evs) ->
         exists tags st1 ev1 digests ev2,
           GetTags E repository st = (Ok tags, st1, ev1)
           /\ resolved E repository st1 tags digests st2 ev2
           /\ evs = ev1 ++ ev2).
Proof.
  split.
  - intros tags st1 ev1 digests st2 ev2 Htags Hres.
    destruct (indexTags_resolved _ _ _ _ _ _ Hres ∅ [] [])
      as (m & Hm & Hg & Hp); [done|by intros d|done|].
    exists m. unfold GetTagsIndexedByDigest, bind. rewrite Htags, Hm. done.
  - intros m st2 evs. unfold GetTagsIndexedByDigest, bind.
    destruct (GetTags E repository st) as [[r1 st1] ev1] eqn:Htags.
    destruct r1 as [tags| | |]; try done.
    destruct (indexTags E repository tags ∅ st1) as [[r2 st2'] ev2] eqn:Hidx.
    intros [= -> <- <-].
    apply indexTags_ok in Hidx as [digests Hres].
    by exists tags, st1, ev1, digests, ev2.
Qed.
End GroupingFacts.


(** ** Events of the client's operations *)

Section EventFacts.
Import Trace.
Variable E : Env.

Lemma emits_ret {A} P (a : A) : emits E P (ret E a).
Proof. intros st. constructor. Qed.

Lemma emits_fail {A} P e : emits E P (@fail E A e).
Proof. intros st. constructor. Qed.

Lemma emits_raise {A} P p : emits E P (@raise E A p).
Proof. intros st. constructor. Qed.

Lemma emits_outOfFuel {A} P : emits E P (@outOfFuel E A).
Proof. intros st. constructor. Qed.

Lemma emits_lift {A} P (r : outcome A) : emits E P (lift E r).
Proof. intros st. constructor. Qed.

Lemma emits_getAPI P : emits E P (getAPI E).
Proof. intros st. constructor. Qed.

Lemma emits_modifyAPI P f : emits E P (modifyAPI E f).
Proof. intros st. constructor. Qed.

Lemma emits_timeNow P : emits E P (timeNow E).
Proof. intros st. constructor. Qed.

Lemma emits_ofOption {A} P e (o : option A) : emits E P (ofOption E e o).
Proof. destruct o; [apply emits_ret|apply emits_fail]. Qed.

Lemma emits_bodyClose P resp : emits E P (bodyClose E resp).
Proof.
  unfold bodyClose. destruct (CloseErr _); [apply emits_fail|apply emits_ret].
Qed.

Lemma emits_decodeBody {A} P (into : json -> option A) resp :
  emits E P (decodeBody E into resp).
Proof.
  unfold decodeBody. destruct (jsonDecode E _); [apply emits_ofOption|apply emits_fail].
Qed.

Lemma emits_logPrint (P : Event -> Prop) entry :
  P (EvLog entry) -> emits E P (logPrint E entry).
Proof. intros H st. by repeat constructor. Qed.

Lemma emits_bind {A B} P (m : M E A) (k : A -> M E B) :
  emits E P m -> (forall a, emits E P (k a)) -> emits E P (bind E m k).
Proof.
  intros Hm Hk st. unfold bind. specialize (Hm st).
  destruct (m st) as [[[a| | |] st1] ev1]; simpl in *; try done.
  specialize (Hk a st1). destruct (k a st1) as [[r st2] ev2]; simpl in *.
  by apply Forall_app.
Qed.

Lemma emits_try {A} P (m : M E A) : emits E P m -> emits E P (try E m).
Proof.
  intros Hm st. unfold try. specialize (Hm st).
  by destruct (m st) as [[[a| | |] st1] ev1].
Qed.

Lemma emits_weaken {A} (P Q : Event -> Prop) (m : M E A) :
  (forall ev, P ev -> Q ev) -> emits E P m -> emits E Q m.
Proof. intros H Hm st. eapply Forall_impl; [apply Hm|done]. Qed.

(** A request of method [method], or a GET. *)
Local Abbreviation does method :=
  (fun ev => exists by_ req,
               ev = EvDo by_ req /\ (Method req = method \/ Method req = "GET")).

Lemma request_emits method path version :
  emits E (does method) (request E method path version).
Proof.
  intros st. rewrite request_unfold.
  pose proof (registryRequest_count E method path version st) as (_ & _ & H1).
  destruct (registryRequest E method path version st) as [[r1 st1] ev1].
  simpl in H1.
  assert (Forall (does method) ev1) as H1'.
  { eapply Forall_impl; [exact H1|]. intros ev (req & -> & Hm). eauto 6. }
  destruct r1 as [resp| | |]; try done.
  destruct (StatusCode resp <? 300); [done|].
  destruct (andb _ _); [|done].
  pose proof (fetchBearerToken_count E resp st1) as (_ & _ & H2).
  destruct (fetchBearerToken E resp st1) as [[r2 st2] ev2]. simpl in H2.
  assert (Forall (does method) ev2) as H2'.
  { eapply Forall_impl; [exact H2|]. intros ev (req & -> & Hm). eauto 6. }
  destruct r2 as [token| | |]; simpl; try (by apply Forall_app).
  pose proof (registryRequest_count E method path version (withToken token st2))
    as (_ & _ & H3).
  destruct (registryRequest E method path version (withToken token st2))
    as [[r3 st3] ev3]. simpl in *.
  rewrite !Forall_app. repeat split; try done.
  eapply Forall_impl; [exact H3|]. intros ev (req & -> & Hm). eauto 6.
Qed.

Lemma does_harmless method ev :
  method <> "DELETE" ->
  (exists by_ req,
      ev = EvDo by_ req /\ (Method req = method \/ Method req = "GET")) ->
  isHarmlessRequest ev = true.
Proof.
  intros Hne (by_ & req & -> & Hm). unfold isHarmlessRequest. simpl.
  apply negb_true_iff, String.eqb_neq. by destruct Hm as [-> | ->].
Qed.

Lemma does_request method ev :
  (exists by_ req,
      ev = EvDo by_ req /\ (Method req = method \/ Method req = "GET")) ->
  isRequest ev = true.
Proof. by intros (by_ & req & -> & _). Qed.

Lemma request_harmless method path version :
  method <> "DELETE" ->
  emits E (fun ev => isHarmlessRequest ev = true) (request E method path version).
Proof.
  intros H. eapply emits_weaken; [|apply request_emits].
  intros ev. by apply does_harmless.
Qed.

Lemma GetTags_harmless repository :
  emits E (fun ev => isHarmlessRequest ev = true) (GetTags E repository).
Proof.
  apply emits_bind; [by apply request_harmless|].
  intros resp. apply emits_decodeBody.
Qed.

Lemma GetDigest_harmless repository tag :
  emits E (fun ev => isHarmlessRequest ev = true) (GetDigest E repository tag).
Proof.
  apply emits_bind; [by apply request_harmless|]. intros resp. apply emits_ret.
Qed.

Lemma indexTags_harmless repository tags result :
  emits E (fun ev => isHarmlessRequest ev = true)
        (indexTags E repository tags result).
Proof.
  revert result. induction tags as [|tag tags IH]; intros result; simpl.
  - apply emits_ret.
  - apply emits_bind; [apply GetDigest_harmless|]. intros digest. apply IH.
Qed.

Lemma GetTagsIndexedByDigest_harmless repository :
  emits E (fun ev => isHarmlessRequest ev = true)
        (GetTagsIndexedByDigest E repository).
Proof.
  apply emits_bind; [apply GetTags_harmless|].
  intros tags. apply indexTags_harmless.
Qed.

Lemma GetManifestCreated_harmless repository tag :
  emits E (fun ev => isHarmlessRequest ev = true)
        (GetManifestCreated E repository tag).
Proof.
  apply emits_bind; [|intros; apply emits_ret].
  apply emits_bind; [by apply request_harmless|]. intros resp.
  apply emits_bind; [apply emits_decodeBody|]. intros [|first history].
  - apply emits_raise.
  - apply emits_bind; [|intros; apply emits_ret].
    destruct (jsonUnmarshal E first); [apply emits_ofOption|apply emits_fail].
Qed.

Lemma catalogLoop_harmless fuel path repositories :
  emits E (fun ev => isHarmlessRequest ev = true)
        (catalogLoop E fuel path repositories).
Proof.
  revert path repositories. induction fuel as [|fuel IH];
    intros path repositories; simpl.
  - destruct (String.eqb path ""); [apply emits_ret|apply emits_outOfFuel].
  - destruct (String.eqb path ""); [apply emits_ret|].
    apply emits_bind; [by apply request_harmless|]. intros resp.
    apply emits_bind; [apply emits_decodeBody|]. intros catalog.
    apply emits_bind; [apply emits_lift|]. intros next.
    apply emits_bind; [apply emits_bodyClose|]. intros _. apply IH.
Qed.

Lemma DeleteManifest_requests repository digest :
  emits E (fun ev => isRequest ev = true) (DeleteManifest E repository digest).
Proof.
  apply emits_bind; [|intros; apply emits_ret].
  eapply emits_weaken; [|apply request_emits]. intros ev. apply does_request.
Qed.
End EventFacts.


(** ** The pruning loop *)

Section PruningFacts.
Import Trace.
Variable E : Env.
Variable rangeMap : gmap string (list string) -> list (string * list string).

(** What [pruneGroup] does with a group that passed the filters. *)
Local Abbreviation act cfg repository digest tags st :=
  (if Dry cfg
   then (Ok tt, st, [EvLog (LWouldDelete repository digest tags)])
   else
     match DeleteManifest E repository digest st with
     | (Ok _, st2, ev2) =>
         (Ok tt, st2, EvLog (LDeleting repository digest tags) :: ev2)
     | (Err e, st2, ev2) =>
         (Ok tt, st2,
          EvLog (LDeleting repository digest tags) :: ev2 ++ [EvLog (LError e)])
     | (Panic p, st2, ev2) =>
         (Panic p, st2, EvLog (LDeleting repository digest tags) :: ev2)
     | (OutOfFuel, st2, ev2) =>
         (OutOfFuel, st2, EvLog (LDeleting repository digest tags) :: ev2)
     end).

(** [pruneGroup], case by case. *)
Lemma pruneGroup_unfold cfg repository digest tags (st : State E) :
  pruneGroup E cfg repository digest tags st =
  if negb (allMatch tags (Tags cfg)) then (Ok tt, st, [])
  else if 0 <? MinAge cfg then
    match tags with
    | [] => (Panic PanicIndexOutOfRange, st, [])
    | tag0 :: _ =>
        match GetManifestCreated E repository tag0 st with
        | (Ok created, st1, ev1) =>
            if Now E (world st1) + -1 * MinAge cfg <? created
            then (Ok tt, st1, ev1)
            else let '(r, st2, ev2) := act cfg repository digest tags st1 in
                 (r, st2, ev1 ++ ev2)
        | (Err e, st1, ev1) => (Ok tt, st1, ev1 ++ [EvLog (LError e)])
        | (Panic p, st1, ev1) => (Panic p, st1, ev1)
        | (OutOfFuel, st1, ev1) => (OutOfFuel, st1, ev1)
        end
    end
  else act cfg repository digest tags st.
Proof.
  assert (forall st0 : State E,
    (if Dry cfg
     then logPrint E (LWouldDelete repository digest tags)
     else bind E (logPrint E (LDeleting repository digest tags))
            (fun _ => bind E (try E (DeleteManifest E repository digest))
                        (fun r => match r with
                                  | inr err => logPrint E (LError err)
                                  | inl _ => ret E tt
                                  end))) st0
    = act cfg repository digest tags st0) as Hact.
  { intros st0. destruct (Dry cfg); [done|].
    unfold bind, logPrint, try, ret.
    destruct (DeleteManifest E repository digest st0) as [[[[]| e | p |] st2] ev2];
      simpl; by rewrite ?app_nil_r. }
  unfold pruneGroup. destruct (negb (allMatch tags (Tags cfg))); [done|].
  destruct (0 <? MinAge cfg).
  - destruct tags as [|tag0 tags']; [done|].
    unfold bind at 1. unfold bind at 1. unfold try at 1.
    destruct (GetManifestCreated E repository tag0 st)
      as [[[created| e | p |] st1] ev1]; try done.
    + unfold bind at 1, timeNow at 1.
      destruct (Now E (world st1) + -1 * MinAge cfg <? created); simpl.
      * by rewrite !app_nil_r.
      * by rewrite Hact, app_nil_r.
    + unfold bind, logPrint, ret. simpl. by rewrite !app_nil_r.
  - unfold bind at 1, ret at 1. simpl. rewrite Hact.
    by destruct (act cfg repository digest tags st) as [[r st2] ev2].
Qed.

Lemma decides_request r d t ev : isRequest ev = true -> ~ decides r d t ev.
Proof. destruct ev; [|done]. by intros _ [|]. Qed.

Lemma decided_requests r d t evs :
  Forall (fun ev => isRequest ev = true) evs -> ~ decided r d t evs.
Proof.
  unfold decided. rewrite Exists_exists, Forall_forall.
  intros H (ev & Hin & Hd). by apply (decides_request r d t ev); auto.
Qed.

Lemma decided_harmless r d t evs :
  Forall (fun ev => isHarmlessRequest ev = true) evs -> ~ decided r d t evs.
Proof.
  intros H. apply decided_requests. eapply Forall_impl; [exact H|].
  intros ev Hev. by apply andb_true_iff in Hev as [? _].
Qed.

Lemma decides_would r d t repository digest tags :
  decides r d t (EvLog (LWouldDelete repository digest tags))
  <-> r = repository /\ d = digest /\ t = tags.
Proof.
  split.
  - by intros [[= -> -> ->]|[=]].
  - intros (-> & -> & ->). by left.
Qed.

Lemma decides_deleting r d t repository digest tags :
  decides r d t (EvLog (LDeleting repository digest tags))
  <-> r = repository /\ d = digest /\ t = tags.
Proof.
  split.
  - by intros [[=]|[= -> -> ->]].
  - intros (-> & -> & ->). by right.
Qed.

Lemma decides_error r d t e : ~ decides r d t (EvLog (LError e)).
Proof. by intros [|]. Qed.

Lemma act_decided cfg repository digest tags (st : State E) r d t :
  decided r d t (act cfg repository digest tags st).2
  <-> r = repository /\ d = digest /\ t = tags.
Proof.
  unfold decided. destruct (Dry cfg); simpl.
  - rewrite Exists_cons, Exists_nil, decides_would. tauto.
  - pose proof (DeleteManifest_requests E repository digest st) as Hreq.
    destruct (DeleteManifest E repository digest st) as [[[[]| e | p |] st2] ev2];
      simpl in *; rewrite Exists_cons, ?Exists_app, ?Exists_cons, ?Exists_nil,
                    decides_deleting;
      pose proof (decided_requests r d t _ Hreq) as Hno; unfold decided in Hno;
      try (pose proof (decides_error r d t e)); tauto.
Qed.

(** A group is decided upon exactly when it is eligible, and the
    decision names the group. *)
Lemma pruneGroup_decided cfg repository digest tags (st : State E) r d t :
  decided r d t (pruneGroup E cfg repository digest tags st).2
  <-> r = repository /\ d = digest /\ t = tags
      /\ eligible E cfg repository tags st.
Proof.
  rewrite pruneGroup_unfold. unfold eligible.
  destruct (allMatch tags (Tags cfg)) eqn:Hall; simpl.
  2:{ unfold decided. rewrite Exists_nil. split; [done|]. by intros (_ & _ & _ & [=] & _). }
  destruct (0 <? MinAge cfg) eqn:Hage.
  - destruct tags as [|tag0 tags'].
    { unfold decided. simpl. rewrite Exists_nil. split; [done|].
      intros (_ & _ & _ & _ & H).
      destruct H as (? & ? & ? & ? & ? & [=] & _); lia. }
    pose proof (GetManifestCreated_harmless E repository tag0 st) as Hreq.
    destruct (GetManifestCreated E repository tag0 st)
      as [[[created| e | p |] st1] ev1] eqn:Hc; simpl in Hreq.
    + destruct (Now E (world st1) + -1 * MinAge cfg <? created) eqn:Hnew; simpl.
      * split; [by intros H%decided_harmless|].
        intros (_ & _ & _ & _ & H).
        destruct H as (? & ? & ? & ? & ? & [= <- <-] & Hc' & Hle); [lia|].
        rewrite Hc in Hc'. injection Hc' as <- <- <-. lia.
      * pose proof (act_decided cfg repository digest (tag0 :: tags') st1 r d t) as Hact.
        destruct (act cfg repository digest (tag0 :: tags') st1) as [[r2 st2] ev2].
        simpl in *. unfold decided in *. rewrite Exists_app, Hact.
        pose proof (decided_harmless r d t _ Hreq) as Hno. unfold decided in Hno.
        split.
        -- intros [?|(-> & -> & ->)]; [done|]. repeat split; try done.
           intros _. exists tag0, tags', created, st1, ev1.
           repeat split; try done. lia.
        -- intros (-> & -> & -> & _). by right.
    + simpl. unfold decided. rewrite Exists_app, Exists_cons, Exists_nil.
      pose proof (decided_harmless r d t _ Hreq) as Hno. unfold decided in Hno.
      pose proof (decides_error r d t e) as Herr.
      split; [tauto|]. intros (_ & _ & _ & _ & H).
      destruct H as (? & ? & ? & ? & ? & [= <- <-] & Hc' & _); [lia|].
      by rewrite Hc in Hc'.
    + simpl. split; [by intros H%decided_harmless|].
      intros (_ & _ & _ & _ & H).
      destruct H as (? & ? & ? & ? & ? & [= <- <-] & Hc' & _); [lia|].
      by rewrite Hc in Hc'.
    + simpl. split; [by intros H%decided_harmless|].
      intros (_ & _ & _ & _ & H).
      destruct H as (? & ? & ? & ? & ? & [= <- <-] & Hc' & _); [lia|].
      by rewrite Hc in Hc'.
  - rewrite act_decided. split.
    + intros (-> & -> & ->). repeat split; try done. lia.
    + tauto.
Qed.

Lemma pruneGroups_cons cfg repository digest tags groups (st : State E) :
  pruneGroups E cfg repository ((digest, tags) :: groups) st =
  match pruneGroup E cfg repository digest tags st with
  | (Ok _, st1, ev1) =>
      let '(r, st2, ev2) := pruneGroups E cfg repository groups st1 in
      (r, st2, ev1 ++ ev2)
  | (Err e, st1, ev1) => (Err e, st1, ev1)
  | (Panic p, st1, ev1) => (Panic p, st1, ev1)
  | (OutOfFuel, st1, ev1) => (OutOfFuel, st1, ev1)
  end.
Proof. reflexivity. Qed.

(** In the loop over the groups of a repository a group is decided upon
    exactly when the loop reaches it in a state in which it is
    eligible. *)
Lemma pruneGroups_decided cfg repository groups (st : State E) r d t :
  decided r d t (pruneGroups E cfg repository groups st).2
  <-> r = repository
      /\ exists before after st2 ev2,
           groups = before ++ (d, t) :: after
           /\ pruneGroups E cfg repository before st = (Ok tt, st2, ev2)
           /\ eligible E cfg repository t st2.
Proof.
  revert st. induction groups as [|[d0 t0] groups IH]; intros st.
  - simpl. unfold decided. rewrite Exists_nil. split; [done|].
    intros (_ & before & after & ? & ? & Heq & _). by destruct before.
  - rewrite pruneGroups_cons.
    pose proof (pruneGroup_decided cfg repository d0 t0 st r d t) as Hone.
    destruct (pruneGroup E cfg repository d0 t0 st) as [[r1 st1] ev1] eqn:H1.
    simpl in Hone.
    assert (decided r d t ev1 ->
            r = repository
            /\ exists before after st2 ev2,
                 (d0, t0) :: groups = before ++ (d, t) :: after
                 /\ pruneGroups E cfg repository before st = (Ok tt, st2, ev2)
                 /\ eligible E cfg repository t st2) as Hhead.
    { intros (-> & -> & -> & Hel)%Hone. split; [done|].
      by exists [], groups, st, []. }
    assert (forall after st2 ev2,
               (d0, t0) :: groups = [] ++ (d, t) :: after ->
               pruneGroups E cfg repository [] st = (Ok tt, st2, ev2) ->
               r = repository ->
               eligible E cfg repository t st2 ->
               decided r d t ev1) as Hhead'.
    { intros after st2 ev2 [= <- <- <-] [= <- <-] -> Hel. by apply Hone. }
    destruct r1 as [[]| e | p |]; simpl.
    + specialize (IH st1).
      destruct (pruneGroups E cfg repository groups st1) as [[r2 st2] ev2] eqn:H2.
      simpl in *. unfold decided in *. rewrite Exists_app. split.
      * intros [Hd|Hd]; [by apply Hhead|].
        apply IH in Hd as (-> & before & after & st3 & ev3 & -> & Hb & Hel).
        split; [done|].
        exists ((d0, t0) :: before), after, st3, (ev1 ++ ev3).
        split; [done|]. split; [|done].
        by rewrite pruneGroups_cons, H1, Hb.
      * intros (-> & before & after & st3 & ev3 & Heq & Hb & Hel).
        destruct before as [|[d1 t1] before].
        -- left. by eapply Hhead'.
        -- right. injection Heq as <- <- ->.
           rewrite pruneGroups_cons, H1 in Hb.
           destruct (pruneGroups E cfg repository before st1)
             as [[r3 st4] ev4] eqn:H3.
           injection Hb as -> -> <-.
           apply IH. split; [done|]. by exists before, after, st3, ev4.
    + split; [done|].
      intros (-> & before & after & st3 & ev3 & Heq & Hb & Hel).
      destruct before as [|[d1 t1] before]; [by eapply Hhead'|].
      injection Heq as <- <- ->. by rewrite pruneGroups_cons, H1 in Hb.
    + split; [done|].
      intros (-> & before & after & st3 & ev3 & Heq & Hb & Hel).
      destruct before as [|[d1 t1] before]; [by eapply Hhead'|].
      injection Heq as <- <- ->. by rewrite pruneGroups_cons, H1 in Hb.
    + split; [done|].
      intros (-> & before & after & st3 & ev3 & Heq & Hb & Hel).
      destruct before as [|[d1 t1] before]; [by eapply Hhead'|].
      injection Heq as <- <- ->. by rewrite pruneGroups_cons, H1 in Hb.
Qed.

(** In the pass over one repository a group is decided upon exactly when
    it is due. *)
Lemma pruneRepository_decided cfg repository (st : State E) digest tags :
  decided repository digest tags
          (pruneRepository E rangeMap cfg repository st).2
  <-> due E rangeMap cfg repository digest tags st.
Proof.
  unfold due, pruneRepository.
  destruct (Repos cfg repository); simpl.
  2:{ unfold decided. rewrite Exists_nil. split; [done|]. by intros [[=] _]. }
  unfold bind at 1, logPrint at 1. unfold bind at 1, try at 1.
  pose proof (GetTagsIndexedByDigest_harmless E repository st) as Hreq.
  destruct (GetTagsIndexedByDigest E repository st) as [[r1 st1] ev1] eqn:H1.
  simpl in Hreq.
  pose proof (decided_harmless repository digest tags _ Hreq) as Hno.
  unfold decided in *.
  destruct r1 as [m| e | p |]; simpl.
  - pose proof (pruneGroups_decided cfg repository (rangeMap m) st1
                  repository digest tags) as Hg.
    destruct (pruneGroups E cfg repository (rangeMap m) st1)
      as [[r2 st2] ev2] eqn:H2.
    simpl in Hg. unfold decided in Hg. simpl.
    rewrite Exists_cons, Exists_app, Hg. split.
    + intros [[[=]|[=]]|[?|(_ & before & after & st3 & ev3 & Heq & Hb & Hel)]];
        [done|].
      split; [done|]. by exists m, st1, ev1, before, after, st3, ev3.
    + intros (_ & m' & st1' & ev1' & before & after & st3 & ev3
              & [= <- <- <-] & Heq & Hb & Hel).
      right. right. split; [done|]. by exists before, after, st3, ev3.
  - rewrite Exists_cons, Exists_app, Exists_cons, Exists_nil. split.
    + intros [[[=]|[=]]|[?|[[[=]|[=]]|[]]]]. done.
    + by intros (_ & ? & ? & ? & ? & ? & ? & ? & [=] & _).
  - rewrite Exists_cons. split.
    + intros [[[=]|[=]]|?]. done.
    + by intros (_ & ? & ? & ? & ? & ? & ? & ? & [=] & _).
  - rewrite Exists_cons. split.
    + intros [[[=]|[=]]|?]. done.
    + by intros (_ & ? & ? & ? & ? & ? & ? & ? & [=] & _).
Qed.
End PruningFacts.


(** ** Dry runs *)

Section DryRunFacts.
Import Trace.
Variable E : Env.
Variable rangeMap : gmap string (list string) -> list (string * list string).

Local Abbreviation notDelete :=
  (fun ev : Event => isDelete ev = false /\ isDeleting ev = false).

Lemma harmless_notDelete {A} (m : M E A) :
  emits E (fun ev => isHarmlessRequest ev = true) m -> emits E notDelete m.
Proof.
  apply emits_weaken. intros ev H.
  apply andb_true_iff in H as [Hreq H]. apply negb_true_iff in H.
  by destruct ev.
Qed.

Lemma pruneGroup_dry cfg repository digest tags :
  Dry cfg = true ->
  emits E notDelete (pruneGroup E cfg repository digest tags).
Proof.
  intros Hdry. unfold pruneGroup. rewrite Hdry.
  destruct (negb (allMatch tags (Tags cfg))); [apply emits_ret|].
  apply emits_bind.
  - destruct (0 <? MinAge cfg); [|apply emits_ret].
    destruct tags as [|tag0 tags']; [apply emits_raise|].
    apply emits_bind.
    + apply emits_try, harmless_notDelete, GetManifestCreated_harmless.
    + intros [created|err].
      * apply emits_bind; [apply emits_timeNow|]. intros now.
        destruct (_ <? created); apply emits_ret.
      * apply emits_bind; [by apply emits_logPrint|]. intros _. apply emits_ret.
  - intros oldEnough. destruct (negb oldEnough); [apply emits_ret|].
    by apply emits_logPrint.
Qed.

Lemma pruneGroups_dry cfg repository groups :
  Dry cfg = true ->
  emits E notDelete (pruneGroups E cfg repository groups).
Proof.
  intros Hdry. induction groups as [|[digest tags] groups IH]; simpl.
  - apply emits_ret.
  - apply emits_bind; [by apply pruneGroup_dry|]. intros _. apply IH.
Qed.

Lemma pruneRepository_dry cfg repository :
  Dry cfg = true ->
  emits E notDelete (pruneRepository E rangeMap cfg repository).
Proof.
  intros Hdry. unfold pruneRepository.
  destruct (negb (Repos cfg repository)); [apply emits_ret|].
  apply emits_bind; [by apply emits_logPrint|]. intros _.
  apply emits_bind.
  - apply emits_try, harmless_notDelete, GetTagsIndexedByDigest_harmless.
  - intros [m|err]; [by apply pruneGroups_dry|by apply emits_logPrint].
Qed.

Lemma pruneRepositories_dry cfg repositories :
  Dry cfg = true ->
  emits E notDelete (pruneRepositories E rangeMap cfg repositories).
Proof.
  intros Hdry. induction repositories as [|repository repositories IH]; simpl.
  - apply emits_ret.
  - apply emits_bind; [by apply pruneRepository_dry|]. intros _. apply IH.
Qed.

(** C2: in a dry run no request with the method DELETE is handed to the
    HTTP client and the line that precedes the call of [DeleteManifest]
    is never written, whatever the registry answers and however long the
    catalog is; and a group that is eligible is reported by the
    would-delete line, after the requests that fetched its creation
    time, and by nothing else. *)
Theorem dry_run_never_deletes cfg :
  Dry cfg = true ->
  (forall fuel w,
      Forall (fun ev => isDelete ev = false /\ isDeleting ev = false)
             (main E rangeMap cfg fuel w).2)
  /\ (forall repository digest tags (st : State E),
         eligible E cfg repository tags st ->
         exists evs,
           (pruneGroup E cfg repository digest tags st).2
           = evs ++ [EvLog (LWouldDelete repository digest tags)]
           /\ Forall (fun ev => isHarmlessRequest ev = true) evs).
Proof.
  intros Hdry. split.
  - intros fuel w. unfold main. generalize (mkState (NewAPI (Host cfg)) w).
    change (emits E notDelete (mainBody E rangeMap cfg fuel)).
    unfold mainBody.
    apply emits_bind; [by apply emits_logPrint|]. intros _.
    apply emits_bind; [by apply emits_logPrint|]. intros _.
    apply emits_bind; [apply emits_modifyAPI|]. intros _.
    apply emits_bind.
    { destruct (negb _); [apply emits_modifyAPI|apply emits_ret]. }
    intros _. apply emits_bind.
    { apply emits_try, harmless_notDelete, catalogLoop_harmless. }
    intros [repositories|err].
    + apply emits_bind; [by apply pruneRepositories_dry|]. intros _.
      by apply emits_logPrint.
    + apply emits_bind; [by apply emits_logPrint|]. intros _. apply emits_fail.
  - intros repository digest tags st [Hall Hage].
    rewrite pruneGroup_unfold, Hall, Hdry. simpl.
    destruct (0 <? MinAge cfg) eqn:Hmin.
    + destruct Hage as (tag0 & tags' & created & st1 & ev1 & -> & Hc & Hle);
        [lia|].
      pose proof (GetManifestCreated_harmless E repository tag0 st) as Hreq.
      rewrite Hc in *. simpl in Hreq.
      assert ((Now E (world st1) + -1 * MinAge cfg <? created) = false)
        as -> by lia.
      by exists ev1.
    + by exists [].
Qed.
End DryRunFacts.


(** ** The properties on the sample registries *)

Import GoString Challenge Trace Sample.

(** C5: a registry that answers 401 with the challenge NTLM, which is
    shorter than the seven bytes of the bearer prefix, makes
    [tokenRequestURLFromResponse] panic on its slice expression instead
    of returning the error for an unsupported scheme, and with it the
    request that was denied. *)
Theorem tokenRequestURL_short_challenge_panics :
  (forall E, tokenRequestURLFromResponse E (denied "NTLM") = Panic PanicSliceBounds)
  /\ (request ntlmEnv "GET" "/v2/_catalog" manifestV2 (start ntlmEnv tt)).1.1
     = Panic PanicSliceBounds.
Proof. split; [intros E|]; reflexivity. Qed.

Lemma dry_run_never_deletes_witness :
  Forall (fun ev => isDelete ev = false /\ isDeleting ev = false)
         (main guardedEnv inOrder (config 30 true) 2 tt).2.
Proof.
  apply (proj1 (dry_run_never_deletes guardedEnv inOrder (config 30 true) eq_refl)).
Defined.

Lemma request_reissues_once_witness :
  let run := request guardedEnv "HEAD" "/v2/app/manifests/v1" manifestV2
               (start guardedEnv tt) in
  exists req1 treq req2,
    run.2 = [EvDo FromRegistryRequest req1; EvDo FromFetchBearerToken treq;
             EvDo FromRegistryRequest req2]
    /\ Method req2 = "HEAD"
    /\ URL req2 = "http://r/v2/app/manifests/v1"
    /\ Authorization req2 = Some (Bearer "tok")
    /\ bearerToken (api run.1.2) = "tok".
Proof.
  intros run.
  pose proof (request_reissues_once guardedEnv "HEAD" "/v2/app/manifests/v1"
                manifestV2 (start guardedEnv tt)) as H.
  fold run in H. destruct run as [[r st'] evs].
  destruct H as (_ & _ & _ & _ & H).
  destruct (H (denied challenge) (start guardedEnv tt)
              [EvDo FromRegistryRequest
                 {| Method := "HEAD"; URL := "http://r/v2/app/manifests/v1";
                    QueryN := None;
                    Accept := Some "application/vnd.docker.distribution.manifest.v2+json";
                    Authorization := None |}]
              "tok" (start guardedEnv tt)
              [EvDo FromFetchBearerToken
                 {| Method := "GET"; URL := tokenURL; QueryN := None;
                    Accept := None; Authorization := None |}]
              eq_refl eq_refl)
    as (req1 & treq & req2 & _ & _ & Hevs & Hm & Hu & _ & _ & Ha & _ & Hst).
  - discriminate.
  - reflexivity.
  - exists req1, treq, req2. rewrite Hst. by repeat split.
Defined.

(** A token service that answers with an object without a token makes
    [fetchBearerToken] return the empty token without an error (see C4);
    the request is then issued again without bearer authorization, the
    registry denies it again, and that is the result of the call. *)
Lemma request_reissues_without_bearer :
  let st := start tokenlessEnv tt in
  let run := request tokenlessEnv "HEAD" "/v2/app/manifests/v1" manifestV2 st in
  exists req1 treq req2,
    registryRequest tokenlessEnv "HEAD" "/v2/app/manifests/v1" manifestV2 st
    = (Ok (denied challenge), st, [EvDo FromRegistryRequest req1])
    /\ fetchBearerToken tokenlessEnv (denied challenge) st
       = (Ok "", st, [EvDo FromFetchBearerToken treq])
    /\ run.2 = [EvDo FromRegistryRequest req1; EvDo FromFetchBearerToken treq;
                EvDo FromRegistryRequest req2]
    /\ Authorization req2 = None
    /\ Authorization req2 <> Some (Bearer "")
    /\ req2 = req1
    /\ run.1.1 = Err (ErrStatus 401 "HEAD" "/v2/app/manifests/v1").
Proof.
  intros st run. eexists _, _, _.
  split; [reflexivity|]. split; [reflexivity|]. split; [reflexivity|].
  by repeat split.
Defined.

Lemma fetchBearerToken_exchange_witness :
  (fetchBearerToken guardedEnv (denied challenge) (start guardedEnv tt)).1.1
  = Ok "tok".
Proof.
  destruct (fetchBearerToken_exchange guardedEnv (denied challenge) tokenURL
              (start guardedEnv tt) tokenOk tt eq_refl eq_refl eq_refl)
    as (_ & _ & H).
  destruct H as [_ H]; [reflexivity|].
  destruct (H [("token", JString "tok")] eq_refl) as [_ H'].
  apply (H' [] "token" "tok" []); [reflexivity|constructor|reflexivity|constructor].
Defined.

(** The token service answers 200 with the object without members: the
    exchange returns the empty token and no error. *)
Lemma fetchBearerToken_without_token_no_error :
  let resp := tokenMissing in
  StatusCode resp < 300
  /\ jsonDecode tokenlessEnv (Data (Body resp)) = Some (JObject [])
  /\ (Do tokenlessEnv
        {| Method := "GET"; URL := tokenURL; QueryN := None; Accept := None;
           Authorization := None |} tt).1 = inl resp
  /\ (fetchBearerToken tokenlessEnv (denied challenge) (start tokenlessEnv tt)).1.1
     = Ok "".
Proof. repeat split. Defined.

(** A header of two pairs; and an input in which a second pair begins
    inside the value of the first, so that reading from left to right
    meets the first pair only. *)
Lemma extractKeyValuePairs_pairs_witness :
  extractKeyValuePairs (header ("foo", "bar") [(" ", ("foz", "baz"))])
  = list_to_map (reverse (pairs ("foo", "bar") [(" ", ("foz", "baz"))]))
  /\ extractKeyValuePairs (pair ("a", "b=c=") +:+ "d" +:+ String dquote "")
     = list_to_map (reverse [("a", "b=c=")]).
Proof.
  split.
  - apply (proj1 extractKeyValuePairs_pairs). reflexivity.
  - apply (proj2 (proj2 (proj2 (proj2 extractKeyValuePairs_pairs)))).
    apply (scanned_pair _ "" ("a", "b=c=") ("d" +:+ String dquote "") []).
    + split; [reflexivity|]. split; [reflexivity|]. intros. simpl. lia.
    + apply scanned_end. apply FindAllSubmatch_nil_iff. reflexivity.
Defined.

(** The challenge as the registry sends it, with the scheme in front, is
    not a list of pairs, and yet its pairs are extracted. *)
Lemma extractKeyValuePairs_malformed_not_empty :
  (forall first rest, wellFormed first rest = true -> header first rest <> challenge)
  /\ challenge <> ""
  /\ extractKeyValuePairs challenge <> ∅.
Proof.
  split; [|split].
  - intros first rest Hwf Heq.
    destruct (spanWord_header first rest Hwf) as [tail Hspan].
    rewrite Heq in Hspan. vm_compute in Hspan. discriminate Hspan.
  - discriminate.
  - intros H. apply (f_equal (fun m => m !! "realm")) in H.
    vm_compute in H. discriminate H.
Defined.

Lemma GetRepositories_concatenates_pages_witness :
  let res := GetRepositories openEnv 2 (start openEnv tt) in
  exists pages,
    received openEnv "/v2/_catalog" (start openEnv tt) pages res.1.2 res.2
    /\ ["app"; "web"] = concat pages.
Proof.
  intros res.
  apply (proj2 (proj2 (proj2 (GetRepositories_concatenates_pages openEnv))) 2%nat).
  vm_compute. reflexivity.
Defined.

Lemma GetTagsIndexedByDigest_groups_witness :
  let res := GetTagsIndexedByDigest openEnv "app" (start openEnv tt) in
  exists tags st1 ev1 digests ev2,
    GetTags openEnv "app" (start openEnv tt) = (Ok tags, st1, ev1)
    /\ resolved openEnv "app" st1 tags digests res.1.2 ev2
    /\ res.2 = ev1 ++ ev2.
Proof.
  intros res.
  apply (proj2 (GetTagsIndexedByDigest_groups openEnv "app" (start openEnv tt))
           (<["sha256:aaa" := ["v1"; "v2"]]> (<["sha256:bbb" := ["latest"]]> ∅))).
  vm_compute. reflexivity.
Defined.

Lemma GetManifestDigestAndCreated_empty_history_witness :
  let res := request openEnv "GET" "/v2/app/manifests/empty" manifestV1
               (start openEnv tt) in
  GetManifestDigestAndCreated openEnv "app" "empty" (start openEnv tt)
  = (Panic PanicIndexOutOfRange, res.1.2, res.2).
Proof.
  intros res.
  apply (proj1 (GetManifestDigestAndCreated_empty_history openEnv "app" "empty"
                  (start openEnv tt))
           {| StatusCode := 200; Header := hdr "Docker-Content-Digest" "sha256:ccc";
              Body := body emptyHistoryText |}
           res.1.2 res.2 (JObject [("history", JArray [])])).
  - vm_compute. reflexivity.
  - reflexivity.
  - reflexivity.
Defined.

Lemma nextPagePath_malformed_link_panics_witness :
  nextPagePath {| StatusCode := 200; Header := hdr "Link" "</v2/_catalog?last=app";
                  Body := body catalog1Text |}
  = Panic PanicSliceBounds.
Proof.
  apply (proj1 (nextPagePath_malformed_link_panics openEnv)).
  - vm_compute. discriminate.
  - reflexivity.
Defined.

(** The run of the specification's example: [app] has the tags [v1] and
    [v2] on a manifest that is 40 old and [latest] on one that is 1 old;
    with the tag filter for [v...] and a minimum age of 30 the first
    manifest is deleted and the second is kept; [web] fails and is
    skipped. *)
Example main_prunes_sample :
  let run := main openEnv inOrder (config 30 false) 2 tt in
  run.1.1 = Ok tt
  /\ logLines run.2
     = [LConfiguration; LStarting; LInspecting "app";
        LDeleting "app" "sha256:aaa" ["v1"; "v2"];
        LInspecting "web"; LError (ErrStatus 404 "GET" "/v2/web/tags/list");
        LDone]
  /\ count isDelete run.2 = 1%nat.
Proof. vm_compute. repeat split. Qed.

(** * Further properties of the client and of the pruning loop *)

(** ** [allMatch] *)

(** X1: [allMatch] answers true exactly when the expression matches every
    string of the slice; in particular it answers true for the empty
    slice. *)
Theorem allMatch_every (slice : list string) (expr : string -> bool) :
  allMatch slice expr = true <-> (forall s, In s slice -> expr s = true).
Proof.
  induction slice as [|s slice IH]; simpl.
  - split; [by intros _ s []|done].
  - destruct (expr s) eqn:Hs; simpl.
    + rewrite IH. split.
      * intros H s' [<-|Hin]; auto.
      * intros H s' Hin. apply H. by right.
    + split; [done|]. intros H. rewrite <- Hs. apply H. by left.
Qed.

(** ** [extractKeyValuePairs] on the inputs of its test *)

(** The four cases of [TestExtractKeyValuePairs]: the empty header,
    one pair, two pairs, and two pairs with a space after the comma. *)
Theorem extractKeyValuePairs_test_cases :
  extractKeyValuePairs "" = ∅
  /\ extractKeyValuePairs ("foo=" +:+ quoted "bar") = {[ "foo" := "bar" ]}
  /\ extractKeyValuePairs ("foo=" +:+ quoted "bar" +:+ ",foz=" +:+ quoted "baz")
     = <["foo" := "bar"]> {[ "foz" := "baz" ]}
  /\ extractKeyValuePairs ("foo=" +:+ quoted "bar" +:+ ", foz=" +:+ quoted "baz")
     = <["foo" := "bar"]> {[ "foz" := "baz" ]}.
Proof. repeat split; vm_compute; reflexivity. Qed.

(** ** The challenge as a registry sends it *)

Lemma matchAt_word_space w h :
  allBytes Regexp.isWord w = true -> Regexp.matchAt (w +:+ String " " h) = None.
Proof.
  intros Hw. unfold Regexp.matchAt.
  rewrite (spanWord_run w (String " " h) Hw) by reflexivity.
  destruct w; [done|]. by destruct h.
Qed.

(** A word and a space in front of the input add no match. *)
Lemma FindAllSubmatch_word_space w h :
  allBytes Regexp.isWord w = true ->
  Regexp.FindAllSubmatch (w +:+ String " " h) = Regexp.FindAllSubmatch h.
Proof.
  induction w as [|c w IH]; intros Hw.
  - simpl. by rewrite FindAllSubmatch_nonword.
  - rewrite FindAllSubmatch_eq, (matchAt_word_space _ _ Hw). simpl in *.
    apply andb_true_iff in Hw as [_ Hw]. by apply IH.
Qed.

(** X2: a bearer challenge, that is the scheme [Bearer], a space and a
    well-formed list of pairs among which are [realm], [service] and
    [scope], yields the realm followed by the escaped scope and service as
    query parameters, scope first. *)
Theorem tokenRequestURL_bearer_challenge (E : Env) deniedResponse first rest
    realm service scope :
  Header_Get (Header deniedResponse) wwwAuthenticateHeader
  = "Bearer " +:+ header first rest ->
  wellFormed first rest = true ->
  let instructions : gmap string string :=
    list_to_map (reverse (pairs first rest)) in
  instructions !! "realm" = Some realm ->
  instructions !! "service" = Some service ->
  instructions !! "scope" = Some scope ->
  tokenRequestURLFromResponse E deniedResponse
  = Ok (realm +:+ "?" +:+ "scope=" +:+ queryEscape E scope +:+ "&"
              +:+ "service=" +:+ queryEscape E service).
Proof.
  intros Hh Hwf instructions Hr Hs Hc.
  assert (extractKeyValuePairs ("Bearer " +:+ header first rest) = instructions)
    as Hex.
  { unfold extractKeyValuePairs.
    change ("Bearer " +:+ header first rest)
      with ("Bearer" +:+ String " " (header first rest)).
    rewrite FindAllSubmatch_word_space by reflexivity.
    rewrite (FindAllSubmatch_header _ _ Hwf). apply foldl_store_last_wins. }
  pose proof (tokenRequestURL_long E deniedResponse) as Hlong.
  simpl in Hlong. destruct Hlong as [_ Hlong].
  { rewrite Hh. unfold len. rewrite length_app_s. simpl. lia. }
  apply Hlong.
  - rewrite Hh. apply (substring_prefix "Bearer ").
  - by rewrite Hh, Hex.
  - by rewrite Hh, Hex.
  - by rewrite Hh, Hex.
Qed.

(** ** More on the request path *)

Section RequestPathFacts.
Variable E : Env.

(** The request that [registryRequest] hands to the HTTP client. *)
Lemma registryRequest_event method path version (st : State E) :
  Forall (fun ev =>
            exists req,
              ev = EvDo FromRegistryRequest req
              /\ Method req = method
              /\ URL req = host (api st) +:+ path
              /\ Accept req = manifestContentType !! version
              /\ QueryN req = (if 0 <? pageSize (api st)
                               then Some (pageSize (api st)) else None)
              /\ (Authorization req = None -> user (api st) = ""))
         (registryRequest E method path version st).2.
Proof.
  unfold registryRequest, bind, getAPI, fail, raise, clientDo.
  destruct (newRequestOk E method _); simpl; [|constructor].
  destruct (manifestContentType !! version) as [ct|]; simpl; [|constructor].
  destruct (Do E _ (world st)) as [res w]. simpl.
  repeat constructor. eexists. split; [done|]. simpl. repeat split.
  destruct (String.eqb_spec (bearerToken (api st)) ""); [|done].
  by destruct (String.eqb_spec (user (api st)) "").
Qed.

(** The request that [fetchBearerToken] hands to the HTTP client. *)
Lemma fetchBearerToken_event deniedResponse (st : State E) :
  Forall (fun ev =>
            exists req,
              ev = EvDo FromFetchBearerToken req
              /\ Method req = "GET"
              /\ tokenRequestURLFromResponse E deniedResponse = Ok (URL req)
              /\ Accept req = None
              /\ QueryN req = None
              /\ Authorization req
                 = (if String.eqb (user (api st)) "" then None
                    else Some (Basic (user (api st)) (pass (api st)))))
         (fetchBearerToken E deniedResponse st).2.
Proof.
  unfold fetchBearerToken, bind, lift, getAPI, fail, clientDo, decodeBody,
    ofOption, ret.
  destruct (tokenRequestURLFromResponse E deniedResponse) as [u| | |];
    try constructor.
  destruct (newRequestOk E "GET" u); simpl; [|constructor].
  destruct (Do E _ (world st)) as [[resp|msg] w]; simpl.
  - destruct (300 <=? StatusCode resp); simpl.
    + repeat constructor. by eexists.
    + destruct (jsonDecode E _) as [j|]; simpl.
      * destruct (Json.token _ j); simpl; repeat constructor; by eexists.
      * repeat constructor. by eexists.
  - repeat constructor. by eexists.
Qed.

(** The settings of the client other than the stored token. *)
Local Abbreviation sameConfig a b :=
  (host a = host b /\ user a = user b /\ pass a = pass b
   /\ pageSize a = pageSize b).

(** What holds of the requests of [registryRequest] and of
    [fetchBearerToken], whatever token is stored, holds of all requests of
    [request]. *)
Lemma request_forall (Q : Event -> Prop) method path version (st : State E) :
  (forall st1 : State E,
      sameConfig (api st1) (api st) ->
      Forall Q (registryRequest E method path version st1).2) ->
  (forall resp (st1 : State E),
      sameConfig (api st1) (api st) ->
      Forall Q (fetchBearerToken E resp st1).2) ->
  Forall Q (request E method path version st).2.
Proof.
  intros Hreg Htok. rewrite request_unfold.
  pose proof (Hreg st (conj eq_refl (conj eq_refl (conj eq_refl eq_refl)))) as H1.
  destruct (registryRequest E method path version st) as [[r1 st1] ev1] eqn:Hr1.
  pose proof (registryRequest_inv E _ _ _ _ _ _ _ Hr1) as [Hapi1 _].
  simpl in H1.
  destruct r1 as [resp| | |]; try done.
  destruct (StatusCode resp <? 300); [done|].
  destruct (andb _ _); [|done].
  assert (sameConfig (api st1) (api st)) as Hs1 by (by rewrite Hapi1).
  pose proof (Htok resp st1 Hs1) as H2.
  destruct (fetchBearerToken E resp st1) as [[r2 st2] ev2] eqn:Hr2.
  pose proof (fetchBearerToken_inv E _ _ _ _ _ Hr2) as [Hapi2 _].
  simpl in H2.
  destruct r2 as [token| | |]; simpl; try (by apply Forall_app).
  assert (sameConfig (api (withToken token st2)) (api st)) as Hs3
    by (simpl; by rewrite Hapi2, Hapi1).
  pose proof (Hreg (withToken token st2) Hs3) as H3.
  destruct (registryRequest E method path version (withToken token st2))
    as [[r3 st3] ev3]. simpl in *.
  by rewrite !Forall_app.
Qed.

(** X3: every request of one call of [request] is either a registry
    request with the method of the call, the URL made of the host and the
    path, the content type of the manifest version as Accept header, the
    page size as [n] when one is set, and with credentials whenever a user
    is configured; or it is the token request, a GET without Accept
    header that carries the basic credentials and never a bearer token. *)
Theorem request_targets method path version (st : State E) :
  Forall (fun ev =>
            match ev with
            | EvDo FromRegistryRequest req =>
                Method req = method
                /\ URL req = host (api st) +:+ path
                /\ Accept req = manifestContentType !! version
                /\ QueryN req = (if 0 <? pageSize (api st)
                                 then Some (pageSize (api st)) else None)
                /\ (Authorization req = None -> user (api st) = "")
            | EvDo FromFetchBearerToken req =>
                Method req = "GET"
                /\ Accept req = None
                /\ QueryN req = None
                /\ Authorization req
                   = (if String.eqb (user (api st)) "" then None
                      else Some (Basic (user (api st)) (pass (api st))))
            | EvLog _ => False
            end)
         (request E method path version st).2.
Proof.
  apply request_forall.
  - intros st1 (Hh & Hu & Hp & Hn).
    eapply Forall_impl; [apply registryRequest_event|].
    intros ev (req & -> & ?). simpl. by rewrite <- Hh, <- Hu, <- Hn.
  - intros resp st1 (Hh & Hu & Hp & Hn).
    eapply Forall_impl; [apply fetchBearerToken_event|].
    intros ev (req & -> & ? & ? & ? & ? & ?). simpl. by rewrite <- Hu, <- Hp.
Qed.

(** X4: [request] leaves the host, the credentials and the page size of
    the client alone.  The stored bearer token changes only in a call in
    which the first answer was a 401 challenge and [fetchBearerToken]
    returned a token for it, after exactly one token request; the token
    stored is then the token that [fetchBearerToken] returned, and every
    token so fetched is stored. *)
Theorem request_keeps_configuration method path version (st : State E) :
  let '(r, st', evs) := request E method path version st in
  (api st' = api st
   \/ exists resp1 st1 ev1 token st2 ev2,
        registryRequest E method path version st = (Ok resp1, st1, ev1)
        /\ StatusCode resp1 = 401
        /\ Header_Get (Header resp1) wwwAuthenticateHeader <> ""
        /\ fetchBearerToken E resp1 st1 = (Ok token, st2, ev2)
        /\ api st' = setBearerToken token (api st)
        /\ count isTokenRequest evs = 1%nat)
  /\ forall resp1 st1 ev1 token st2 ev2,
       registryRequest E method path version st = (Ok resp1, st1, ev1) ->
       StatusCode resp1 = 401 ->
       Header_Get (Header resp1) wwwAuthenticateHeader <> "" ->
       fetchBearerToken E resp1 st1 = (Ok token, st2, ev2) ->
       api st' = setBearerToken token (api st).
Proof.
  rewrite request_unfold.
  destruct (registryRequest E method path version st) as [[r1 st1] ev1] eqn:Hr1.
  pose proof (registryRequest_inv E _ _ _ _ _ _ _ Hr1) as [Hapi1 _].
  pose proof (registryRequest_count E method path version st) as (_ & Ht1 & _).
  rewrite Hr1 in Ht1. simpl in Ht1.
  destruct r1 as [resp| | |]; try (split; [by left|done]).
  destruct (StatusCode resp <? 300) eqn:Hok.
  { split; [by left|]. intros ? ? ? ? ? ? [= <- <- <-]. lia. }
  destruct (andb _ _) eqn:Hch.
  2:{ split; [by left|]. intros ? ? ? ? ? ? [= <- <- <-] H401 Hne.
      rewrite H401 in Hch. simpl in Hch.
      apply negb_false_iff, String.eqb_eq in Hch. done. }
  apply andb_true_iff in Hch as [H401 Hne].
  apply negb_true_iff, String.eqb_neq in Hne.
  destruct (fetchBearerToken E resp st1) as [[r2 st2] ev2] eqn:Hr2.
  pose proof (fetchBearerToken_inv E _ _ _ _ _ Hr2) as [Hapi2 _].
  destruct r2 as [token| | |];
    try (split; [left; congruence|];
         intros ? ? ? ? ? ? [= <- <- <-] _ _ Hf; by rewrite Hr2 in Hf).
  destruct (registryRequest E method path version (withToken token st2))
    as [[r3 st3] ev3] eqn:Hr3.
  pose proof (registryRequest_inv E _ _ _ _ _ _ _ Hr3) as [Hapi3 _].
  pose proof (registryRequest_count E method path version (withToken token st2))
    as (_ & Ht3 & _).
  rewrite Hr3 in Ht3. simpl in Ht3.
  assert (api st3 = setBearerToken token (api st)) as Hst.
  { rewrite Hapi3. simpl. by rewrite Hapi2, Hapi1. }
  split.
  - right. exists resp, st1, ev1, token, st2, ev2.
    split; [done|]. split; [lia|]. split; [done|]. split; [done|].
    split; [done|].
    apply fetchBearerToken_ok in Hr2 as [treq ->].
    rewrite !count_app, Ht1, Ht3. reflexivity.
  - intros ? ? ? ? ? ? [= <- <- <-] _ _ Hf. rewrite Hr2 in Hf.
    by injection Hf as <- _ _.
Qed.

(** X5: a second registry request or a token request is only sent after a
    first answer with status 401 and a non-empty challenge header; every
    other call of [request] sends one registry request at most. *)
Theorem request_retries_only_after_challenge method path version (st : State E) :
  let '(r, st', evs) := request E method path version st in
  count isTokenRequest evs = 1%nat \/ count isRegistryRequest evs = 2%nat ->
  exists resp st1 ev1,
    registryRequest E method path version st = (Ok resp, st1, ev1)
    /\ StatusCode resp = 401
    /\ Header_Get (Header resp) wwwAuthenticateHeader <> "".
Proof.
  rewrite request_unfold.
  destruct (registryRequest E method path version st) as [[r1 st1] ev1] eqn:Hr1.
  pose proof (registryRequest_count E method path version st) as (Hc1 & Ht1 & _).
  rewrite Hr1 in Hc1, Ht1. simpl in Hc1, Ht1.
  destruct r1 as [resp| | |]; try (intros [?|?]; lia).
  destruct (StatusCode resp <? 300); [intros [?|?]; lia|].
  destruct (andb _ _) eqn:Hch; [|intros [?|?]; lia].
  apply andb_true_iff in Hch as [H401 Hne].
  assert (exists resp0 st0 ev0,
             (Ok resp, st1, ev1) = (Ok resp0, st0, ev0)
             /\ StatusCode resp0 = 401
             /\ Header_Get (Header resp0) wwwAuthenticateHeader <> "") as Hgoal.
  { exists resp, st1, ev1. split; [done|]. split; [lia|].
    by apply negb_true_iff, String.eqb_neq in Hne. }
  destruct (fetchBearerToken E resp st1) as [[[token| | |] st2] ev2]; try done.
  by destruct (registryRequest E method path version (withToken token st2))
    as [[r3 st3] ev3].
Qed.

(** X6: a failure that is not a usable challenge is returned after the one
    request that met it.  A status of 300 or more other than a 401 with a
    challenge header is returned as the status error; a 401 whose
    challenge does not yield a token URL is returned as the error of that
    challenge, and no token request is sent. *)
Theorem request_fails_without_retry method path version (st : State E) resp st1 ev1 :
  registryRequest E method path version st = (Ok resp, st1, ev1) ->
  300 <= StatusCode resp ->
  (StatusCode resp <> 401 \/ Header_Get (Header resp) wwwAuthenticateHeader = "" ->
   request E method path version st
   = (Err (ErrStatus (StatusCode resp) method path), st1, ev1))
  /\ (forall e,
         StatusCode resp = 401 ->
         Header_Get (Header resp) wwwAuthenticateHeader <> "" ->
         tokenRequestURLFromResponse E resp = Err e ->
         request E method path version st = (Err e, st1, ev1)).
Proof.
  intros Hr1 H300. rewrite request_unfold, Hr1.
  assert ((StatusCode resp <? 300) = false) as -> by lia. split.
  - intros Hno.
    assert ((StatusCode resp =? 401)
            && negb (String.eqb (Header_Get (Header resp) wwwAuthenticateHeader) "")
            = false) as ->; [|done].
    destruct Hno as [Hne| ->]; [|by rewrite andb_false_r].
    apply andb_false_iff. left. lia.
  - intros e H401 Hne Hurl.
    apply String.eqb_neq in Hne. rewrite Hne.
    assert ((StatusCode resp =? 401) = true) as -> by lia. simpl.
    unfold fetchBearerToken, bind, lift. rewrite Hurl. by rewrite app_nil_r.
Qed.

Lemma request_registry_count method path version (st : State E) :
  (count isRegistryRequest (request E method path version st).2 <= 2)%nat.
Proof.
  rewrite request_unfold.
  pose proof (registryRequest_count E method path version st) as (Hc1 & _ & _).
  destruct (registryRequest E method path version st) as [[r1 st1] ev1].
  simpl in Hc1.
  destruct r1 as [resp| | |]; simpl; try lia.
  destruct (StatusCode resp <? 300); simpl; [lia|].
  destruct (andb _ _); simpl; [|lia].
  pose proof (fetchBearerToken_count E resp st1) as (Hc2 & _ & _).
  destruct (fetchBearerToken E resp st1) as [[r2 st2] ev2]. simpl in Hc2.
  destruct r2 as [token| | |]; simpl; rewrite ?count_app; try lia.
  pose proof (registryRequest_count E method path version (withToken token st2))
    as (Hc3 & _ & _).
  destruct (registryRequest E method path version (withToken token st2))
    as [[r3 st3] ev3]. simpl in *. rewrite !count_app. lia.
Qed.

Lemma request_sameConfig method path version (st : State E) :
  sameConfig (api (request E method path version st).1.2) (api st).
Proof.
  rewrite request_unfold.
  destruct (registryRequest E method path version st) as [[r1 st1] ev1] eqn:Hr1.
  pose proof (registryRequest_inv E _ _ _ _ _ _ _ Hr1) as [Hapi1 _].
  destruct r1 as [resp| | |]; simpl; try (by rewrite Hapi1).
  destruct (StatusCode resp <? 300); simpl; [by rewrite Hapi1|].
  destruct (andb _ _); simpl; [|by rewrite Hapi1].
  destruct (fetchBearerToken E resp st1) as [[r2 st2] ev2] eqn:Hr2.
  pose proof (fetchBearerToken_inv E _ _ _ _ _ Hr2) as [Hapi2 _].
  destruct r2 as [token| | |]; simpl; try (by rewrite Hapi2, Hapi1).
  destruct (registryRequest E method path version (withToken token st2))
    as [[r3 st3] ev3] eqn:Hr3.
  pose proof (registryRequest_inv E _ _ _ _ _ _ _ Hr3) as [Hapi3 _].
  simpl. rewrite Hapi3. simpl. by rewrite Hapi2, Hapi1.
Qed.
End RequestPathFacts.

(** ** More on the operations of the client *)

Section OperationFacts.
Variable E : Env.

Lemma GetManifestDigestAndCreated_harmless repository tag :
  emits E (fun ev => isHarmlessRequest ev = true)
        (GetManifestDigestAndCreated E repository tag).
Proof.
  apply emits_bind; [by apply request_harmless|]. intros resp.
  apply emits_bind; [apply emits_decodeBody|]. intros [|first history].
  - apply emits_raise.
  - apply emits_bind; [|intros; apply emits_ret].
    destruct (jsonUnmarshal E first); [apply emits_ofOption|apply emits_fail].
Qed.

(** X7: the operations that read from the registry hand only requests to
    the HTTP client, and none of them has the method DELETE, whatever the
    registry and the token service answer. *)
Theorem read_operations_never_delete :
  (forall fuel,
      emits E (fun ev => isHarmlessRequest ev = true) (GetRepositories E fuel))
  /\ (forall repository,
         emits E (fun ev => isHarmlessRequest ev = true) (GetTags E repository))
  /\ (forall repository tag,
         emits E (fun ev => isHarmlessRequest ev = true)
               (GetDigest E repository tag))
  /\ (forall repository,
         emits E (fun ev => isHarmlessRequest ev = true)
               (GetTagsIndexedByDigest E repository))
  /\ (forall repository tag,
         emits E (fun ev => isHarmlessRequest ev = true)
               (GetManifestDigestAndCreated E repository tag))
  /\ (forall repository tag,
         emits E (fun ev => isHarmlessRequest ev = true)
               (GetManifestCreated E repository tag)).
Proof.
  repeat split.
  - intros fuel. apply catalogLoop_harmless.
  - apply GetTags_harmless.
  - apply GetDigest_harmless.
  - apply GetTagsIndexedByDigest_harmless.
  - apply GetManifestDigestAndCreated_harmless.
  - apply GetManifestCreated_harmless.
Qed.

(** X8: [DeleteManifest] sends its DELETE requests, two at most, to the
    manifest URL of the digest in the repository on the host of the
    client; the only other request it can send is the GET of the token
    exchange. *)
Theorem DeleteManifest_targets_digest repository digest (st : State E) :
  let evs := (DeleteManifest E repository digest st).2 in
  Forall (fun ev =>
            match ev with
            | EvDo FromRegistryRequest req =>
                Method req = "DELETE"
                /\ URL req = host (api st) +:+ "/v2/" +:+ repository
                                  +:+ "/manifests/" +:+ digest
            | EvDo FromFetchBearerToken req => Method req = "GET"
            | EvLog _ => False
            end) evs
  /\ (count isDelete evs <= 2)%nat.
Proof.
  unfold DeleteManifest, bind.
  assert (Forall (fun ev =>
            match ev with
            | EvDo FromRegistryRequest req =>
                Method req = "DELETE"
                /\ URL req = host (api st) +:+ "/v2/" +:+ repository
                                  +:+ "/manifests/" +:+ digest
            | EvDo FromFetchBearerToken req => Method req = "GET"
            | EvLog _ => False
            end)
           (request E "DELETE"
              ("/v2/" +:+ repository +:+ "/manifests/" +:+ digest)
              manifestV2 st).2) as Ht.
  { apply request_forall.
    - intros st1 (Hh & _). eapply Forall_impl; [apply registryRequest_event|].
      intros ev (req & -> & ? & ? & _). simpl. by rewrite <- Hh.
    - intros resp st1 _. eapply Forall_impl; [apply fetchBearerToken_event|].
      by intros ev (req & -> & ? & _). }
  pose proof (request_registry_count E "DELETE"
                ("/v2/" +:+ repository +:+ "/manifests/" +:+ digest)
                manifestV2 st) as Hc.
  destruct (request E "DELETE" _ manifestV2 st) as [[r st1] ev1].
  simpl in Ht, Hc. pose proof Ht as Ht'.
  assert ((count isDelete ev1 <= count isRegistryRequest ev1)%nat) as Hle.
  { clear Hc Ht. induction Ht' as [|ev evs Hev _ IH]; [done|].
    unfold count in *. simpl.
    destruct ev as [[] req|]; simpl in *; try done.
    - destruct (String.eqb (Method req) "DELETE"); simpl; lia.
    - rewrite Hev. simpl. lia. }
  destruct r as [resp| | |]; simpl; rewrite ?app_nil_r; split; try done; lia.
Qed.
End OperationFacts.

(** ** More on the grouping of tags *)

Section GroupFacts.
Variable E : Env.

Lemma tagsOf_subset digest tags digests t :
  In t (tagsOf digest tags digests) -> In t tags.
Proof.
  unfold tagsOf. rewrite <- !list_elem_of_In, list_elem_of_fmap.
  intros ([t' d] & -> & Hin). apply list_elem_of_filter in Hin as [_ Hin].
  simpl. by apply elem_of_zip_l in Hin.
Qed.

(** X9: in a map returned by [GetTagsIndexedByDigest] no digest has an
    empty tag list, and every tag of a group is one of the tags that
    [GetTags] listed. *)
Theorem GetTagsIndexedByDigest_no_empty_group repository (st : State E) m st' evs :
  GetTagsIndexedByDigest E repository st = (Ok m, st', evs) ->
  exists tags st1 ev1,
    GetTags E repository st = (Ok tags, st1, ev1)
    /\ forall digest group,
         m !! digest = Some group ->
         group <> [] /\ (forall t, In t group -> In t tags).
Proof.
  unfold GetTagsIndexedByDigest, bind.
  destruct (GetTags E repository st) as [[r1 st1] ev1] eqn:Htags.
  destruct r1 as [tags| | |]; try done.
  destruct (indexTags E repository tags ∅ st1) as [[r2 st2] ev2] eqn:Hidx.
  intros [= -> <- <-]. exists tags, st1, ev1. split; [done|].
  pose proof (indexTags_ok E _ _ _ _ _ _ _ Hidx) as [digests Hres].
  destruct (indexTags_resolved E _ _ _ _ _ _ Hres ∅ [] [])
    as (m' & Hm' & Hg & _); [done|by intros d|done|].
  rewrite Hidx in Hm'. injection Hm' as <-.
  intros digest group Hl. rewrite (Hg digest) in Hl. simpl in Hl.
  destruct (decide (tagsOf digest tags digests = [])) as [|Hne]; [done|].
  injection Hl as <-. split; [done|]. apply tagsOf_subset.
Qed.

Lemma indexTags_fails repository (st : State E) done_tags digests st2 ev2 :
  resolved E repository st done_tags digests st2 ev2 ->
  forall tag e st3 ev3 rest result,
    GetDigest E repository tag st2 = (Err e, st3, ev3) ->
    indexTags E repository (done_tags ++ tag :: rest) result st
    = (Err e, st3, ev2 ++ ev3).
Proof.
  induction 1 as [st|st tag0 digest st1 ev1 tags digests st2 ev2 Hd _ IH];
    intros tag e st3 ev3 rest result Hfail; simpl.
  - unfold bind. by rewrite Hfail.
  - unfold bind at 1. rewrite Hd.
    rewrite (IH tag e st3 ev3 rest _ Hfail). by rewrite app_assoc.
Qed.

(** X10: [GetTagsIndexedByDigest] returns no partial grouping: when the
    digest of one tag cannot be fetched, after any number of tags that
    resolved, the error of that lookup is the result, and the tags after
    it are not looked up. *)
Theorem GetTagsIndexedByDigest_fails_as_a_whole repository (st : State E)
    done_tags tag rest st1 ev1 digests st2 ev2 e st3 ev3 :
  GetTags E repository st = (Ok (done_tags ++ tag :: rest), st1, ev1) ->
  resolved E repository st1 done_tags digests st2 ev2 ->
  GetDigest E repository tag st2 = (Err e, st3, ev3) ->
  GetTagsIndexedByDigest E repository st = (Err e, st3, ev1 ++ ev2 ++ ev3).
Proof.
  intros Htags Hres Hfail. unfold GetTagsIndexedByDigest, bind.
  by rewrite Htags, (indexTags_fails _ _ _ _ _ _ Hres _ _ _ _ _ _ Hfail).
Qed.
End GroupFacts.

(** ** More on the Link header *)

Lemma slice_reversed s lo hi : hi < lo -> slice s lo hi = None.
Proof.
  intros H. unfold slice. destruct (lo <=? hi) eqn:Hle; [lia|].
  by rewrite andb_false_r.
Qed.

Lemma slice_prefix a b : slice (a +:+ b) 0 (len a) = Some a.
Proof.
  unfold slice, len. rewrite length_app_s.
  replace ((0 <=? 0) && (0 <=? Z.of_nat (String.length a))
           && (Z.of_nat (String.length a)
               <=? Z.of_nat (String.length a + String.length b))) with true
    by (symmetry; rewrite !andb_true_iff, !Z.leb_le; lia).
  rewrite Z.sub_0_r, Nat2Z.id. change (Z.to_nat 0) with 0%nat.
  by rewrite substring_prefix.
Qed.

Lemma occurs_app c a b : occurs c (a +:+ b) = occurs c a || occurs c b.
Proof.
  induction a as [|x a IH]; simpl; [done|]. by rewrite IH, orb_assoc.
Qed.

(** X11: [nextPagePath] on Link headers without a proper bracket pair.  A
    header with a [>] and no [<] yields everything before its last [>];
    a header whose first [<] comes after its last [>] makes the slice
    expression panic. *)
Theorem nextPagePath_unpaired_brackets resp :
  (forall pre post,
      Header_Get (Header resp) "Link" = pre +:+ String ">" post ->
      occurs "<" pre = false -> occurs "<" post = false ->
      occurs ">" post = false ->
      nextPagePath resp = Ok pre)
  /\ (forall pre mid post,
         Header_Get (Header resp) "Link"
         = pre +:+ String ">" (mid +:+ String "<" post) ->
         occurs "<" pre = false -> occurs "<" mid = false ->
         occurs ">" mid = false -> occurs ">" post = false ->
         nextPagePath resp = Panic PanicSliceBounds).
Proof.
  split.
  - intros pre post Hlink Hpre Hpost Hgt. unfold nextPagePath. rewrite Hlink.
    destruct (String.eqb_spec (pre +:+ String ">" post) "") as [Heq|_].
    { by destruct pre. }
    rewrite index_absent by (rewrite occurs_app; simpl; by rewrite Hpre, Hpost).
    rewrite (lastIndex_last _ _ _ Hgt). change (-1 + 1) with 0.
    by rewrite slice_prefix.
  - intros pre mid post Hlink Hpre Hmid Hgtmid Hgtpost.
    unfold nextPagePath. rewrite Hlink.
    destruct (String.eqb_spec (pre +:+ String ">" (mid +:+ String "<" post)) "")
      as [Heq|_].
    { by destruct pre. }
    rewrite (lastIndex_last ">" pre (mid +:+ String "<" post))
      by (rewrite occurs_app; simpl; by rewrite Hgtmid, Hgtpost).
    replace (pre +:+ String ">" (mid +:+ String "<" post))
      with ((pre +:+ String ">" mid) +:+ String "<" post)
      by (by rewrite app_assoc_s).
    rewrite (index_first "<" (pre +:+ String ">" mid) post)
      by (rewrite occurs_app; simpl; by rewrite Hpre, Hmid).
    rewrite slice_reversed; [done|].
    unfold len. rewrite length_app_s. simpl. lia.
Qed.

(** ** How runs end *)

Section EndFacts.
Variable E : Env.
Variable rangeMap : gmap string (list string) -> list (string * list string).

Lemma finished_bind {A B} (m : M E A) (k : A -> M E B) :
  ends E finished m -> (forall a, ends E finished (k a)) ->
  ends E finished (bind E m k).
Proof.
  intros Hm Hk st. unfold bind. specialize (Hm st).
  destruct (m st) as [[[a| | |] st1] ev1]; simpl in *; try done.
  specialize (Hk a st1). by destruct (k a st1) as [[r st2] ev2].
Qed.

Lemma settled_bind {A B} (m : M E A) (k : A -> M E B) :
  ends E settled m -> (forall a, ends E settled (k a)) ->
  ends E settled (bind E m k).
Proof.
  intros Hm Hk st. unfold bind. specialize (Hm st).
  destruct (m st) as [[[a| | |] st1] ev1]; simpl in *; try done.
  specialize (Hk a st1). by destruct (k a st1) as [[r st2] ev2].
Qed.

(** A call whose error is inspected cannot end in an error. *)
Lemma settled_try {A} (m : M E A) :
  ends E finished m -> ends E settled (try E m).
Proof.
  intros Hm st. unfold try. specialize (Hm st).
  by destruct (m st) as [[[a| | |] st1] ev1].
Qed.

Lemma finished_decodeBody {A} (into : json -> option A) resp :
  ends E finished (decodeBody E into resp).
Proof.
  intros st. unfold decodeBody. destruct (jsonDecode E _) as [j|]; [|done].
  by destruct (into j).
Qed.

Lemma registryRequest_finished method path version :
  ends E finished (registryRequest E method path version).
Proof.
  intros st.
  destruct (registryRequest E method path version st) as [[r st1] ev1] eqn:H.
  apply registryRequest_inv in H as [_ [(_ & _ & [->| ->])|(req & _ & _ & _ & _ & ->)]];
    try done.
  simpl. by destruct ((Do E req (world st)).1).
Qed.

Lemma fetchBearerToken_finished resp :
  ends E finished (fetchBearerToken E resp).
Proof.
  intros st. unfold fetchBearerToken, bind, lift, getAPI, fail, clientDo.
  destruct (tokenRequestURLFromResponse E resp) as [u| | |] eqn:Hu; try done.
  - destruct (newRequestOk E "GET" u); simpl; [|done].
    destruct (Do E _ (world st)) as [[resp'|msg] w]; simpl; [|done].
    destruct (300 <=? StatusCode resp'); simpl; [done|].
    pose proof (finished_decodeBody (Json.token (keyFold E)) resp'
                  {| api := api st; world := w |}) as Hd.
    by destruct (decodeBody E _ resp' _) as [[r st2] ev2].
  - exfalso. unfold tokenRequestURLFromResponse in Hu.
    destruct (slice _ 0 7); [|done]. destruct (negb _); [done|].
    by repeat (destruct (_ !! _); [|done]).
Qed.

Lemma request_finished method path version :
  ends E finished (request E method path version).
Proof.
  intros st. rewrite request_unfold.
  pose proof (registryRequest_finished method path version st) as H1.
  destruct (registryRequest E method path version st) as [[r1 st1] ev1].
  destruct r1 as [resp| | |]; try done.
  destruct (StatusCode resp <? 300); [done|].
  destruct (andb _ _); [|done].
  pose proof (fetchBearerToken_finished resp st1) as H2.
  destruct (fetchBearerToken E resp st1) as [[r2 st2] ev2].
  destruct r2 as [token| | |]; try done.
  pose proof (registryRequest_finished method path version (withToken token st2))
    as H3.
  destruct (registryRequest E method path version (withToken token st2))
    as [[r3 st3] ev3].
  simpl in *. destruct r3 as [resp3| | |]; simpl; try done.
  by destruct (300 <=? StatusCode resp3).
Qed.

Lemma GetTags_finished repository : ends E finished (GetTags E repository).
Proof.
  apply finished_bind; [apply request_finished|]. intros resp.
  apply finished_decodeBody.
Qed.

Lemma GetDigest_finished repository tag :
  ends E finished (GetDigest E repository tag).
Proof. apply finished_bind; [apply request_finished|]. by intros resp st. Qed.

Lemma indexTags_finished repository tags result :
  ends E finished (indexTags E repository tags result).
Proof.
  revert result. induction tags as [|tag tags IH]; intros result; simpl.
  - by intros st.
  - apply finished_bind; [apply GetDigest_finished|]. intros digest. apply IH.
Qed.

Lemma GetTagsIndexedByDigest_finished repository :
  ends E finished (GetTagsIndexedByDigest E repository).
Proof.
  apply finished_bind; [apply GetTags_finished|]. intros tags.
  apply indexTags_finished.
Qed.

Lemma GetManifestCreated_finished repository tag :
  ends E finished (GetManifestCreated E repository tag).
Proof.
  apply finished_bind; [|by intros dc st].
  apply finished_bind; [apply request_finished|]. intros resp.
  apply finished_bind; [apply finished_decodeBody|]. intros [|first history].
  - by intros st.
  - apply finished_bind; [|by intros created st].
    intros st. destruct (jsonUnmarshal E first) as [j|]; [|done].
    unfold ofOption. by destruct (Json.historyItem _ _ j).
Qed.

Lemma DeleteManifest_finished repository digest :
  ends E finished (DeleteManifest E repository digest).
Proof. apply finished_bind; [apply request_finished|]. by intros resp st. Qed.

Lemma pruneGroup_settled cfg repository digest tags :
  ends E settled (pruneGroup E cfg repository digest tags).
Proof.
  unfold pruneGroup. destruct (negb (allMatch tags (Tags cfg))); [by intros st|].
  apply settled_bind.
  - destruct (0 <? MinAge cfg); [|by intros st].
    destruct tags as [|tag0 tags']; [by intros st|].
    apply settled_bind; [apply settled_try, GetManifestCreated_finished|].
    intros [created|err].
    + apply settled_bind; [by intros st|]. intros now.
      by destruct (_ <? created); intros st.
    + apply settled_bind; by intros st.
  - intros oldEnough. destruct (negb oldEnough); [by intros st|].
    destruct (Dry cfg); [by intros st|].
    apply settled_bind; [by intros st|]. intros _.
    apply settled_bind; [apply settled_try, DeleteManifest_finished|].
    by intros [[]|err] st.
Qed.

Lemma pruneGroups_settled cfg repository groups :
  ends E settled (pruneGroups E cfg repository groups).
Proof.
  induction groups as [|[digest tags] groups IH]; simpl; [by intros st|].
  apply settled_bind; [apply pruneGroup_settled|]. intros _. apply IH.
Qed.

Lemma pruneRepository_settled cfg repository :
  ends E settled (pruneRepository E rangeMap cfg repository).
Proof.
  unfold pruneRepository. destruct (negb (Repos cfg repository)); [by intros st|].
  apply settled_bind; [by intros st|]. intros _.
  apply settled_bind; [apply settled_try, GetTagsIndexedByDigest_finished|].
  intros [m|err]; [apply pruneGroups_settled|by intros st].
Qed.

Lemma pruneRepositories_settled cfg repositories :
  ends E settled (pruneRepositories E rangeMap cfg repositories).
Proof.
  induction repositories as [|repository repositories IH]; simpl; [by intros st|].
  apply settled_bind; [apply pruneRepository_settled|]. intros _. apply IH.
Qed.

(** [main], from the call of [GetRepositories] on. *)
Lemma main_unfold cfg fuel (w : World E) :
  main E rangeMap cfg fuel w =
  match GetRepositories E fuel (configured E cfg w) with
  | (Ok repositories, st1, ev1) =>
      match pruneRepositories E rangeMap cfg repositories st1 with
      | (Ok _, st2, ev2) =>
          (Ok tt, st2,
           EvLog LConfiguration :: EvLog LStarting :: ev1 ++ ev2 ++ [EvLog LDone])
      | (Err e, st2, ev2) =>
          (Err e, st2, EvLog LConfiguration :: EvLog LStarting :: ev1 ++ ev2)
      | (Panic p, st2, ev2) =>
          (Panic p, st2, EvLog LConfiguration :: EvLog LStarting :: ev1 ++ ev2)
      | (OutOfFuel, st2, ev2) =>
          (OutOfFuel, st2, EvLog LConfiguration :: EvLog LStarting :: ev1 ++ ev2)
      end
  | (Err e, st1, ev1) =>
      (Err e, st1,
       EvLog LConfiguration :: EvLog LStarting :: ev1 ++ [EvLog (LFatal e)])
  | (Panic p, st1, ev1) =>
      (Panic p, st1, EvLog LConfiguration :: EvLog LStarting :: ev1)
  | (OutOfFuel, st1, ev1) =>
      (OutOfFuel, st1, EvLog LConfiguration :: EvLog LStarting :: ev1)
  end.
Proof.
  unfold main, mainBody, configured.
  unfold bind at 1, logPrint at 1. unfold bind at 1, logPrint at 1.
  unfold bind at 1, modifyAPI at 1. simpl.
  unfold bind at 1.
  destruct (String.eqb (User cfg) ""); simpl.
  - unfold bind at 1, try at 1.
    destruct (GetRepositories E fuel _) as [[[repositories| e | p |] st1] ev1];
      simpl; try done.
    unfold bind, logPrint.
    destruct (pruneRepositories E rangeMap cfg repositories st1)
      as [[[[]| e | p |] st2] ev2]; simpl; by rewrite ?app_nil_r.
  - unfold bind at 1, try at 1.
    destruct (GetRepositories E fuel _) as [[[repositories| e | p |] st1] ev1];
      simpl; try done.
    unfold bind, logPrint.
    destruct (pruneRepositories E rangeMap cfg repositories st1)
      as [[[[]| e | p |] st2] ev2]; simpl; by rewrite ?app_nil_r.
Qed.

(** X12: failures below the catalog do not end the run.  The pass over a
    group, over the groups of a repository, over a repository and over
    all repositories never returns an error: it returns normally, with
    the errors of the registry written to the log, or it panics. *)
Theorem pruning_passes_never_fail cfg :
  (forall repository digest tags,
      ends E settled (pruneGroup E cfg repository digest tags))
  /\ (forall repository groups,
         ends E settled (pruneGroups E cfg repository groups))
  /\ (forall repository,
         ends E settled (pruneRepository E rangeMap cfg repository))
  /\ (forall repositories,
         ends E settled (pruneRepositories E rangeMap cfg repositories)).
Proof.
  repeat split.
  - intros. apply pruneGroup_settled.
  - intros. apply pruneGroups_settled.
  - intros. apply pruneRepository_settled.
  - intros. apply pruneRepositories_settled.
Qed.

(** X13: [main] ends with an error exactly when listing the repositories
    fails, and with that error; the log then ends with the fatal line, no
    repository is inspected, and no request other than those of the
    listing is sent. *)
Theorem main_fails_only_on_catalog cfg fuel (w : World E) :
  (forall e,
      (main E rangeMap cfg fuel w).1.1 = Err e
      <-> (GetRepositories E fuel (configured E cfg w)).1.1 = Err e)
  /\ (forall e st1 ev1,
         GetRepositories E fuel (configured E cfg w) = (Err e, st1, ev1) ->
         main E rangeMap cfg fuel w
         = (Err e, st1,
            EvLog LConfiguration :: EvLog LStarting :: ev1 ++ [EvLog (LFatal e)])).
Proof.
  rewrite main_unfold. split.
  - intros e.
    destruct (GetRepositories E fuel (configured E cfg w))
      as [[[repositories| e1 | p |] st1] ev1]; simpl; try done;
      try (split; intros [= ->]; reflexivity).
    pose proof (pruneRepositories_settled cfg repositories st1) as Hs.
    destruct (pruneRepositories E rangeMap cfg repositories st1)
      as [[[[]| e2 | p |] st2] ev2]; by simpl in *.
  - by intros e st1 ev1 ->.
Qed.
End EndFacts.

(** ** Where DELETE requests go *)

Section DeleteFacts.
Variable E : Env.
Variable rangeMap : gmap string (list string) -> list (string * list string).

(** The client talks to the host [h]. *)
Local Abbreviation hostIs h := (fun st : State E => host (api st) = h).

Lemma keeps_pure {A} (I : State E -> Prop) P (m : M E A) :
  (forall st, (m st).1.2 = st /\ (m st).2 = []) -> keeps E I P m.
Proof. intros H st HI. destruct (H st) as [-> ->]. by split. Qed.

Lemma keeps_ret {A} I P (a : A) : keeps E I P (ret E a).
Proof. by apply keeps_pure. Qed.

Lemma keeps_decodeBody {A} I P (into : json -> option A) resp :
  keeps E I P (decodeBody E into resp).
Proof.
  apply keeps_pure. intros st. unfold decodeBody.
  destruct (jsonDecode E _) as [j|]; [|done]. by destruct (into j).
Qed.

Lemma keeps_logPrint I (P : Event -> Prop) entry :
  P (EvLog entry) -> keeps E I P (logPrint E entry).
Proof. intros H st HI. split; [done|]. by repeat constructor. Qed.

Lemma keeps_bind {A B} I P (m : M E A) (k : A -> M E B) :
  keeps E I P m -> (forall a, keeps E I P (k a)) -> keeps E I P (bind E m k).
Proof.
  intros Hm Hk st HI. unfold bind. destruct (Hm st HI) as [HI1 Hev1].
  destruct (m st) as [[[a| | |] st1] ev1]; simpl in *; try done.
  destruct (Hk a st1 HI1) as [HI2 Hev2].
  destruct (k a st1) as [[r st2] ev2]; simpl in *.
  split; [done|]. by apply Forall_app.
Qed.

Lemma keeps_try {A} I P (m : M E A) : keeps E I P m -> keeps E I P (try E m).
Proof.
  intros Hm st HI. unfold try. destruct (Hm st HI) as [HI1 Hev1].
  by destruct (m st) as [[[a| | |] st1] ev1].
Qed.

Lemma keeps_modifyAPI h P f :
  (forall a, host a = h -> host (f a) = h) ->
  keeps E (hostIs h) P (modifyAPI E f).
Proof. intros Hf st HI. split; [by apply Hf|constructor]. Qed.

Lemma request_host method path version (st : State E) :
  host (api (request E method path version st).1.2) = host (api st).
Proof. apply request_sameConfig. Qed.

Lemma harmless_deletesIn h matches ev :
  isHarmlessRequest ev = true -> deletesIn h matches ev.
Proof.
  intros H Hd. apply andb_true_iff in H as [_ H].
  apply negb_true_iff in H. congruence.
Qed.

Lemma keeps_request_read h matches method path version :
  method <> "DELETE" ->
  keeps E (hostIs h) (deletesIn h matches) (request E method path version).
Proof.
  intros Hm st HI. split.
  - by rewrite request_host.
  - eapply Forall_impl; [by apply request_harmless|].
    intros ev. apply harmless_deletesIn.
Qed.

Lemma keeps_GetManifestCreated h matches repository tag :
  keeps E (hostIs h) (deletesIn h matches) (GetManifestCreated E repository tag).
Proof.
  apply keeps_bind; [|intros; apply keeps_ret].
  apply keeps_bind; [by apply keeps_request_read|]. intros resp.
  apply keeps_bind; [apply keeps_decodeBody|]. intros [|first history].
  - by apply keeps_pure.
  - apply keeps_bind; [|intros; apply keeps_ret].
    apply keeps_pure. intros st. destruct (jsonUnmarshal E first) as [j|]; [|done].
    unfold ofOption. by destruct (Json.historyItem _ _ j).
Qed.

Lemma keeps_GetTagsIndexedByDigest h matches repository :
  keeps E (hostIs h) (deletesIn h matches) (GetTagsIndexedByDigest E repository).
Proof.
  apply keeps_bind.
  - apply keeps_bind; [by apply keeps_request_read|]. intros resp.
    apply keeps_decodeBody.
  - intros tags. generalize (∅ : gmap string (list string)).
    induction tags as [|tag tags IH]; intros result; simpl.
    + apply keeps_ret.
    + apply keeps_bind; [|intros digest; apply IH].
      apply keeps_bind; [by apply keeps_request_read|]. intros resp.
      apply keeps_ret.
Qed.

Lemma keeps_catalogLoop h matches fuel path repositories :
  keeps E (hostIs h) (deletesIn h matches) (catalogLoop E fuel path repositories).
Proof.
  revert path repositories. induction fuel as [|fuel IH];
    intros path repositories; simpl.
  - destruct (String.eqb path ""); [apply keeps_ret|by apply keeps_pure].
  - destruct (String.eqb path ""); [apply keeps_ret|].
    apply keeps_bind; [by apply keeps_request_read|]. intros resp.
    apply keeps_bind; [apply keeps_decodeBody|]. intros catalog.
    apply keeps_bind; [by apply keeps_pure|]. intros next.
    apply keeps_bind; [|intros _; apply IH].
    apply keeps_pure. intros st. unfold bodyClose. by destruct (CloseErr _).
Qed.

(** The requests of [DeleteManifest]: DELETE requests to the manifest URL
    of the digest, and the GET of the token exchange. *)
Lemma DeleteManifest_events repository digest (st : State E) :
  Forall (fun ev =>
            match ev with
            | EvDo FromRegistryRequest req =>
                Method req = "DELETE"
                /\ URL req = host (api st) +:+ "/v2/" +:+ repository
                                  +:+ "/manifests/" +:+ digest
            | EvDo FromFetchBearerToken req => Method req = "GET"
            | EvLog _ => False
            end) (DeleteManifest E repository digest st).2.
Proof.
  unfold DeleteManifest, bind.
  assert (Forall (fun ev =>
            match ev with
            | EvDo FromRegistryRequest req =>
                Method req = "DELETE"
                /\ URL req = host (api st) +:+ "/v2/" +:+ repository
                                  +:+ "/manifests/" +:+ digest
            | EvDo FromFetchBearerToken req => Method req = "GET"
            | EvLog _ => False
            end)
           (request E "DELETE"
              ("/v2/" +:+ repository +:+ "/manifests/" +:+ digest)
              manifestV2 st).2) as Ht.
  { apply request_forall.
    - intros st1 (Hh & _). eapply Forall_impl; [apply registryRequest_event|].
      intros ev (req & -> & ? & ? & _). simpl. by rewrite <- Hh.
    - intros resp st1 _. eapply Forall_impl; [apply fetchBearerToken_event|].
      by intros ev (req & -> & ? & _). }
  destruct (request E "DELETE" _ manifestV2 st) as [[r st1] ev1].
  destruct r; simpl in *; by rewrite ?app_nil_r.
Qed.

Lemma keeps_DeleteManifest h (matches : string -> bool) repository digest :
  matches repository = true ->
  keeps E (hostIs h) (deletesIn h matches) (DeleteManifest E repository digest).
Proof.
  intros Hm st HI. split.
  - unfold DeleteManifest, bind.
    pose proof (request_host "DELETE"
                  ("/v2/" +:+ repository +:+ "/manifests/" +:+ digest)
                  manifestV2 st) as Hh.
    destruct (request E "DELETE" _ manifestV2 st) as [[r st1] ev1].
    destruct r; simpl in *; congruence.
  - eapply Forall_impl; [apply DeleteManifest_events|].
    intros [[] req|]; simpl.
    + intros [_ Hu] _. exists req, repository, digest.
      rewrite <- HI. done.
    + intros Hg Hd. unfold isDelete in Hd. rewrite Hg in Hd. done.
    + done.
Qed.

Lemma keeps_pruneGroup cfg repository digest tags :
  Repos cfg repository = true ->
  keeps E (hostIs (Host cfg)) (deletesIn (Host cfg) (Repos cfg))
        (pruneGroup E cfg repository digest tags).
Proof.
  intros Hm. unfold pruneGroup.
  destruct (negb (allMatch tags (Tags cfg))); [apply keeps_ret|].
  apply keeps_bind.
  - destruct (0 <? MinAge cfg); [|apply keeps_ret].
    destruct tags as [|tag0 tags']; [by apply keeps_pure|].
    apply keeps_bind; [apply keeps_try, keeps_GetManifestCreated|].
    intros [created|err].
    + apply keeps_bind; [by apply keeps_pure|]. intros now.
      destruct (_ <? created); apply keeps_ret.
    + apply keeps_bind; [by apply keeps_logPrint|]. intros _. apply keeps_ret.
  - intros oldEnough. destruct (negb oldEnough); [apply keeps_ret|].
    destruct (Dry cfg); [by apply keeps_logPrint|].
    apply keeps_bind; [by apply keeps_logPrint|]. intros _.
    apply keeps_bind; [by apply keeps_try, keeps_DeleteManifest|].
    intros [[]|err]; [apply keeps_ret|by apply keeps_logPrint].
Qed.

Lemma keeps_pruneRepository cfg repository :
  keeps E (hostIs (Host cfg)) (deletesIn (Host cfg) (Repos cfg))
        (pruneRepository E rangeMap cfg repository).
Proof.
  unfold pruneRepository.
  destruct (Repos cfg repository) eqn:Hm; simpl; [|apply keeps_ret].
  apply keeps_bind; [by apply keeps_logPrint|]. intros _.
  apply keeps_bind; [apply keeps_try, keeps_GetTagsIndexedByDigest|].
  intros [m|err]; [|by apply keeps_logPrint].
  induction (rangeMap m) as [|[digest tags] groups IH]; simpl.
  - apply keeps_ret.
  - apply keeps_bind; [by apply keeps_pruneGroup|]. intros _. apply IH.
Qed.

(** X15: every DELETE request of a run of [main] goes to the host of the
    configuration and to the manifest URL of a digest in a repository
    whose name matches the repository filter. *)
Theorem main_deletes_only_in_matching_repositories cfg fuel (w : World E) :
  Forall (deletesIn (Host cfg) (Repos cfg)) (main E rangeMap cfg fuel w).2.
Proof.
  unfold main.
  assert (keeps E (hostIs (Host cfg)) (deletesIn (Host cfg) (Repos cfg))
                (mainBody E rangeMap cfg fuel)) as Hk; [|by apply Hk].
  unfold mainBody.
  apply keeps_bind; [by apply keeps_logPrint|]. intros _.
  apply keeps_bind; [by apply keeps_logPrint|]. intros _.
  apply keeps_bind; [by apply keeps_modifyAPI|]. intros _.
  apply keeps_bind.
  { destruct (negb _); [by apply keeps_modifyAPI|apply keeps_ret]. }
  intros _. apply keeps_bind; [apply keeps_try, keeps_catalogLoop|].
  intros [repositories|err].
  - apply keeps_bind; [|intros _; by apply keeps_logPrint].
    induction repositories as [|repository repositories IH]; simpl.
    + apply keeps_ret.
    + apply keeps_bind; [apply keeps_pruneRepository|]. intros _. apply IH.
  - apply keeps_bind; [by apply keeps_logPrint|]. intros _. by apply keeps_pure.
Qed.

(** What [pruneGroup] does with a group that passed the filters. *)
Local Abbreviation act cfg repository digest tags st :=
  (if Dry cfg
   then (Ok tt, st, [EvLog (LWouldDelete repository digest tags)])
   else
     match DeleteManifest E repository digest st with
     | (Ok _, st2, ev2) =>
         (Ok tt, st2, EvLog (LDeleting repository digest tags) :: ev2)
     | (Err e, st2, ev2) =>
         (Ok tt, st2,
          EvLog (LDeleting repository digest tags) :: ev2 ++ [EvLog (LError e)])
     | (Panic p, st2, ev2) =>
         (Panic p, st2, EvLog (LDeleting repository digest tags) :: ev2)
     | (OutOfFuel, st2, ev2) =>
         (OutOfFuel, st2, EvLog (LDeleting repository digest tags) :: ev2)
     end).

Lemma act_delete cfg repository digest tags (st1 : State E) ev :
  In ev (act cfg repository digest tags st1).2 ->
  isDelete ev = true ->
  Dry cfg = false
  /\ In (EvLog (LDeleting repository digest tags))
        (act cfg repository digest tags st1).2
  /\ exists req,
       ev = EvDo FromRegistryRequest req
       /\ URL req = host (api st1) +:+ "/v2/" +:+ repository
                         +:+ "/manifests/" +:+ digest.
Proof.
  intros Hin Hdel. destruct (Dry cfg).
  { destruct Hin as [<-|[]]. done. }
  split; [done|].
  pose proof (DeleteManifest_events repository digest st1) as Hshape.
  rewrite Forall_forall in Hshape.
  assert (In ev (DeleteManifest E repository digest st1).2
          /\ In (EvLog (LDeleting repository digest tags))
                (match DeleteManifest E repository digest st1 with
                 | (Ok _, st2, ev2) =>
                     (Ok tt, st2, EvLog (LDeleting repository digest tags) :: ev2)
                 | (Err e, st2, ev2) =>
                     (Ok tt, st2,
                      EvLog (LDeleting repository digest tags)
                      :: ev2 ++ [EvLog (LError e)])
                 | (Panic p, st2, ev2) =>
                     (Panic p, st2, EvLog (LDeleting repository digest tags) :: ev2)
                 | (OutOfFuel, st2, ev2) =>
                     (OutOfFuel, st2,
                      EvLog (LDeleting repository digest tags) :: ev2)
                 end).2) as [Hin2 Hlog].
  { destruct (DeleteManifest E repository digest st1)
      as [[[[]| e | p |] st2] ev2]; (split; [|by left]);
      destruct Hin as [<-|Hin]; try done.
    apply in_app_or in Hin as [?|[<-|[]]]; done. }
  split; [done|].
  apply list_elem_of_In, Hshape in Hin2.
  destruct ev as [[] req|]; try done.
  - destruct Hin2 as [_ Hu]. by exists req.
  - unfold isDelete in Hdel. by rewrite Hin2 in Hdel.
Qed.

(** X14: [pruneGroup] sends a DELETE request only in a live run and only
    for a group that is eligible, and it sends it to the manifest URL of
    the digest of that group, on the host of the client. *)
Theorem pruneGroup_deletes_only_eligible cfg repository digest tags
    (st : State E) ev :
  In ev (pruneGroup E cfg repository digest tags st).2 ->
  isDelete ev = true ->
  Dry cfg = false
  /\ eligible E cfg repository tags st
  /\ exists req,
       ev = EvDo FromRegistryRequest req
       /\ URL req = host (api st) +:+ "/v2/" +:+ repository
                         +:+ "/manifests/" +:+ digest.
Proof.
  intros Hin Hdel.
  assert (Dry cfg = false
          /\ In (EvLog (LDeleting repository digest tags))
                (pruneGroup E cfg repository digest tags st).2
          /\ exists req,
               ev = EvDo FromRegistryRequest req
               /\ URL req = host (api st) +:+ "/v2/" +:+ repository
                                 +:+ "/manifests/" +:+ digest)
    as (Hdry & Hlog & Hreq).
  { rewrite pruneGroup_unfold in Hin |- *.
    destruct (negb (allMatch tags (Tags cfg))); [done|].
    destruct (0 <? MinAge cfg); [|by apply act_delete].
    destruct tags as [|tag0 tags']; [done|].
    destruct (keeps_GetManifestCreated (host (api st)) (fun _ => true)
                repository tag0 st eq_refl) as [Hh _].
    pose proof (GetManifestCreated_harmless E repository tag0 st) as Hharm.
    rewrite Forall_forall in Hharm.
    assert (forall ev1 : list Event,
               (forall x, x ∈ ev1 -> isHarmlessRequest x = true) ->
               ~ In ev ev1) as Hnot.
    { intros ev1 Hall Hi. apply list_elem_of_In, Hall in Hi.
      apply andb_true_iff in Hi as [_ Hi]. apply negb_true_iff in Hi.
      congruence. }
    destruct (GetManifestCreated E repository tag0 st)
      as [[[created| e | p |] st1] ev1].
    - cbn [fst snd] in Hh, Hharm. destruct (_ <? created).
      { by apply Hnot in Hin. }
      pose proof (act_delete cfg repository digest (tag0 :: tags') st1 ev) as Hact.
      destruct (act cfg repository digest (tag0 :: tags') st1) as [[r st2] ev2].
      cbn [fst snd] in *.
      apply in_app_or in Hin as [Hin|Hin]; [by apply Hnot in Hin|].
      destruct (Hact Hin Hdel) as (? & ? & req & ? & Hu).
      split; [done|]. split; [apply in_or_app; by right|].
      exists req. by rewrite <- Hh.
    - cbn [fst snd] in *.
      apply in_app_or in Hin as [Hin|[<-|[]]]; [by apply Hnot in Hin|done].
    - by apply Hnot in Hin.
    - by apply Hnot in Hin. }
  split; [done|]. split; [|done].
  apply (pruneGroup_decided E cfg repository digest tags st repository digest tags).
  unfold decided. apply Exists_exists.
  exists (EvLog (LDeleting repository digest tags)).
  split; [by apply list_elem_of_In|by right].
Qed.
End DeleteFacts.

(** ** Which groups are deleted *)

Section DecisionFacts.
Import Trace.
Variable E : Env.
Variable rangeMap : gmap string (list string) -> list (string * list string).

Local Abbreviation hostIs h := (fun st : State E => host (api st) = h).

Local Abbreviation act cfg repository digest tags st :=
  (if Dry cfg
   then (Ok tt, st, [EvLog (LWouldDelete repository digest tags)])
   else
     match DeleteManifest E repository digest st with
     | (Ok _, st2, ev2) =>
         (Ok tt, st2, EvLog (LDeleting repository digest tags) :: ev2)
     | (Err e, st2, ev2) =>
         (Ok tt, st2,
          EvLog (LDeleting repository digest tags) :: ev2 ++ [EvLog (LError e)])
     | (Panic p, st2, ev2) =>
         (Panic p, st2, EvLog (LDeleting repository digest tags) :: ev2)
     | (OutOfFuel, st2, ev2) =>
         (OutOfFuel, st2, EvLog (LDeleting repository digest tags) :: ev2)
     end).

(** The passes of [main] leave the host of the client alone. *)
Lemma host_GetManifestCreated repository tag (st : State E) :
  host (api (GetManifestCreated E repository tag st).1.2) = host (api st).
Proof.
  by destruct (keeps_GetManifestCreated E (host (api st)) (fun _ => true)
                 repository tag st eq_refl).
Qed.

Lemma host_GetTagsIndexedByDigest repository (st : State E) :
  host (api (GetTagsIndexedByDigest E repository st).1.2) = host (api st).
Proof.
  by destruct (keeps_GetTagsIndexedByDigest E (host (api st)) (fun _ => true)
                 repository st eq_refl).
Qed.

Lemma host_DeleteManifest repository digest (st : State E) :
  host (api (DeleteManifest E repository digest st).1.2) = host (api st).
Proof.
  by destruct (keeps_DeleteManifest E (host (api st)) (fun _ => true)
                 repository digest eq_refl st eq_refl).
Qed.

Lemma host_pruneGroup cfg repository digest tags (st : State E) :
  host (api (pruneGroup E cfg repository digest tags st).1.2) = host (api st).
Proof.
  rewrite pruneGroup_unfold.
  assert (forall st0 : State E,
             host (api (act cfg repository digest tags st0).1.2) = host (api st0))
    as Hact.
  { intros st0. destruct (Dry cfg); [done|].
    pose proof (host_DeleteManifest repository digest st0) as Hd.
    by destruct (DeleteManifest E repository digest st0) as [[[[]| | |] st2] ev2]. }
  destruct (negb (allMatch tags (Tags cfg))); [done|].
  destruct (0 <? MinAge cfg); [|apply Hact].
  destruct tags as [|tag0 tags']; [done|].
  pose proof (host_GetManifestCreated repository tag0 st) as Hc.
  destruct (GetManifestCreated E repository tag0 st)
    as [[[created| e | p |] st1] ev1]; simpl in Hc; try done.
  destruct (_ <? created); [done|].
  specialize (Hact st1).
  destruct (act cfg repository digest (tag0 :: tags') st1) as [[r st2] ev2].
  simpl in *. congruence.
Qed.

Lemma host_pruneGroups cfg repository groups (st : State E) :
  host (api (pruneGroups E cfg repository groups st).1.2) = host (api st).
Proof.
  revert st. induction groups as [|[d t] groups IH]; intros st; [done|].
  rewrite pruneGroups_cons.
  pose proof (host_pruneGroup cfg repository d t st) as H1.
  destruct (pruneGroup E cfg repository d t st) as [[[[]| | |] st1] ev1];
    simpl in H1; try done.
  specialize (IH st1).
  destruct (pruneGroups E cfg repository groups st1) as [[r st2] ev2].
  simpl in *. congruence.
Qed.

(** When the request can be built, the first thing [DeleteManifest] does
    is to hand the DELETE request for the manifest to the HTTP client. *)
Lemma DeleteManifest_first repository digest (st : State E) :
  newRequestOk E "DELETE" (manifestURL (host (api st)) repository digest) = true ->
  exists req post,
    (DeleteManifest E repository digest st).2 = EvDo FromRegistryRequest req :: post
    /\ Method req = "DELETE"
    /\ URL req = manifestURL (host (api st)) repository digest.
Proof.
  intros Hok. unfold DeleteManifest, bind. rewrite request_unfold.
  rewrite (registryRequest_sends E "DELETE" _ manifestV2 _ st Hok eq_refl).
  cbn zeta.
  destruct (answer _) as [resp| e | p |]; simpl;
    try (eexists _, _; split; [reflexivity|by split]).
  destruct (StatusCode resp <? 300); simpl.
  { eexists _, _. split; [reflexivity|by split]. }
  destruct (andb _ _); simpl.
  2:{ eexists _, _. split; [reflexivity|by split]. }
  destruct (fetchBearerToken E resp _) as [[[token| e | p |] st2] ev2]; simpl;
    try (eexists _, _; split; [reflexivity|by split]).
  destruct (registryRequest E "DELETE" _ manifestV2 (withToken token st2))
    as [[r3 st3] ev3]; simpl.
  destruct (retried _ _ r3); simpl;
    eexists _, _; (split; [reflexivity|by split]).
Qed.

Lemma deletes_app h repository digest tags pre evs post :
  deletes h repository digest tags evs ->
  deletes h repository digest tags (pre ++ evs ++ post).
Proof.
  intros (pre' & req & post' & -> & Hm & Hu).
  exists (pre ++ pre'), req, (post' ++ post). split; [|done].
  by rewrite <- !List.app_assoc.
Qed.

Lemma deletes_logged h repository digest tags evs :
  deletes h repository digest tags evs ->
  decided repository digest tags evs.
Proof.
  intros (pre & req & post & -> & _). unfold decided.
  apply Exists_app. right. apply Exists_cons. left. by right.
Qed.

(** In a live run an eligible group is deleted. *)
Lemma pruneGroup_live_deletes cfg repository digest tags (st : State E) :
  Dry cfg = false ->
  newRequestOk E "DELETE" (manifestURL (host (api st)) repository digest) = true ->
  eligible E cfg repository tags st ->
  deletes (host (api st)) repository digest tags
          (pruneGroup E cfg repository digest tags st).2.
Proof.
  intros Hdry Hok [Hall Hage]. rewrite pruneGroup_unfold, Hall, Hdry. simpl.
  assert (forall st0 : State E,
             host (api st0) = host (api st) ->
             deletes (host (api st)) repository digest tags
               (match DeleteManifest E repository digest st0 with
                | (Ok _, st2, ev2) =>
                    (Ok tt, st2, EvLog (LDeleting repository digest tags) :: ev2)
                | (Err e, st2, ev2) =>
                    (Ok tt, st2,
                     EvLog (LDeleting repository digest tags)
                     :: ev2 ++ [EvLog (LError e)])
                | (Panic p, st2, ev2) =>
                    (Panic p, st2, EvLog (LDeleting repository digest tags) :: ev2)
                | (OutOfFuel, st2, ev2) =>
                    (OutOfFuel, st2, EvLog (LDeleting repository digest tags) :: ev2)
                end).2) as Hact.
  { intros st0 Hh. rewrite <- Hh in Hok.
    destruct (DeleteManifest_first repository digest st0 Hok)
      as (req & post & Hev & Hm & Hu).
    rewrite Hh in Hu.
    destruct (DeleteManifest E repository digest st0) as [[[[]| e | p |] st2] ev2];
      simpl in *; subst ev2.
    - by exists [], req, post.
    - by exists [], req, (post ++ [EvLog (LError e)]).
    - by exists [], req, post.
    - by exists [], req, post. }
  destruct (0 <? MinAge cfg) eqn:Hmin; [|by apply Hact].
  destruct Hage as (tag0 & tags' & created & st1 & ev1 & -> & Hc & Hle); [lia|].
  pose proof (host_GetManifestCreated repository tag0 st) as Hh.
  rewrite Hc in *. simpl in Hh.
  assert ((Now E (world st1) + -1 * MinAge cfg <? created) = false) as -> by lia.
  specialize (Hact st1 Hh).
  destruct (match DeleteManifest E repository digest st1 with
            | (Ok _, st2, ev2) => _ | (Err e, st2, ev2) => _
            | (Panic p, st2, ev2) => _ | (OutOfFuel, st2, ev2) => _ end)
    as [[r st2] ev2].
  simpl in *. rewrite <- (app_nil_r ev2). by apply deletes_app.
Qed.

(** The events of the pass over a group in the events of the pass over
    the groups. *)
Lemma pruneGroups_events cfg repository before digest tags after
    (st st2 : State E) ev2 :
  pruneGroups E cfg repository before st = (Ok tt, st2, ev2) ->
  exists rest,
    (pruneGroups E cfg repository (before ++ (digest, tags) :: after) st).2
    = ev2 ++ (pruneGroup E cfg repository digest tags st2).2 ++ rest.
Proof.
  revert st ev2. induction before as [|[d0 t0] before IH]; intros st ev2 Hb.
  - injection Hb as <- <-. simpl app. rewrite pruneGroups_cons.
    destruct (pruneGroup E cfg repository digest tags st) as [[[[]| | |] st1] ev1];
      simpl; try (exists []; by rewrite app_nil_r).
    destruct (pruneGroups E cfg repository after st1) as [[r st3] ev3].
    by exists ev3.
  - rewrite pruneGroups_cons in Hb. simpl app. rewrite pruneGroups_cons.
    destruct (pruneGroup E cfg repository d0 t0 st) as [[[[]| | |] st1] ev1];
      try done.
    destruct (pruneGroups E cfg repository before st1) as [[r3 st3] ev3] eqn:H3.
    injection Hb as -> -> <-.
    destruct (IH st1 ev3 H3) as [rest Hrest].
    destruct (pruneGroups E cfg repository (before ++ (digest, tags) :: after) st1)
      as [[r4 st4] ev4].
    simpl in *. exists rest. rewrite Hrest. by rewrite <- !List.app_assoc.
Qed.

(** A DELETE request of the pass over a group follows the line that
    announces the deletion of that group and goes to the manifest of its
    digest. *)
Lemma pruneGroup_delete_logged cfg repository digest tags (st : State E) ev :
  In ev (pruneGroup E cfg repository digest tags st).2 ->
  isDelete ev = true ->
  Dry cfg = false
  /\ decided repository digest tags (pruneGroup E cfg repository digest tags st).2
  /\ exists req,
       ev = EvDo FromRegistryRequest req
       /\ URL req = manifestURL (host (api st)) repository digest.
Proof.
  intros Hin Hdel.
  assert (forall (st0 : State E) pre,
             host (api st0) = host (api st) ->
             In ev (act cfg repository digest tags st0).2 ->
             Dry cfg = false
             /\ decided repository digest tags
                        (pre ++ (act cfg repository digest tags st0).2)
             /\ exists req,
                  ev = EvDo FromRegistryRequest req
                  /\ URL req = manifestURL (host (api st)) repository digest)
    as Hact.
  { intros st0 pre Hh Hi. destruct (Dry cfg).
    { destruct Hi as [<-|[]]. done. }
    split; [done|].
    pose proof (DeleteManifest_events E repository digest st0) as Hshape.
    rewrite Forall_forall in Hshape.
    destruct (DeleteManifest E repository digest st0) as [[[[]| e | p |] st2] ev2];
      simpl in *.
    all: split; [apply Exists_app; right; apply Exists_cons; left; by right|].
    all: destruct Hi as [<-|Hi]; [done|].
    all: try (apply in_app_or in Hi as [Hi|[<-|[]]]; [|done]).
    all: apply list_elem_of_In, Hshape in Hi.
    all: destruct ev as [[] req|];
      [destruct Hi as [_ Hu]; exists req; split; [done|];
       unfold manifestURL; by rewrite <- Hh
      |unfold isDelete in Hdel; by rewrite Hi in Hdel
      |done]. }
  rewrite pruneGroup_unfold in Hin |- *.
  destruct (negb (allMatch tags (Tags cfg))); [done|].
  destruct (0 <? MinAge cfg); [|by apply (Hact st [])].
  destruct tags as [|tag0 tags']; [done|].
  pose proof (host_GetManifestCreated repository tag0 st) as Hh.
  pose proof (GetManifestCreated_harmless E repository tag0 st) as Hharm.
  rewrite Forall_forall in Hharm.
  assert (forall ev1 : list Event,
             (forall x, x ∈ ev1 -> isHarmlessRequest x = true) ->
             ~ In ev ev1) as Hnot.
  { intros ev1 Hall Hi. apply list_elem_of_In, Hall in Hi.
    apply andb_true_iff in Hi as [_ Hi]. apply negb_true_iff in Hi.
    congruence. }
  destruct (GetManifestCreated E repository tag0 st)
    as [[[created| e | p |] st1] ev1].
  - cbn [fst snd] in Hh, Hharm. destruct (_ <? created).
    { by apply Hnot in Hin. }
    specialize (Hact st1 ev1 Hh).
    destruct (act cfg repository digest (tag0 :: tags') st1) as [[r st2] ev2].
    cbn [fst snd] in *.
    apply in_app_or in Hin as [Hin|Hin]; [by apply Hnot in Hin|]. by apply Hact.
  - cbn [fst snd] in *.
    apply in_app_or in Hin as [Hin|[<-|[]]]; [by apply Hnot in Hin|done].
  - by apply Hnot in Hin.
  - by apply Hnot in Hin.
Qed.

Lemma pruneGroups_delete_logged cfg repository groups (st : State E) ev :
  In ev (pruneGroups E cfg repository groups st).2 ->
  isDelete ev = true ->
  Dry cfg = false
  /\ exists digest tags req,
       decided repository digest tags (pruneGroups E cfg repository groups st).2
       /\ ev = EvDo FromRegistryRequest req
       /\ URL req = manifestURL (host (api st)) repository digest.
Proof.
  revert st. induction groups as [|[d0 t0] groups IH]; intros st Hin Hdel; [done|].
  rewrite pruneGroups_cons in Hin |- *.
  pose proof (pruneGroup_delete_logged cfg repository d0 t0 st ev) as H1.
  pose proof (host_pruneGroup cfg repository d0 t0 st) as Hh.
  destruct (pruneGroup E cfg repository d0 t0 st) as [[r1 st1] ev1].
  cbn [fst snd] in *.
  assert (In ev ev1 ->
          Dry cfg = false
          /\ exists digest tags req,
               decided repository digest tags ev1
               /\ ev = EvDo FromRegistryRequest req
               /\ URL req = manifestURL (host (api st)) repository digest) as Hhead.
  { intros Hi. destruct (H1 Hi Hdel) as (Hdry & Hdec & req & ? & ?).
    split; [done|]. by exists d0, t0, req. }
  destruct r1 as [[]| | |]; try (by apply Hhead).
  specialize (IH st1).
  destruct (pruneGroups E cfg repository groups st1) as [[r2 st2] ev2].
  cbn [fst snd] in *.
  apply in_app_or in Hin as [Hin|Hin].
  - destruct (Hhead Hin) as (Hdry & d & t & req & Hdec & ? & ?).
    split; [done|]. exists d, t, req. split; [|done].
    unfold decided in *. apply Exists_app. by left.
  - destruct (IH Hin Hdel) as (Hdry & d & t & req & Hdec & ? & Hu).
    split; [done|]. exists d, t, req. split; [|by rewrite <- Hh].
    unfold decided in *. apply Exists_app. by right.
Qed.

(** [pruneRepository], case by case. *)
Lemma pruneRepository_unfold cfg repository (st : State E) :
  pruneRepository E rangeMap cfg repository st =
  if negb (Repos cfg repository) then (Ok tt, st, [])
  else
    match GetTagsIndexedByDigest E repository st with
    | (Ok m, st1, ev1) =>
        let '(r, st2, ev2) := pruneGroups E cfg repository (rangeMap m) st1 in
        (r, st2, EvLog (LInspecting repository) :: ev1 ++ ev2)
    | (Err e, st1, ev1) =>
        (Ok tt, st1, EvLog (LInspecting repository) :: ev1 ++ [EvLog (LError e)])
    | (Panic p, st1, ev1) => (Panic p, st1, EvLog (LInspecting repository) :: ev1)
    | (OutOfFuel, st1, ev1) =>
        (OutOfFuel, st1, EvLog (LInspecting repository) :: ev1)
    end.
Proof.
  unfold pruneRepository. destruct (negb (Repos cfg repository)); [done|].
  unfold bind at 1, logPrint at 1. unfold bind at 1, try at 1.
  destruct (GetTagsIndexedByDigest E repository st) as [[[m| e | p |] st1] ev1];
    try done.
  by destruct (pruneGroups E cfg repository (rangeMap m) st1) as [[r st2] ev2].
Qed.

(** C1, as amended.  In the pass over one repository, for a manifest
    group (a digest with its tags): the group is decided upon, that is
    announced for deletion or reported, if and only if it is due, that is
    the repository name matches the repository filter, the loop reaches
    the group, every tag of the group matches the tag filter and, when a
    minimum age is set, the creation time fetched through the first tag
    of the group is not after the current time minus the minimum age.  In
    a dry run the group is reported exactly when it is due.  In a live
    run, when the DELETE request for the digest can be built, the group
    is deleted (the announcing line is followed at once by the DELETE
    request for the manifest of the digest) exactly when it is due.  And
    every DELETE request of the pass is sent in a live run and goes to
    the manifest of a digest whose group is due. *)
Theorem pruneRepository_decides cfg repository (st : State E) digest tags :
  let evs := (pruneRepository E rangeMap cfg repository st).2 in
  (decided repository digest tags evs
   <-> due E rangeMap cfg repository digest tags st)
  /\ (Dry cfg = true ->
      (reports repository digest tags evs
       <-> due E rangeMap cfg repository digest tags st))
  /\ (Dry cfg = false ->
      newRequestOk E "DELETE" (manifestURL (host (api st)) repository digest)
      = true ->
      (deletes (host (api st)) repository digest tags evs
       <-> due E rangeMap cfg repository digest tags st))
  /\ (forall ev,
         In ev evs -> isDelete ev = true ->
         Dry cfg = false
         /\ exists req digest' tags',
              ev = EvDo FromRegistryRequest req
              /\ URL req = manifestURL (host (api st)) repository digest'
              /\ due E rangeMap cfg repository digest' tags' st).
Proof.
  intros evs.
  assert (forall d t, decided repository d t evs
                      <-> due E rangeMap cfg repository d t st) as Hdec.
  { intros d t. apply pruneRepository_decided. }
  split; [apply Hdec|]. split; [|split].
  - intros Hdry. rewrite <- Hdec. unfold reports, decided. split.
    + intros Hin. apply Exists_exists. eexists. split; [by apply list_elem_of_In|].
      by left.
    + intros (ev & Hin & [->| ->])%Exists_exists; [by apply list_elem_of_In|].
      pose proof (pruneRepository_dry E rangeMap cfg repository Hdry st) as Hno.
      rewrite Forall_forall in Hno. by destruct (Hno _ Hin).
  - intros Hdry Hok. split.
    + intros Hd. apply Hdec. by apply (deletes_logged (host (api st))).
    + intros (Hm & m & st1 & ev1 & before & after & st2 & ev2
              & H1 & Hrange & Hb & Hel).
      subst evs. rewrite pruneRepository_unfold, Hm, H1, Hrange. simpl.
      pose proof (host_GetTagsIndexedByDigest repository st) as Hh1.
      rewrite H1 in Hh1. simpl in Hh1.
      pose proof (host_pruneGroups cfg repository before st1) as Hh2.
      rewrite Hb in Hh2. simpl in Hh2.
      destruct (pruneGroups_events cfg repository before digest tags after
                  st1 st2 ev2 Hb) as [rest Hrest].
      assert (host (api st2) = host (api st)) as Hh by congruence.
      rewrite <- Hh in Hok.
      pose proof (pruneGroup_live_deletes cfg repository digest tags st2 Hdry Hok Hel)
        as Hdel.
      rewrite Hh in Hdel.
      destruct (pruneGroups E cfg repository (before ++ (digest, tags) :: after) st1)
        as [[r3 st3] ev3].
      simpl in *. subst ev3.
      apply (deletes_app _ _ _ _ (EvLog (LInspecting repository) :: ev1 ++ ev2)
               _ rest) in Hdel.
      revert Hdel. simpl. by rewrite <- !List.app_assoc.
  - intros ev Hin Hdel.
    assert (evs = (pruneRepository E rangeMap cfg repository st).2) as Hevs by done.
    clearbody evs. rewrite pruneRepository_unfold in Hevs.
    destruct (Repos cfg repository) eqn:Hm; simpl in Hevs; [|by subst evs].
    pose proof (GetTagsIndexedByDigest_harmless E repository st) as Hharm.
    pose proof (host_GetTagsIndexedByDigest repository st) as Hh1.
    destruct (GetTagsIndexedByDigest E repository st) as [[r1 st1] ev1].
    simpl in Hharm, Hh1. rewrite Forall_forall in Hharm.
    assert (~ In ev ev1) as Hnot.
    { intros Hi. apply list_elem_of_In, Hharm in Hi.
      apply andb_true_iff in Hi as [_ Hi]. apply negb_true_iff in Hi.
      congruence. }
    destruct r1 as [m| e | p |].
    + pose proof (pruneGroups_delete_logged cfg repository (rangeMap m) st1 ev)
        as Hg.
      destruct (pruneGroups E cfg repository (rangeMap m) st1) as [[r2 st2] ev2].
      simpl in *. subst evs. destruct Hin as [<-|Hin]; [done|].
      apply in_app_or in Hin as [Hin|Hin]; [done|].
      destruct (Hg Hin Hdel) as (Hdry & d & t & req & Hd & -> & Hu).
      split; [done|]. exists req, d, t. split; [done|].
      split; [by rewrite <- Hh1|].
      apply Hdec. unfold decided in *. apply Exists_cons. right.
      apply Exists_app. by right.
    + simpl in Hevs. subst evs. destruct Hin as [<-|Hin]; [done|].
      apply in_app_or in Hin as [Hin|[<-|[]]]; done.
    + simpl in Hevs. subst evs. by destruct Hin as [<-|Hin].
    + simpl in Hevs. subst evs. by destruct Hin as [<-|Hin].
Qed.
End DecisionFacts.

(** ** Which panics can occur *)

Section PanicFacts.
Variable E : Env.
Variable rangeMap : gmap string (list string) -> list (string * list string).

Lemma panicsOnly_bind {A B} F (m : M E A) (k : A -> M E B) :
  ends E (panicsOnly F) m -> (forall a, ends E (panicsOnly F) (k a)) ->
  ends E (panicsOnly F) (bind E m k).
Proof.
  intros Hm Hk st. unfold bind. specialize (Hm st).
  destruct (m st) as [[[a| | |] st1] ev1]; simpl in *; try done.
  specialize (Hk a st1). by destruct (k a st1) as [[r st2] ev2].
Qed.

Lemma panicsOnly_try {A} F (m : M E A) :
  ends E (panicsOnly F) m -> ends E (panicsOnly F) (try E m).
Proof.
  intros Hm st. unfold try. specialize (Hm st).
  by destruct (m st) as [[[a| | |] st1] ev1].
Qed.

Lemma panicsOnly_weaken {A} (F G : panic -> Prop) (m : M E A) :
  (forall p, F p -> G p) -> ends E (panicsOnly F) m -> ends E (panicsOnly G) m.
Proof.
  intros H Hm st. specialize (Hm st). destruct ((m st).1.1); simpl in *; auto.
Qed.

Lemma panicsOnly_decodeBody {A} F (into : json -> option A) resp :
  ends E (panicsOnly F) (decodeBody E into resp).
Proof.
  intros st. unfold decodeBody. destruct (jsonDecode E _) as [j|]; [|done].
  by destruct (into j).
Qed.

(** The slice expressions of [tokenRequestURLFromResponse] and of
    [nextPagePath] are the only sources of panics in pure code. *)
Lemma tokenRequestURL_panics deniedResponse :
  panicsOnly (fun p => p = PanicSliceBounds)
             (tokenRequestURLFromResponse E deniedResponse).
Proof.
  unfold tokenRequestURLFromResponse.
  destruct (slice _ 0 7); [|done]. destruct (negb _); [done|].
  by repeat (destruct (_ !! _); [|done]).
Qed.

Lemma nextPagePath_panics resp :
  panicsOnly (fun p => p = PanicSliceBounds) (nextPagePath resp).
Proof.
  unfold nextPagePath. destruct (String.eqb _ ""); [done|].
  by destruct (slice _ _ _).
Qed.

Lemma registryRequest_panics method path version :
  version = manifestV1 \/ version = manifestV2 ->
  ends E (panicsOnly (fun _ => False)) (registryRequest E method path version).
Proof.
  intros Hv st. unfold registryRequest, bind, getAPI, fail, raise, clientDo.
  destruct (newRequestOk E method _); simpl; [|done].
  assert (exists ct, manifestContentType !! version = Some ct) as [ct ->].
  { destruct Hv as [-> | ->]; by eexists. }
  simpl. by destruct (Do E _ (world st)) as [[resp|msg] w].
Qed.

Lemma fetchBearerToken_panics resp :
  ends E (panicsOnly (fun p => p = PanicSliceBounds)) (fetchBearerToken E resp).
Proof.
  intros st. unfold fetchBearerToken, bind, lift, getAPI, fail, clientDo.
  pose proof (tokenRequestURL_panics resp) as Hu.
  destruct (tokenRequestURLFromResponse E resp) as [u| | |]; try done.
  destruct (newRequestOk E "GET" u); simpl; [|done].
  destruct (Do E _ (world st)) as [[resp'|msg] w]; simpl; [|done].
  destruct (300 <=? StatusCode resp'); simpl; [done|].
  pose proof (panicsOnly_decodeBody (fun p => p = PanicSliceBounds)
                (Json.token (keyFold E)) resp'
                {| api := api st; world := w |}) as Hd.
  by destruct (decodeBody E _ resp' _) as [[r st2] ev2].
Qed.

Lemma request_panics method path version :
  version = manifestV1 \/ version = manifestV2 ->
  ends E (panicsOnly (fun p => p = PanicSliceBounds))
       (request E method path version).
Proof.
  intros Hv st. rewrite request_unfold.
  pose proof (registryRequest_panics method path version Hv st) as H1.
  destruct (registryRequest E method path version st) as [[r1 st1] ev1].
  destruct r1 as [resp| | |]; try done.
  destruct (StatusCode resp <? 300); [done|].
  destruct (andb _ _); [|done].
  pose proof (fetchBearerToken_panics resp st1) as H2.
  destruct (fetchBearerToken E resp st1) as [[r2 st2] ev2].
  destruct r2 as [token| | |]; try done.
  pose proof (registryRequest_panics method path version Hv (withToken token st2))
    as H3.
  destruct (registryRequest E method path version (withToken token st2))
    as [[r3 st3] ev3].
  simpl in *. destruct r3 as [resp3| | |]; simpl; try done.
  by destruct (300 <=? StatusCode resp3).
Qed.

Lemma GetTagsIndexedByDigest_panics repository :
  ends E (panicsOnly (fun p => p = PanicSliceBounds))
       (GetTagsIndexedByDigest E repository).
Proof.
  apply panicsOnly_bind.
  - apply panicsOnly_bind; [apply request_panics; by right|]. intros resp.
    apply panicsOnly_decodeBody.
  - intros tags. generalize (∅ : gmap string (list string)).
    induction tags as [|tag tags IH]; intros result; simpl; [by intros st|].
    apply panicsOnly_bind; [|intros digest; apply IH].
    apply panicsOnly_bind; [apply request_panics; by right|]. by intros resp st.
Qed.

Lemma GetRepositories_panics fuel :
  ends E (panicsOnly (fun p => p = PanicSliceBounds)) (GetRepositories E fuel).
Proof.
  unfold GetRepositories. generalize "/v2/_catalog" ([] : list string).
  induction fuel as [|fuel IH]; intros path repositories; simpl.
  - by destruct (String.eqb path ""); intros st.
  - destruct (String.eqb path ""); [by intros st|].
    apply panicsOnly_bind; [apply request_panics; by right|]. intros resp.
    apply panicsOnly_bind; [apply panicsOnly_decodeBody|]. intros catalog.
    apply panicsOnly_bind; [intros st; apply nextPagePath_panics|]. intros next.
    apply panicsOnly_bind; [|intros _; apply IH].
    intros st. unfold bodyClose. by destruct (CloseErr _).
Qed.

Lemma GetManifestCreated_panics repository tag :
  ends E (panicsOnly (fun p => p = PanicSliceBounds \/ p = PanicIndexOutOfRange))
       (GetManifestCreated E repository tag).
Proof.
  apply panicsOnly_bind; [|by intros dc st].
  apply panicsOnly_bind.
  { eapply panicsOnly_weaken; [|apply request_panics; by left]. by left. }
  intros resp. apply panicsOnly_bind; [apply panicsOnly_decodeBody|].
  intros [|first history].
  - intros st. by right.
  - apply panicsOnly_bind; [|by intros created st].
    intros st. destruct (jsonUnmarshal E first) as [j|]; [|done].
    unfold ofOption. by destruct (Json.historyItem _ _ j).
Qed.

Lemma DeleteManifest_panics repository digest :
  ends E (panicsOnly (fun p => p = PanicSliceBounds))
       (DeleteManifest E repository digest).
Proof.
  apply panicsOnly_bind; [apply request_panics; by right|]. by intros resp st.
Qed.

Lemma pruneGroup_panics cfg repository digest tags :
  ends E (panicsOnly (fun p => p = PanicSliceBounds \/ p = PanicIndexOutOfRange))
       (pruneGroup E cfg repository digest tags).
Proof.
  unfold pruneGroup. destruct (negb (allMatch tags (Tags cfg))); [by intros st|].
  apply panicsOnly_bind.
  - destruct (0 <? MinAge cfg); [|by intros st].
    destruct tags as [|tag0 tags']; [intros st; by right|].
    apply panicsOnly_bind; [apply panicsOnly_try, GetManifestCreated_panics|].
    intros [created|err].
    + apply panicsOnly_bind; [by intros st|]. intros now.
      by destruct (_ <? created); intros st.
    + apply panicsOnly_bind; by intros st.
  - intros oldEnough. destruct (negb oldEnough); [by intros st|].
    destruct (Dry cfg); [by intros st|].
    apply panicsOnly_bind; [by intros st|]. intros _.
    apply panicsOnly_bind.
    { apply panicsOnly_try. eapply panicsOnly_weaken; [|apply DeleteManifest_panics].
      by left. }
    by intros [[]|err] st.
Qed.

(** X16: the panic for an invalid manifest version cannot occur: the
    operations of the client only use the two versions of the table.
    Listing repositories, grouping tags and deleting a manifest can only
    panic on a slice expression (a challenge shorter than seven bytes, a
    Link header without a proper bracket pair); fetching the creation
    time and a whole run of [main] can also panic on an index (the empty
    history, or the first tag of a group without tags). *)
Theorem client_panics_are_slices_or_indices :
  (forall fuel,
      ends E (panicsOnly (fun p => p = PanicSliceBounds)) (GetRepositories E fuel))
  /\ (forall repository,
         ends E (panicsOnly (fun p => p = PanicSliceBounds))
              (GetTagsIndexedByDigest E repository))
  /\ (forall repository digest,
         ends E (panicsOnly (fun p => p = PanicSliceBounds))
              (DeleteManifest E repository digest))
  /\ (forall repository tag,
         ends E (panicsOnly (fun p => p = PanicSliceBounds
                                      \/ p = PanicIndexOutOfRange))
              (GetManifestCreated E repository tag))
  /\ (forall cfg fuel w,
         panicsOnly (fun p => p = PanicSliceBounds \/ p = PanicIndexOutOfRange)
                    (main E rangeMap cfg fuel w).1.1).
Proof.
  split; [apply GetRepositories_panics|].
  split; [apply GetTagsIndexedByDigest_panics|].
  split; [apply DeleteManifest_panics|].
  split; [apply GetManifestCreated_panics|].
  intros cfg fuel w. unfold main.
  generalize (mkState (NewAPI (Host cfg)) w).
  change (ends E (panicsOnly (fun p => p = PanicSliceBounds
                                       \/ p = PanicIndexOutOfRange))
               (mainBody E rangeMap cfg fuel)).
  unfold mainBody.
  apply panicsOnly_bind; [by intros st|]. intros _.
  apply panicsOnly_bind; [by intros st|]. intros _.
  apply panicsOnly_bind; [by intros st|]. intros _.
  apply panicsOnly_bind; [by destruct (negb _); intros st|]. intros _.
  apply panicsOnly_bind.
  { apply panicsOnly_try. eapply panicsOnly_weaken; [|apply GetRepositories_panics].
    by left. }
  intros [repositories|err]; [|apply panicsOnly_bind; by intros st].
  apply panicsOnly_bind; [|by intros _ st].
  induction repositories as [|repository repositories IH]; simpl; [by intros st|].
  apply panicsOnly_bind; [|intros _; apply IH].
  unfold pruneRepository. destruct (negb (Repos cfg repository)); [by intros st|].
  apply panicsOnly_bind; [by intros st|]. intros _.
  apply panicsOnly_bind.
  { apply panicsOnly_try.
    eapply panicsOnly_weaken; [|apply GetTagsIndexedByDigest_panics]. by left. }
  intros [m|err]; [|by intros st].
  induction (rangeMap m) as [|[digest tags] groups IHg]; simpl; [by intros st|].
  apply panicsOnly_bind; [apply pruneGroup_panics|]. intros _. apply IHg.
Qed.
End PanicFacts.

(** ** The further properties on the sample registries *)

Import SampleMore.

Lemma tokenRequestURL_bearer_challenge_witness :
  tokenRequestURLFromResponse openEnv (denied challenge) = Ok tokenURL.
Proof.
  apply (tokenRequestURL_bearer_challenge openEnv (denied challenge)
           ("realm", "http://auth/token")
           [("", ("service", "registry")); ("", ("scope", "repository:app:pull"))]
           "http://auth/token" "registry" "repository:app:pull");
    reflexivity.
Defined.

Lemma request_retries_only_after_challenge_witness :
  exists resp st1 ev1,
    registryRequest guardedEnv "HEAD" "/v2/app/manifests/v1" manifestV2
                    (start guardedEnv tt) = (Ok resp, st1, ev1)
    /\ StatusCode resp = 401
    /\ Header_Get (Header resp) wwwAuthenticateHeader <> "".
Proof.
  pose proof (request_retries_only_after_challenge guardedEnv "HEAD"
                "/v2/app/manifests/v1" manifestV2 (start guardedEnv tt)) as H.
  destruct (request guardedEnv "HEAD" "/v2/app/manifests/v1" manifestV2
              (start guardedEnv tt)) as [[r st'] evs] eqn:Heq.
  apply H. left.
  apply (f_equal snd) in Heq. simpl in Heq. rewrite <- Heq.
  vm_compute. reflexivity.
Defined.

Lemma request_fails_without_retry_witness :
  let res := registryRequest openEnv "GET" "/v2/web/tags/list" manifestV2
               (start openEnv tt) in
  request openEnv "GET" "/v2/web/tags/list" manifestV2 (start openEnv tt)
  = (Err (ErrStatus 404 "GET" "/v2/web/tags/list"), res.1.2, res.2).
Proof.
  intros res.
  apply (proj1 (request_fails_without_retry openEnv "GET" "/v2/web/tags/list"
                  manifestV2 (start openEnv tt) notFound res.1.2 res.2
                  eq_refl ltac:(vm_compute; discriminate))).
  left. vm_compute. discriminate.
Defined.

Lemma GetTagsIndexedByDigest_no_empty_group_witness :
  exists tags st1 ev1,
    GetTags openEnv "app" (start openEnv tt) = (Ok tags, st1, ev1)
    /\ forall digest group,
         (<["sha256:aaa" := ["v1"; "v2"]]> (<["sha256:bbb" := ["latest"]]> ∅)
          : gmap string (list string)) !! digest = Some group ->
         group <> [] /\ (forall t, In t group -> In t tags).
Proof.
  apply (GetTagsIndexedByDigest_no_empty_group openEnv "app" (start openEnv tt)
           (<["sha256:aaa" := ["v1"; "v2"]]> (<["sha256:bbb" := ["latest"]]> ∅))
           (GetTagsIndexedByDigest openEnv "app" (start openEnv tt)).1.2
           (GetTagsIndexedByDigest openEnv "app" (start openEnv tt)).2).
  vm_compute. reflexivity.
Defined.

Lemma GetTagsIndexedByDigest_fails_as_a_whole_witness :
  (GetTagsIndexedByDigest withoutLatestEnv "app" (start withoutLatestEnv tt)).1.1
  = Err (ErrStatus 404 "HEAD" "/v2/app/manifests/latest").
Proof.
  erewrite (GetTagsIndexedByDigest_fails_as_a_whole withoutLatestEnv "app"
              (start withoutLatestEnv tt) ["v1"; "v2"] "latest" []).
  - reflexivity.
  - reflexivity.
  - eapply resolved_cons; [reflexivity|].
    eapply resolved_cons; [reflexivity|]. apply resolved_nil.
  - reflexivity.
Defined.

Lemma nextPagePath_unpaired_brackets_witness :
  nextPagePath {| StatusCode := 200; Header := hdr "Link" "/v2/_catalog?last=app>";
                  Body := body catalog1Text |}
  = Ok "/v2/_catalog?last=app".
Proof.
  apply (proj1 (nextPagePath_unpaired_brackets _) "/v2/_catalog?last=app" "");
    reflexivity.
Defined.

Lemma main_fails_only_on_catalog_witness :
  (main openEnv inOrder elsewhere 2 tt).1.1
  = Err (ErrStatus 404 "GET" "/v2/_catalog").
Proof.
  apply (proj1 (main_fails_only_on_catalog openEnv inOrder elsewhere 2 tt)).
  reflexivity.
Defined.

Lemma pruneGroup_deletes_only_eligible_witness :
  Dry (config 30 false) = false
  /\ eligible openEnv (config 30 false) "app" ["v1"; "v2"] (start openEnv tt)
  /\ exists req,
       EvDo FromRegistryRequest
         {| Method := "DELETE"; URL := "http://r/v2/app/manifests/sha256:aaa";
            QueryN := None;
            Accept := Some "application/vnd.docker.distribution.manifest.v2+json";
            Authorization := None |}
       = EvDo FromRegistryRequest req
       /\ URL req = host (api (start openEnv tt)) +:+ "/v2/" +:+ "app"
                         +:+ "/manifests/" +:+ "sha256:aaa".
Proof.
  apply (pruneGroup_deletes_only_eligible openEnv (config 30 false) "app"
           "sha256:aaa" ["v1"; "v2"] (start openEnv tt)).
  - vm_compute. repeat (first [left; reflexivity | right]).
  - reflexivity.
Defined.

Lemma request_keeps_configuration_witness :
  api (request guardedEnv "HEAD" "/v2/app/manifests/v1" manifestV2
               (start guardedEnv tt)).1.2
  = setBearerToken "tok" (NewAPI "http://r").
Proof.
  pose proof (request_keeps_configuration guardedEnv "HEAD" "/v2/app/manifests/v1"
                manifestV2 (start guardedEnv tt)) as H.
  destruct (request guardedEnv "HEAD" "/v2/app/manifests/v1" manifestV2
              (start guardedEnv tt)) as [[r st'] evs].
  destruct H as [_ H].
  apply (H (denied challenge) (start guardedEnv tt)
           [EvDo FromRegistryRequest
              {| Method := "HEAD"; URL := "http://r/v2/app/manifests/v1";
                 QueryN := None;
                 Accept := Some "application/vnd.docker.distribution.manifest.v2+json";
                 Authorization := None |}]
           "tok" (start guardedEnv tt)
           [EvDo FromFetchBearerToken
              {| Method := "GET"; URL := tokenURL; QueryN := None;
                 Accept := None; Authorization := None |}]
           eq_refl eq_refl).
  - discriminate.
  - reflexivity.
Defined.

Lemma pruneRepository_decides_witness :
  deletes "http://r" "app" "sha256:aaa" ["v1"; "v2"]
          (pruneRepository openEnv inOrder (config 30 false) "app"
                           (start openEnv tt)).2.
Proof.
  destruct (pruneRepository_decides openEnv inOrder (config 30 false) "app"
              (start openEnv tt) "sha256:aaa" ["v1"; "v2"])
    as (Hdec & _ & Hlive & _).
  apply (Hlive eq_refl eq_refl). apply Hdec.
  unfold decided. apply Exists_exists.
  exists (EvLog (LDeleting "app" "sha256:aaa" ["v1"; "v2"])).
  split; [|by right]. apply list_elem_of_In. vm_compute.
  repeat (first [left; reflexivity | right]).
Defined.

(** A group whose manifest was created exactly the minimum age ago is
    deleted, although it is not strictly older than that: the repository
    and the tags match, the creation time is 960, and the current time
    minus the minimum age is 960 as well; the deletion is announced and
    the DELETE request for the manifest is sent. *)
Lemma pruneGroup_deletes_at_minimum_age :
  let cfg := config 40 false in
  let st := start openEnv tt in
  let delete :=
    {| Method := "DELETE"; URL := "http://r/v2/app/manifests/sha256:aaa";
       QueryN := None;
       Accept := Some "application/vnd.docker.distribution.manifest.v2+json";
       Authorization := None |} in
  Repos cfg "app" = true
  /\ allMatch ["v1"; "v2"] (Tags cfg) = true
  /\ (GetManifestCreated openEnv "app" "v1" st).1.1 = Ok 960
  /\ Now openEnv tt - MinAge cfg = 960
  /\ (pruneGroup openEnv cfg "app" "sha256:aaa" ["v1"; "v2"] st).2
     = (GetManifestCreated openEnv "app" "v1" st).2
       ++ [EvLog (LDeleting "app" "sha256:aaa" ["v1"; "v2"]);
           EvDo FromRegistryRequest delete]
  /\ deletes "http://r" "app" "sha256:aaa" ["v1"; "v2"]
             (pruneGroup openEnv cfg "app" "sha256:aaa" ["v1"; "v2"] st).2
  /\ In (EvLog (LDeleting "app" "sha256:aaa" ["v1"; "v2"]))
        (main openEnv inOrder cfg 2 tt).2
  /\ In (EvDo FromRegistryRequest delete) (main openEnv inOrder cfg 2 tt).2
  /\ ~ strictlyOlder openEnv cfg "app" ["v1"; "v2"] st.
Proof.
  intros cfg st delete. do 5 (split; [reflexivity|]). split; [|split; [|split]].
  - exists (GetManifestCreated openEnv "app" "v1" st).2, delete, [].
    by repeat split.
  - vm_compute. repeat (first [left; reflexivity | right]).
  - vm_compute. repeat (first [left; reflexivity | right]).
  - intros [_ H]. destruct H as (tag0 & tags' & created & st1 & ev1 & Heq & Hc & Hlt).
    + reflexivity.
    + injection Heq as <- <-.
      apply (f_equal (fun r => match r.1.1 with Ok c => c | _ => 0 end)) in Hc.
      vm_compute in Hc. subst created. vm_compute in Hlt. discriminate Hlt.
Defined.
